(** * Hostel Dada: a shallow embedding of the six console modules

    The C++ program keeps every module's data in file-level globals and
    reads its inputs from [std::cin].  Here each module is a Rocq module
    whose functions take the globals and the inputs as arguments and return
    the new globals together with what the module prints.

    - [int] values are integers of [Z]; the arithmetic the program does on
      them goes through [CInt], which writes the 32-bit wrap-around out.
      In C++ a signed sum, difference or product that does not fit an [int]
      is undefined: a definition that goes through [CInt] stands for the
      program where the exact results fit, and the theorems about results
      say where that is.
    - [std::priority_queue] is the binary heap of libstdc++'s
      <bits/stl_heap.h> over a [list] that stands for the [std::vector].
    - [std::map] and [std::unordered_map] are [gmap]s; [operator[]] on a
      missing key yields the value-initialised element. *)

From Stdlib Require Import ZArith Lia ZifyNat List Bool Permutation Sorted.
From stdpp Require Import gmap strings list sorting fin_maps.

Local Open Scope Z_scope.
Local Open Scope string_scope.

(** ** [int] arithmetic *)

Module CInt.

Definition int_min : Z := -2147483648.
Definition int_max : Z := 2147483647.

Definition in_range (z : Z) : Prop := int_min <= z <= int_max.

(** Reduction of an exact result to the 32-bit two's complement value: the
    identity on the values of [int].  Outside them the C++ operation is
    undefined; the wrap-around is what a two's complement machine
    computes. *)
Definition wrap (z : Z) : Z := (z + 2147483648) mod 4294967296 - 2147483648.

Definition add (a b : Z) : Z := wrap (a + b).
Definition sub (a b : Z) : Z := wrap (a - b).
Definition mul (a b : Z) : Z := wrap (a * b).

End CInt.

(** ** libstdc++ heap operations, [std::priority_queue] and [std::sort] *)

Module Stl.

Section Algorithms.

Context {T : Type}.
Variable comp : T -> T -> bool.

(** [std::__push_heap]: the hole climbs while it is below [topIndex] and
    its parent compares before [value].  The hole index decreases at each
    turn, so [fuel = holeIndex] turns are always enough. *)
Fixpoint push_heap_loop (fuel : nat) (first : list T) (holeIndex topIndex : nat)
    (value : T) : list T :=
  let parent := ((holeIndex - 1) / 2)%nat in
  match fuel with
  | S fuel' =>
      if (topIndex <? holeIndex)%nat && comp (nth parent first value) value
      then push_heap_loop fuel' (<[holeIndex := nth parent first value]> first)
             parent topIndex value
      else <[holeIndex := value]> first
  | O => <[holeIndex := value]> first
  end.

Definition std_push_heap_at (first : list T) (holeIndex topIndex : nat) (value : T)
    : list T :=
  push_heap_loop holeIndex first holeIndex topIndex value.

(** [std::push_heap(first, last)]: the last element is the value pushed. *)
Definition std_push_heap (c : list T) : list T :=
  match last c with
  | Some value => std_push_heap_at c (length c - 1) 0 value
  | None => c
  end.

(** The [while (secondChild < (len - 1) / 2)] loop of [std::__adjust_heap]:
    the hole moves to the child that does not compare before its sibling. *)
Fixpoint adjust_heap_loop (fuel : nat) (first : list T) (holeIndex secondChild len : nat)
    (value : T) : list T * nat * nat :=
  match fuel with
  | S fuel' =>
      if (secondChild <? (len - 1) / 2)%nat
      then
        let secondChild := (2 * (secondChild + 1))%nat in
        let secondChild :=
          if comp (nth secondChild first value) (nth (secondChild - 1) first value)
          then (secondChild - 1)%nat else secondChild in
        adjust_heap_loop fuel' (<[holeIndex := nth secondChild first value]> first)
          secondChild secondChild len value
      else (first, holeIndex, secondChild)
  | O => (first, holeIndex, secondChild)
  end.

(** [std::__adjust_heap(first, holeIndex, len, value)].  [std::pop_heap]
    calls it with [len >= 1]; the test on [(len - 2) / 2] is reached for an
    even [len] only, so for [len >= 2], where the subtraction on [nat] is
    the one on [ptrdiff_t]. *)
Definition std_adjust_heap (first : list T) (holeIndex len : nat) (value : T) : list T :=
  let topIndex := holeIndex in
  let '(first, holeIndex, secondChild) :=
    adjust_heap_loop len first holeIndex holeIndex len value in
  let '(first, holeIndex) :=
    if Nat.even len && (secondChild =? (len - 2) / 2)%nat
    then
      let secondChild := (2 * (secondChild + 1))%nat in
      (<[holeIndex := nth (secondChild - 1) first value]> first, (secondChild - 1)%nat)
    else (first, holeIndex) in
  std_push_heap_at first holeIndex topIndex value.

(** [std::pop_heap(first, last)]: the first element goes to the last slot
    and the old last element is sifted into the shorter heap. *)
Definition std_pop_heap (c : list T) : list T :=
  if (1 <? length c)%nat
  then
    match last c, head c with
    | Some value, Some top =>
        std_adjust_heap (<[(length c - 1)%nat := top]> c) 0 (length c - 1) value
    | _, _ => c
    end
  else c.

(** [std::priority_queue]: [push] is [push_back] then [push_heap], [pop]
    is [pop_heap] then [pop_back], [top] is [front]. *)
Definition pq_push (c : list T) (x : T) : list T := std_push_heap (c ++ [x])%list.
Definition pq_top (c : list T) : option T := head c.
Definition pq_pop (c : list T) : list T := removelast (std_pop_heap c).

(** [while (!pq.empty()) { x = pq.top(); pq.pop(); print x; }]: one turn per
    element. *)
Fixpoint drain_loop (fuel : nat) (c : list T) : list T :=
  match fuel with
  | S fuel' =>
      match pq_top c with
      | Some x => x :: drain_loop fuel' (pq_pop c)
      | None => []
      end
  | O => []
  end.

Definition drain (c : list T) : list T := drain_loop (length c) c.

(** The heap after pushing the elements of [xs] one by one. *)
Definition pq_of (xs : list T) : list T := fold_left pq_push xs [].

(** [std::is_heap]: no parent compares before its child. *)
Definition is_heap_upto (n : nat) (c : list T) : Prop :=
  forall i x y, (0 < i < n)%nat -> c !! i = Some x -> c !! ((i - 1) / 2)%nat = Some y ->
    comp y x = false.

Definition is_heap (c : list T) : Prop := is_heap_upto (length c) c.

(** What [std::sort(first, last, comp)] promises: the range holds the same
    elements and is sorted, i.e. no element compares before its
    predecessor.  The order of equivalent elements is left open. *)
Definition sort_post (l l' : list T) : Prop :=
  l ≡ₚ l' /\ Sorted (fun a b => comp b a = false) l'.

(** [std::__unguarded_linear_insert] on the reversed prefix: [val] moves
    towards the front while it compares before the element next to it. *)
Fixpoint linear_insert (val : T) (rev_prefix : list T) : list T :=
  match rev_prefix with
  | [] => [val]
  | next :: rest =>
      if comp val next then next :: linear_insert val rest
      else val :: next :: rest
  end.

(** One turn of [std::__insertion_sort]: an element that compares before
    the first one is moved to the front, any other is inserted from the
    back. *)
Definition insertion_step (prefix : list T) (val : T) : list T :=
  match prefix with
  | [] => [val]
  | first :: _ =>
      if comp val first then val :: prefix
      else rev (linear_insert val (rev prefix))
  end.

(** [std::__insertion_sort], the algorithm libstdc++'s [std::sort] runs on
    a range of at most 16 elements. *)
Definition insertion_sort (l : list T) : list T := fold_left insertion_step l [].

End Algorithms.

End Stl.

(** ** HostelFixer: the task queue and the shortest path *)

Module HostelFixer.

Record Task := { desc : string; urgency : Z }.

(** [Task::operator>]. *)
Definition Task_gt (a other : Task) : bool := (other.(urgency) <? a.(urgency))%Z.

(** The global [tasks] starts empty. *)
Definition tasks : list Task := [].

(** [tasks.push({desc, urg})]. *)
Definition insert (tasks : list Task) (desc : string) (urg : Z) : list Task :=
  Stl.pq_push Task_gt tasks {| desc := desc; urgency := urg |}.

(** [auto temp = tasks; while (!temp.empty()) ...]: the printed tasks. *)
Definition listByUrgency (tasks : list Task) : list Task := Stl.drain Task_gt tasks.

(** The global [graph]. *)
Definition graph : gmap string (list (string * Z)) :=
  <["Gate" := [("Mess", 2); ("Laundry", 4)]]>
  (<["Mess" := [("Gate", 2); ("Laundry", 1)]]>
  (<["Laundry" := [("Gate", 4); ("Mess", 1)]]> ∅)).

(** The initial distance [1e9] of every key of the graph. *)
Definition INF : Z := 1000000000.

(** [graph[u]] and [dist[v]]: a missing key reads as the empty vector and
    as [0]. *)
Definition graph_at (graph : gmap string (list (string * Z))) (u : string)
    : list (string * Z) :=
  default [] (graph !! u).

Definition dist_at (dist : gmap string Z) (v : string) : Z := default 0 (dist !! v).

(** [operator<] and [operator>] of [std::pair<int, std::string>], the order
    [std::greater<>] gives the queue. *)
Definition pair_lt (a b : Z * string) : bool :=
  (a.1 <? b.1)%Z || (negb (b.1 <? a.1)%Z && String.ltb a.2 b.2).

Definition pair_gt (a b : Z * string) : bool := pair_lt b a.

(** [for (auto& [v, w] : graph[u]) if (dist[v] > dist[u] + w) ...].  The
    sum is an [int] sum: [CInt.add] is that sum as long as it fits an
    [int]. *)
Fixpoint relax (u : string) (edges : list (string * Z)) (dist : gmap string Z)
    (pq : list (Z * string)) : gmap string Z * list (Z * string) :=
  match edges with
  | [] => (dist, pq)
  | (v, w) :: edges' =>
      if (CInt.add (dist_at dist u) w <? dist_at dist v)%Z
      then
        let dist := <[v := CInt.add (dist_at dist u) w]> dist in
        relax u edges' dist (Stl.pq_push pair_gt pq (dist_at dist v, v))
      else relax u edges' dist pq
  end.

(** One turn of [while (!pq.empty())]; [None] when the queue is empty. *)
Definition dijkstra_step (graph : gmap string (list (string * Z)))
    (dist : gmap string Z) (pq : list (Z * string))
    : option (gmap string Z * list (Z * string)) :=
  match Stl.pq_top pq with
  | None => None
  | Some (d, u) =>
      let pq := Stl.pq_pop pair_gt pq in
      if (dist_at dist u <? d)%Z then Some (dist, pq)
      else Some (relax u (graph_at graph u) dist pq)
  end.

(** The loop, [fuel] turns at most: [None] when they do not empty the
    queue. *)
Fixpoint dijkstra_loop (fuel : nat) (graph : gmap string (list (string * Z)))
    (dist : gmap string Z) (pq : list (Z * string)) : option (gmap string Z) :=
  match dijkstra_step graph dist pq with
  | None => Some dist
  | Some (dist', pq') =>
      match fuel with
      | S fuel' => dijkstra_loop fuel' graph dist' pq'
      | O => None
      end
  end.

(** [for (auto& kv : graph) dist[kv.first] = 1e9; dist[src] = 0;]. *)
Definition dist_init (graph : gmap string (list (string * Z))) (src : string)
    : gmap string Z :=
  <[src := 0]> ((fun _ => INF) <$> graph).

Definition shortestPath (fuel : nat) (graph : gmap string (list (string * Z)))
    (src dest : string) : option Z :=
  dist ← dijkstra_loop fuel graph (dist_init graph src) (Stl.pq_push pair_gt [] (0, src));
  Some (dist_at dist dest).

(** A walk along edges of the graph from [src], with its total weight. *)
Inductive path (graph : gmap string (list (string * Z))) (src : string)
    : string -> Z -> Prop :=
  | path_refl : path graph src src 0
  | path_step u v w W :
      path graph src u W -> (v, w) ∈ graph_at graph u -> path graph src v (W + w).

(** [d] is the least total weight of a walk from [src] to [dest]. *)
Definition least_weight (graph : gmap string (list (string * Z))) (src dest : string)
    (d : Z) : Prop :=
  path graph src dest d /\ forall W, path graph src dest W -> d <= W.

(** [HostelFixer::run]: the new task queue, the printed tasks and the
    printed distance from Gate to Laundry ([None] if [fuel] turns of the
    loop are not enough). *)
Definition run (fuel : nat) (tasks : list Task) (desc : string) (urg : Z)
    : list Task * (list Task * option Z) :=
  let tasks := insert tasks desc urg in
  (tasks, (listByUrgency tasks, shortestPath fuel graph "Gate" "Laundry")).

End HostelFixer.

(** ** LaundryLoad: booking a slot *)

Module LaundryLoad.

(** The global [slots]. *)
Definition slots : list (Z * Z) := [(9, 10); (10, 11); (11, 12)].

Inductive Result := Booked | SlotConflict.

(** [!(end <= s.first || start >= s.second)]. *)
Definition overlaps (start end_ : Z) (s : Z * Z) : bool :=
  negb ((end_ <=? s.1)%Z || (s.2 <=? start)%Z).

(** The [for] loop that sets [clash] and breaks at the first overlap. *)
Fixpoint clash (start end_ : Z) (slots : list (Z * Z)) : bool :=
  match slots with
  | [] => false
  | s :: slots' => if overlaps start end_ s then true else clash start end_ slots'
  end.

(** [LaundryLoad::run] after the two hours are read: the new [slots] and
    the message. *)
Definition run (slots : list (Z * Z)) (start end_ : Z) : list (Z * Z) * Result :=
  if clash start end_ slots then (slots, SlotConflict)
  else ((slots ++ [(start, end_)])%list, Booked).

End LaundryLoad.

(** ** FoodFight: the sliding-window report *)

Module FoodFight.

(** The global [entryTimes] and the local [window]. *)
Definition entryTimes : list Z := [1; 2; 2; 3; 4; 4; 5].
Definition window : nat := 2.

Record Report := {
  lines : list (Z * Z * Z);   (* Time a to b: cnt people *)
  bestTime : Z;
  minQueue : Z
}.

(** [std::vector<int> prefix(n + 1, 0)] filled by [prefix[i+1] = prefix[i] + 1]. *)
Definition prefix_of (n : nat) : list Z :=
  fold_left (fun prefix i => <[S i := CInt.add (nth i prefix 0) 1]> prefix)
    (seq 0 n) (replicate (S n) 0).

(** The indices [i] with [i + window <= entryTimes.size()]. *)
Definition windows (n window : nat) : list nat := seq 0 (S n - window).

(** A printed line.  A vector index outside the vector is undefined
    behaviour: [None].  [i + window - 1] is computed in [size_t], so for
    [i + window = 0] it is the largest [size_t], outside every vector. *)
Definition queue_line (entryTimes prefix : list Z) (window i : nat)
    : option (Z * Z * Z) :=
  hi ← prefix !! (i + window)%nat;
  lo ← prefix !! i;
  a ← entryTimes !! i;
  b ← (if (i + window =? 0)%nat then None else entryTimes !! (i + window - 1)%nat);
  Some (a, b, CInt.sub hi lo).

(** One turn of the second loop on [(bestTime, minQueue)]. *)
Definition best_step (entryTimes prefix : list Z) (window : nat)
    (acc : option (Z * Z)) (i : nat) : option (Z * Z) :=
  '(bestTime, minQueue) ← acc;
  hi ← prefix !! (i + window)%nat;
  lo ← prefix !! i;
  let cnt := CInt.sub hi lo in
  if (cnt <? minQueue)%Z
  then t ← entryTimes !! i; Some (t, cnt)
  else Some (bestTime, minQueue).

(** [FoodFight::run]. *)
Definition run (entryTimes : list Z) (window : nat) : option Report :=
  let n := length entryTimes in
  let prefix := prefix_of n in
  ls ← mapM (queue_line entryTimes prefix window) (windows n window);
  t0 ← entryTimes !! 0%nat;
  '(bestTime, minQueue) ←
    fold_left (best_step entryTimes prefix window) (windows n window)
      (Some (t0, CInt.wrap (Z.of_nat n)));
  Some {| lines := ls; bestTime := bestTime; minQueue := minQueue |}.

End FoodFight.

(** ** RoomieMatcher: greedy room assignment *)

Module RoomieMatcher.

(** The globals [students], [rooms] and [preferences]. *)
Definition students : list string := ["Alice"; "Bob"; "Charlie"; "Daisy"].
Definition rooms : list string := ["A1"; "A2"].
Definition preferences : gmap string (list string) :=
  <["Alice" := ["A1"]]> (<["Bob" := ["A2"]]>
  (<["Charlie" := ["A1"; "A2"]]> (<["Daisy" := ["A2"]]> ∅))).

(** The loop of [bfsMatch] over [preferences[student]]. *)
Fixpoint bfsMatch_loop (student : string) (prefs : list string)
    (matches : gmap string string) : gmap string string * bool :=
  match prefs with
  | [] => (matches, false)
  | room :: prefs' =>
      match matches !! room with
      | None => (<[room := student]> matches, true)
      | Some _ => bfsMatch_loop student prefs' matches
      end
  end.

Definition bfsMatch (preferences : gmap string (list string)) (student : string)
    (matches : gmap string string) : gmap string string * bool :=
  bfsMatch_loop student (default [] (preferences !! student)) matches.

(** [matches.clear(); for (student : students) bfsMatch(student);]. *)
Definition assign (preferences : gmap string (list string)) (students : list string)
    : gmap string string :=
  fold_left (fun matches student => (bfsMatch preferences student matches).1)
    students ∅.

(** [RoomieMatcher::run]: the new [matches] and the printed line of every
    room, [None] standing for [Unassigned]. *)
Definition run (preferences : gmap string (list string)) (students rooms : list string)
    : gmap string string * list (string * option string) :=
  let matches := assign preferences students in
  (matches, map (fun room => (room, matches !! room)) rooms).

End RoomieMatcher.

(** ** SnackCart: stock, purchases and the profit history *)

Module SnackCart.

Record Snack := { name : string; quantity : Z; price : Z; expiry : string }.

(** [ExpiryCompare::operator()]: [a.expiry > b.expiry] on [std::string]. *)
Definition ExpiryCompare (a b : Snack) : bool := String.ltb b.(expiry) a.(expiry).

(** The globals [stock] and [salesHistory]. *)
Record State := {
  stock : gmap string Snack;
  salesHistory : list (string * Z)   (* name, profit *)
}.

Definition stock0 : gmap string Snack :=
  <["Kurkure" := {| name := "Kurkure"; quantity := 10; price := 15; expiry := "2025-09-01" |}]>
  (<["Lays" := {| name := "Lays"; quantity := 5; price := 20; expiry := "2025-08-10" |}]>
  (<["Oreo" := {| name := "Oreo"; quantity := 8; price := 25; expiry := "2025-10-05" |}]> ∅)).

Definition state0 : State := {| stock := stock0; salesHistory := [] |}.

(** What the user types at the menu prompt: [opt] and, for [opt == 2], the
    name and the quantity. *)
Inductive Command :=
  | Back                              (* opt == 0 *)
  | ViewStock                         (* opt == 1 *)
  | BuySnack (name : string) (qty : Z) (* opt == 2 *)
  | ViewProfit                        (* opt == 3 *)
  | Other.                            (* any other opt *)

Inductive Output :=
  | Stock (shown : list Snack)
  | Purchased
  | OutOfStock                        (* Not enough stock or invalid snack. *)
  | ProfitHistory (shown : list (string * Z)) (total : Z)
  | InvalidOption.

(** [opt == 1]: every snack of [stock] is pushed on a fresh queue, which is
    then emptied.  [order] is the order in which the [unordered_map] hands
    out its snacks, which the standard leaves open; [rank] takes the order
    of [map_to_list]. *)
Definition rank_in (order : list Snack) : list Snack :=
  Stl.drain ExpiryCompare (Stl.pq_of ExpiryCompare order).

Definition rank (stock : gmap string Snack) : list Snack :=
  rank_in (map_to_list stock).*2.

(** [opt == 2].  [CInt.sub] and [CInt.mul] are the difference and the
    product of the program as long as they fit an [int]. *)
Definition purchase (st : State) (name : string) (qty : Z) : State * Output :=
  match st.(stock) !! name with
  | Some s =>
      if (qty <=? s.(quantity))%Z
      then
        let s' := {| name := s.(SnackCart.name); quantity := CInt.sub s.(quantity) qty;
                     price := s.(price); expiry := s.(expiry) |} in
        let profit := CInt.mul qty s'.(price) in
        ({| stock := <[name := s']> st.(stock);
            salesHistory := (st.(salesHistory) ++ [(name, profit)])%list |}, Purchased)
      else (st, OutOfStock)
  | None => (st, OutOfStock)
  end.

(** The lambda given to [std::sort]: [a.second > b.second]. *)
Definition by_profit (a b : string * Z) : bool := (b.2 <? a.2)%Z.

(** [total += p.second] over the history: [CInt.add] is that sum as long as
    every partial sum fits an [int]. *)
Definition total_profit (history : list (string * Z)) : Z :=
  fold_left (fun total p => CInt.add total p.2) history 0.

Section Menu.

(** [std::sort] is known by its contract only; [Stl.insertion_sort] is one
    function that meets it. *)
Variable std_sort : list (string * Z) -> list (string * Z).

(** [opt == 3]: the history is sorted in place, then printed and summed. *)
Definition profitReport (st : State) : State * Output :=
  let history := std_sort st.(salesHistory) in
  ({| stock := st.(stock); salesHistory := history |},
   ProfitHistory history (total_profit history)).

(** One turn of the menu loop; [None] is the [break] at [Back]. *)
Definition step (st : State) (c : Command) : option (State * Output) :=
  match c with
  | Back => None
  | ViewStock => Some (st, Stock (rank st.(stock)))
  | BuySnack name qty => Some (purchase st name qty)
  | ViewProfit => Some (profitReport st)
  | Other => Some (st, InvalidOption)
  end.

(** [SnackCart::run]: the loop ends at [Back], or when the input does. *)
Fixpoint run (st : State) (input : list Command) : State * list Output :=
  match input with
  | [] => (st, [])
  | c :: input' =>
      match step st c with
      | None => (st, [])
      | Some (st', out) =>
          let '(st'', outs) := run st' input' in
          (st'', out :: outs)
      end
  end.

End Menu.

End SnackCart.

(** ** MessyMess: the top dishes and the week planner *)

Module MessyMess.

Record Dish := { name : string; rating : Z }.

(** The global [dishes]. *)
Definition dishes : list Dish :=
  [ {| name := "Paneer"; rating := 5 |}; {| name := "Dal"; rating := 3 |};
    {| name := "Rice"; rating := 4 |}; {| name := "Aloo"; rating := 2 |};
    {| name := "Chole"; rating := 4 |} ].

(** [for (auto& d : dishes) heap.push({d.rating, d.name})] on a
    [std::priority_queue<std::pair<int, std::string>>], whose order is
    [operator<] of the pairs. *)
Definition heap_of (dishes : list Dish) : list (Z * string) :=
  fold_left (fun heap d => Stl.pq_push HostelFixer.pair_lt heap (d.(rating), d.(name)))
    dishes [].

(** [while (!heap.empty() && count < 3)]: [left] is [3 - count]. *)
Fixpoint top_loop (left : nat) (heap : list (Z * string)) : list (Z * string) :=
  match left with
  | S left' =>
      match Stl.pq_top heap with
      | Some top => top :: top_loop left' (Stl.pq_pop HostelFixer.pair_lt heap)
      | None => []
      end
  | O => []
  end.

Definition top_dishes (dishes : list Dish) : list (Z * string) :=
  top_loop 3 (heap_of dishes).

(** The local [dayDish]. *)
Definition dayDish : gmap string string :=
  <["Mon" := "Paneer"]> (<["Tue" := "Dal"]> (<["Wed" := "Rice"]>
  (<["Thu" := "Aloo"]> (<["Fri" := "Chole"]> ∅)))).

(** [for (auto& dd : dayDish)]: a [std::map] is walked in ascending order of
    its keys. *)
Definition in_key_order (m : gmap string string) : list (string * string) :=
  Stl.insertion_sort (fun a b => String.ltb a.1 b.1) (map_to_list m).

(** [MessyMess::run]: the printed dishes and the printed week. *)
Definition run (dishes : list Dish) : list (Z * string) * list (string * string) :=
  (top_dishes dishes, in_key_order dayDish).

End MessyMess.

(** ** [main]: the menu loop *)

Module Main.

(** The globals of the modules that change while the program runs. *)
Record Globals := {
  snack : SnackCart.State;
  matches : gmap string string;
  slots : list (Z * Z);
  tasks : list HostelFixer.Task
}.

Definition globals0 : Globals :=
  {| snack := SnackCart.state0; matches := ∅;
     slots := LaundryLoad.slots; tasks := HostelFixer.tasks |}.

(** What the user types at the top menu: [choice] and, after it, what the
    chosen module reads. *)
Inductive Choice :=
  | Exit                                            (* 0 *)
  | ChooseSnackCart (input : list SnackCart.Command) (* 1 *)
  | ChooseRoomieMatcher                             (* 2 *)
  | ChooseMessyMess                                 (* 3 *)
  | ChooseLaundryLoad (start end_ : Z)              (* 4 *)
  | ChooseHostelFixer (desc : string) (urg : Z)     (* 5 *)
  | ChooseFoodFight                                 (* 6 *)
  | Invalid.                                        (* default *)

Inductive Printed :=
  | SnackCartOut (out : list SnackCart.Output)
  | RoomieMatcherOut (out : list (string * option string))
  | MessyMessOut (out : list (Z * string) * list (string * string))
  | LaundryLoadOut (out : LaundryLoad.Result)
  | HostelFixerOut (out : list HostelFixer.Task * option Z)
  | FoodFightOut (out : option FoodFight.Report)
  | InvalidOut.

(** The turns given to the loop of the shortest path: four empty the queue
    on the global graph. *)
Definition path_turns : nat := 4.

Section Loop.

Variable std_sort : list (string * Z) -> list (string * Z).

(** The [switch]; [None] is the [break] at choice 0. *)
Definition dispatch (g : Globals) (c : Choice) : option (Globals * Printed) :=
  match c with
  | Exit => None
  | ChooseSnackCart input =>
      let '(st, out) := SnackCart.run std_sort g.(snack) input in
      Some ({| snack := st; matches := g.(matches); slots := g.(slots);
               tasks := g.(tasks) |}, SnackCartOut out)
  | ChooseRoomieMatcher =>
      let '(m, out) :=
        RoomieMatcher.run RoomieMatcher.preferences RoomieMatcher.students
          RoomieMatcher.rooms in
      Some ({| snack := g.(snack); matches := m; slots := g.(slots);
               tasks := g.(tasks) |}, RoomieMatcherOut out)
  | ChooseMessyMess => Some (g, MessyMessOut (MessyMess.run MessyMess.dishes))
  | ChooseLaundryLoad start end_ =>
      let '(sl, out) := LaundryLoad.run g.(slots) start end_ in
      Some ({| snack := g.(snack); matches := g.(matches); slots := sl;
               tasks := g.(tasks) |}, LaundryLoadOut out)
  | ChooseHostelFixer desc urg =>
      let '(ts, out) := HostelFixer.run path_turns g.(tasks) desc urg in
      Some ({| snack := g.(snack); matches := g.(matches); slots := g.(slots);
               tasks := ts |}, HostelFixerOut out)
  | ChooseFoodFight =>
      Some (g, FoodFightOut (FoodFight.run FoodFight.entryTimes FoodFight.window))
  | Invalid => Some (g, InvalidOut)
  end.

(** [main]: the loop ends at choice 0, or when the input does. *)
Fixpoint main (g : Globals) (input : list Choice) : Globals * list Printed :=
  match input with
  | [] => (g, [])
  | c :: input' =>
      match dispatch g c with
      | None => (g, [])
      | Some (g', out) =>
          let '(g'', outs) := main g' input' in
          (g'', out :: outs)
      end
  end.

End Loop.

End Main.

(** * Properties *)

(** ** [int] arithmetic *)

Module CIntFacts.
Import CInt.

Lemma wrap_exact z : in_range z -> wrap z = z.
Proof.
  unfold in_range, int_min, int_max, wrap. intros H.
  rewrite Z.mod_small by lia. lia.
Qed.

Lemma wrap_in_range z : in_range (wrap z).
Proof.
  unfold in_range, int_min, int_max, wrap.
  pose proof (Z.mod_pos_bound (z + 2147483648) 4294967296 eq_refl). lia.
Qed.

Lemma wrap_wrap_add a b : wrap (wrap a + b) = wrap (a + b).
Proof.
  unfold wrap.
  replace ((a + 2147483648) mod 4294967296 - 2147483648 + b + 2147483648)
    with ((a + 2147483648) mod 4294967296 + b) by lia.
  replace (a + b + 2147483648) with (a + 2147483648 + b) by lia.
  now rewrite Zplus_mod_idemp_l.
Qed.

Lemma wrap_sub_wraps a b : wrap (wrap a - wrap b) = wrap (a - b).
Proof.
  unfold wrap.
  replace ((a + 2147483648) mod 4294967296 - 2147483648
           - ((b + 2147483648) mod 4294967296 - 2147483648) + 2147483648)
    with ((a + 2147483648) mod 4294967296 - (b + 2147483648) mod 4294967296
          + 2147483648) by lia.
  rewrite <- Zplus_mod_idemp_l, <- Zminus_mod, Zplus_mod_idemp_l.
  f_equal. f_equal. lia.
Qed.

Lemma add_exact a b : in_range (a + b) -> add a b = a + b.
Proof. apply wrap_exact. Qed.

Lemma sub_exact a b : in_range (a - b) -> sub a b = a - b.
Proof. apply wrap_exact. Qed.

Lemma mul_exact a b : in_range (a * b) -> mul a b = a * b.
Proof. apply wrap_exact. Qed.

End CIntFacts.

(** ** The heap operations keep the elements *)

Module StlFacts.
Import Stl.

Section HeapPerm.

Context {T : Type}.
Variable comp : T -> T -> bool.

Lemma insert_cons_perm (l : list T) (i : nat) (x y : T) :
  l !! i = Some y -> y :: <[i := x]> l ≡ₚ x :: l.
Proof.
  revert i. induction l as [|a l IH]; intros [|i] H; simpl in *; try discriminate.
  - injection H as ->. apply perm_swap.
  - rewrite perm_swap, (IH i H). apply perm_swap.
Qed.

(** Filling the hole [j] from slot [i] and putting [x] in slot [i] gives
    the elements one gets by putting [x] in the hole. *)
Lemma move_hole_perm (l : list T) (i j : nat) (x a : T) :
  i <> j -> l !! i = Some a -> (j < length l)%nat ->
  <[i := x]> (<[j := a]> l) ≡ₚ <[j := x]> l.
Proof.
  intros Hij Hi Hj.
  destruct (lookup_lt_is_Some_2 l j Hj) as [b Hb].
  apply (Permutation_cons_inv (a := a)), (Permutation_cons_inv (a := b)).
  rewrite (insert_cons_perm (<[j := a]> l) i x a)
    by (rewrite list_lookup_insert_ne by congruence; exact Hi).
  rewrite (perm_swap x b), (insert_cons_perm l j a b Hb).
  rewrite (perm_swap a b), (insert_cons_perm l j x b Hb).
  apply perm_swap.
Qed.

Lemma push_heap_loop_S fuel (first : list T) hole top value :
  push_heap_loop comp (S fuel) first hole top value =
  if (top <? hole)%nat && comp (nth ((hole - 1) / 2) first value) value
  then push_heap_loop comp fuel (<[hole := nth ((hole - 1) / 2) first value]> first)
         ((hole - 1) / 2) top value
  else <[hole := value]> first.
Proof. reflexivity. Qed.

Lemma adjust_heap_loop_S fuel (first : list T) hole sc len value :
  adjust_heap_loop comp (S fuel) first hole sc len value =
  if (sc <? (len - 1) / 2)%nat
  then
    adjust_heap_loop comp fuel
      (<[hole := nth (if comp (nth (2 * (sc + 1)) first value)
                           (nth (2 * (sc + 1) - 1) first value)
                      then 2 * (sc + 1) - 1 else 2 * (sc + 1))%nat first value]> first)
      (if comp (nth (2 * (sc + 1)) first value) (nth (2 * (sc + 1) - 1) first value)
       then 2 * (sc + 1) - 1 else 2 * (sc + 1))%nat
      (if comp (nth (2 * (sc + 1)) first value) (nth (2 * (sc + 1) - 1) first value)
       then 2 * (sc + 1) - 1 else 2 * (sc + 1))%nat
      len value
  else (first, hole, sc).
Proof. reflexivity. Qed.

(** The loop rule of [push_heap_loop]: a property of the vector and the hole
    that every climb keeps holds when the loop ends, where the value is
    written into the hole. *)
Lemma push_heap_loop_rule (P : list T -> nat -> Prop) (top : nat) (value : T) :
  (forall first hole, P first hole -> (top < hole)%nat ->
     comp (nth ((hole - 1) / 2) first value) value = true ->
     P (<[hole := nth ((hole - 1) / 2) first value]> first) ((hole - 1) / 2)%nat) ->
  forall fuel first hole, (hole <= fuel)%nat -> P first hole ->
  exists first' hole',
    push_heap_loop comp fuel first hole top value = <[hole' := value]> first'
    /\ P first' hole'
    /\ ((hole' <= top)%nat \/ comp (nth ((hole' - 1) / 2) first' value) value = false).
Proof.
  intros Hstep. induction fuel as [|fuel IH]; intros first hole Hfuel HP.
  - exists first, hole. split; [reflexivity |]. split; [exact HP | left; lia].
  - rewrite push_heap_loop_S.
    destruct (Nat.ltb_spec top hole) as [Hlt | Hge]; cbn [andb].
    + destruct (comp (nth ((hole - 1) / 2) first value) value) eqn:Hc.
      * apply IH; [lia | now apply Hstep].
      * exists first, hole. split; [reflexivity |]. split; [exact HP | now right].
    + exists first, hole. split; [reflexivity |]. split; [exact HP | left; lia].
Qed.

(** The loop rule of [adjust_heap_loop]. *)
Lemma adjust_heap_loop_rule (P : list T -> nat -> Prop) (len : nat) (value : T) :
  (forall first hole, P first hole -> (hole < (len - 1) / 2)%nat ->
     forall c,
       c = (if comp (nth (2 * (hole + 1)) first value)
                 (nth (2 * (hole + 1) - 1) first value)
            then 2 * (hole + 1) - 1 else 2 * (hole + 1))%nat ->
       P (<[hole := nth c first value]> first) c) ->
  forall fuel first hole, (len <= fuel + hole)%nat -> P first hole ->
  exists first' hole',
    adjust_heap_loop comp fuel first hole hole len value = (first', hole', hole')
    /\ P first' hole' /\ ((len - 1) / 2 <= hole')%nat.
Proof.
  intros Hstep. induction fuel as [|fuel IH]; intros first hole Hfuel HP.
  - exists first, hole. split; [reflexivity |]. split; [exact HP | lia].
  - rewrite adjust_heap_loop_S.
    destruct (Nat.ltb_spec hole ((len - 1) / 2)) as [Hlt | Hge].
    + apply IH; [destruct (comp _ _); lia | now apply (Hstep first hole HP Hlt)].
    + exists first, hole. split; [reflexivity |]. split; [exact HP | lia].
Qed.

(** What every move of the hole keeps: the hole stays below [bound], the
    slots from [bound] on are those of [first0], and with [value] in the
    hole the vector holds the elements of [L]. *)
Definition hole_perm (bound : nat) (L first0 : list T) (value : T)
    (first : list T) (hole : nat) : Prop :=
  (hole < bound)%nat /\ (bound <= length first)%nat
  /\ length first = length first0
  /\ <[hole := value]> first ≡ₚ L
  /\ forall k, (bound <= k)%nat -> first !! k = first0 !! k.

Lemma hole_perm_move bound L first0 value first hole c :
  hole_perm bound L first0 value first hole ->
  (c < bound)%nat -> c <> hole ->
  hole_perm bound L first0 value (<[hole := nth c first value]> first) c.
Proof.
  intros (Hh & Hb & Hlen & Hperm & Hframe) Hc Hne.
  destruct (lookup_lt_is_Some_2 first c) as [a Ha]; [lia |].
  rewrite (nth_lookup_Some _ _ _ _ Ha).
  split; [exact Hc |]. rewrite length_insert.
  split; [exact Hb |]. split; [exact Hlen |]. split.
  - rewrite <- Hperm. apply move_hole_perm; [exact Hne | exact Ha | lia].
  - intros k Hk. rewrite list_lookup_insert_ne by lia. now apply Hframe.
Qed.

Lemma hole_perm_fill bound L first0 value first hole :
  hole_perm bound L first0 value first hole ->
  <[hole := value]> first ≡ₚ L
  /\ length (<[hole := value]> first) = length first0
  /\ forall k, (bound <= k)%nat -> <[hole := value]> first !! k = first0 !! k.
Proof.
  intros (Hh & Hb & Hlen & Hperm & Hframe).
  split; [exact Hperm |]. split; [now rewrite length_insert |].
  intros k Hk. rewrite list_lookup_insert_ne by lia. now apply Hframe.
Qed.

Lemma std_push_heap_at_perm bound L first0 value first hole top :
  hole_perm bound L first0 value first hole ->
  std_push_heap_at comp first hole top value ≡ₚ L
  /\ length (std_push_heap_at comp first hole top value) = length first0
  /\ forall k, (bound <= k)%nat ->
       std_push_heap_at comp first hole top value !! k = first0 !! k.
Proof.
  intros HP. unfold std_push_heap_at.
  destruct (push_heap_loop_rule (hole_perm bound L first0 value) top value)
    with (fuel := hole) (first := first) (hole := hole)
    as (first' & hole' & -> & HP' & _); [| lia | exact HP |].
  - intros f h Hf Hlt _. apply hole_perm_move; [exact Hf | | lia].
    destruct Hf as (Hh & _). lia.
  - now apply hole_perm_fill.
Qed.

Lemma std_adjust_heap_perm bound L first0 value first hole :
  hole_perm bound L first0 value first hole ->
  std_adjust_heap comp first hole bound value ≡ₚ L
  /\ length (std_adjust_heap comp first hole bound value) = length first0
  /\ forall k, (bound <= k)%nat ->
       std_adjust_heap comp first hole bound value !! k = first0 !! k.
Proof.
  intros HP. unfold std_adjust_heap.
  destruct (adjust_heap_loop_rule (hole_perm bound L first0 value) bound value)
    with (fuel := bound) (first := first) (hole := hole)
    as (first' & hole' & -> & HP' & Hexit); [| lia | exact HP |].
  - intros f h Hf Hlt c ->. apply hole_perm_move; [exact Hf | |];
      destruct (comp _ _); lia.
  - destruct (Nat.even bound && (hole' =? (bound - 2) / 2)%nat) eqn:Hlast.
    + apply andb_prop in Hlast as [Heven Heq].
      apply Nat.even_spec in Heven as [k ->]. apply Nat.eqb_eq in Heq.
      destruct HP' as (Hh & HP').
      apply (std_push_heap_at_perm (2 * k) L first0).
      apply hole_perm_move; [exact (conj Hh HP') | lia | lia].
    + now apply (std_push_heap_at_perm bound L first0).
Qed.

Lemma std_push_heap_perm (c : list T) :
  std_push_heap comp c ≡ₚ c /\ length (std_push_heap comp c) = length c.
Proof.
  unfold std_push_heap. destruct (last c) as [value|] eqn:Hlast; [| now split].
  rewrite last_lookup in Hlast.
  assert (0 < length c)%nat as Hpos
    by (destruct c; [discriminate | simpl; lia]).
  replace (Nat.pred (length c)) with (length c - 1)%nat in Hlast by lia.
  destruct (std_push_heap_at_perm (length c) c c value c (length c - 1) 0)
    as (Hperm & Hlen & _); [| now split].
  split; [lia |]. split; [lia |]. split; [reflexivity |].
  split; [now rewrite list_insert_id | reflexivity].
Qed.

(** [push] adds the element and nothing else. *)
Lemma pq_push_perm (c : list T) (x : T) : pq_push comp c x ≡ₚ x :: c.
Proof.
  unfold pq_push. rewrite (proj1 (std_push_heap_perm _)).
  symmetry. apply Permutation_cons_append.
Qed.

Lemma pq_push_length (c : list T) (x : T) : length (pq_push comp c x) = S (length c).
Proof. now rewrite (Permutation_length (pq_push_perm c x)). Qed.

Lemma std_pop_heap_perm (c : list T) (top : T) :
  head c = Some top ->
  std_pop_heap comp c ≡ₚ c
  /\ length (std_pop_heap comp c) = length c
  /\ last (std_pop_heap comp c) = Some top.
Proof.
  intros Htop. unfold std_pop_heap.
  destruct (Nat.ltb_spec 1 (length c)) as [Hlen | Hlen].
  - rewrite Htop. destruct (last c) as [value|] eqn:Hlast;
      [| rewrite last_lookup in Hlast; apply lookup_ge_None in Hlast; lia].
    rewrite last_lookup in Hlast. rewrite head_lookup in Htop.
    replace (Nat.pred (length c)) with (length c - 1)%nat in Hlast by lia.
    set (n := (length c - 1)%nat) in *.
    destruct (std_adjust_heap_perm n (<[0%nat := value]> (<[n := top]> c))
                (<[n := top]> c) value (<[n := top]> c) 0)
      as (Hperm & Hlen' & Hframe).
    { split; [lia |]. rewrite length_insert.
      split; [lia |]. split; [reflexivity |]. split; reflexivity. }
    split; [| split].
    + rewrite Hperm, (move_hole_perm c 0 n value top) by (lia || exact Htop).
      now rewrite list_insert_id.
    + now rewrite Hlen', length_insert.
    + rewrite last_lookup, Hlen', length_insert.
      replace (Nat.pred (length c)) with n by lia.
      rewrite Hframe by lia. apply list_lookup_insert_eq. lia.
  - split; [reflexivity |]. split; [reflexivity |].
    destruct c as [|a [|b c]]; simpl in *; [discriminate | exact Htop | lia].
Qed.

(** [pop] removes the element [top] returns and nothing else. *)
Lemma pq_pop_perm (c : list T) (top : T) :
  pq_top c = Some top -> top :: pq_pop comp c ≡ₚ c.
Proof.
  intros Htop. unfold pq_top, pq_pop in *.
  destruct (std_pop_heap_perm c top Htop) as (Hperm & _ & Hlast).
  apply last_Some in Hlast as [l' Hl'].
  rewrite <- Hperm at 2. rewrite Hl', removelast_last.
  apply Permutation_cons_append.
Qed.

Lemma pq_pop_length (c : list T) (top : T) :
  pq_top c = Some top -> S (length (pq_pop comp c)) = length c.
Proof.
  intros Htop. now rewrite <- (Permutation_length (pq_pop_perm c top Htop)).
Qed.

Lemma pq_of_perm (xs : list T) : pq_of comp xs ≡ₚ xs.
Proof.
  unfold pq_of.
  assert (forall c, fold_left (pq_push comp) xs c ≡ₚ (xs ++ c)%list) as H.
  { induction xs as [|x xs IH]; intros c; simpl; [reflexivity |].
    rewrite IH, pq_push_perm. symmetry. apply Permutation_middle. }
  now rewrite H, app_nil_r.
Qed.

End HeapPerm.

(** ** The heap operations keep the heap order *)

Section HeapOrder.

Context {T : Type}.
Variable comp : T -> T -> bool.

(** What the operations need of the comparison (a strict weak order gives
    both). *)
Hypothesis comp_asym : forall a b, comp a b = true -> comp b a = false.
Hypothesis comp_negtrans :
  forall a b c, comp a b = false -> comp b c = false -> comp a c = false.

Lemma comp_irrefl a : comp a a = false.
Proof.
  destruct (comp a a) eqn:H; [| reflexivity].
  pose proof (comp_asym a a H). congruence.
Qed.

(** The heap order below [n] around a hole [h]: it holds between slots that
    are not the hole, and between the hole's parent and the hole's
    children. *)
Definition down_ok (n : nat) (c : list T) (h : nat) : Prop :=
  (forall i x y, (0 < i < n)%nat -> i <> h -> ((i - 1) / 2)%nat <> h ->
     c !! i = Some x -> c !! ((i - 1) / 2)%nat = Some y -> comp y x = false)
  /\ (forall i x y, (0 < i < n)%nat -> ((i - 1) / 2)%nat = h -> (0 < h)%nat ->
       c !! i = Some x -> c !! ((h - 1) / 2)%nat = Some y -> comp y x = false).

Definition hole_order (n : nat) (c : list T) (h : nat) : Prop :=
  (h < n)%nat /\ (n <= length c)%nat /\ down_ok n c h.

(** On the way up, [value] moreover fits above the children of the hole. *)
Definition up_order (n : nat) (value : T) (c : list T) (h : nat) : Prop :=
  hole_order n c h
  /\ forall i x, (0 < i < n)%nat -> ((i - 1) / 2)%nat = h -> c !! i = Some x ->
       comp value x = false.

Lemma down_move n (first : list T) h c value :
  hole_order n first h -> (0 < c < n)%nat -> ((c - 1) / 2)%nat = h ->
  (forall i x v, (0 < i < n)%nat -> ((i - 1) / 2)%nat = h -> i <> c ->
     first !! i = Some x -> first !! c = Some v -> comp v x = false) ->
  hole_order n (<[h := nth c first value]> first) c.
Proof.
  intros (Hh & Hn & Hd1 & Hd2) Hc Hpar Hsib.
  destruct (lookup_lt_is_Some_2 first c) as [v Hv]; [lia |].
  rewrite (nth_lookup_Some _ _ _ _ Hv).
  split; [lia |]. split; [now rewrite length_insert |]. split.
  - intros i x y Hi Hic Hip Hx Hy.
    destruct (decide (i = h)) as [->|Hih].
    + rewrite list_lookup_insert_eq in Hx by lia. injection Hx as <-.
      rewrite list_lookup_insert_ne in Hy by lia.
      apply (Hd2 c v y); auto; lia.
    + rewrite list_lookup_insert_ne in Hx by congruence.
      destruct (decide (((i - 1) / 2)%nat = h)) as [Hpi|Hpi].
      * rewrite Hpi, list_lookup_insert_eq in Hy by lia. injection Hy as <-.
        now apply (Hsib i x v).
      * rewrite list_lookup_insert_ne in Hy by congruence.
        now apply (Hd1 i x y).
  - intros i x y Hi Hpi Hc0 Hx Hy.
    rewrite list_lookup_insert_ne in Hx by lia.
    rewrite Hpar, list_lookup_insert_eq in Hy by lia. injection Hy as <-.
    apply (Hd1 i x v); auto; try lia. now rewrite Hpi.
Qed.

Lemma up_move n (first : list T) h value :
  up_order n value first h -> (0 < h)%nat ->
  comp (nth ((h - 1) / 2) first value) value = true ->
  up_order n value (<[h := nth ((h - 1) / 2) first value]> first) ((h - 1) / 2).
Proof.
  intros ((Hh & Hn & Hd1 & Hd2) & Hbelow) Hpos Hcomp.
  set (p := ((h - 1) / 2)%nat) in *.
  assert (p < h)%nat as Hp by (subst p; lia).
  destruct (lookup_lt_is_Some_2 first p) as [u Hu]; [lia |].
  rewrite (nth_lookup_Some _ _ _ _ Hu) in *.
  assert (forall i x, (0 < i < n)%nat -> i <> h -> ((i - 1) / 2)%nat = p ->
            first !! i = Some x -> comp u x = false) as Hsib.
  { intros i x Hi Hih Hpi Hx. apply (Hd1 i x u); auto; try lia. now rewrite Hpi. }
  split; [split; [lia | split; [now rewrite length_insert |]; split] |].
  - intros i x y Hi Hip Hpip Hx Hy.
    assert (i <> h) as Hih by (intros ->; now apply Hpip).
    rewrite list_lookup_insert_ne in Hx by congruence.
    destruct (decide (((i - 1) / 2)%nat = h)) as [Hpi|Hpi].
    + rewrite Hpi, list_lookup_insert_eq in Hy by lia. injection Hy as <-.
      apply (Hd2 i x u); auto.
    + rewrite list_lookup_insert_ne in Hy by congruence.
      now apply (Hd1 i x y).
  - intros i x y Hi Hpi Hp0 Hx Hy.
    rewrite list_lookup_insert_ne in Hy by lia.
    assert (comp y u = false) as Hyu by (apply (Hd1 p u y); auto; lia).
    destruct (decide (i = h)) as [->|Hih].
    + rewrite list_lookup_insert_eq in Hx by lia. now injection Hx as <-.
    + rewrite list_lookup_insert_ne in Hx by congruence.
      apply (comp_negtrans y u x); [exact Hyu | now apply (Hsib i x)].
  - intros i x Hi Hpi Hx.
    destruct (decide (i = h)) as [->|Hih].
    + rewrite list_lookup_insert_eq in Hx by lia. injection Hx as <-.
      now apply comp_asym.
    + rewrite list_lookup_insert_ne in Hx by congruence.
      apply (comp_negtrans value u x); [now apply comp_asym | now apply (Hsib i x)].
Qed.

Lemma up_fill n (first : list T) h value :
  up_order n value first h ->
  (h <= 0)%nat \/ comp (nth ((h - 1) / 2) first value) value = false ->
  is_heap_upto comp n (<[h := value]> first).
Proof.
  intros ((Hh & Hn & Hd1 & Hd2) & Hbelow) Hexit i x y Hi Hx Hy.
  destruct (decide (i = h)) as [->|Hih].
  - rewrite list_lookup_insert_eq in Hx by lia. injection Hx as <-.
    rewrite list_lookup_insert_ne in Hy by lia.
    destruct Hexit as [H0 | Hc]; [lia |].
    now rewrite (nth_lookup_Some _ _ _ _ Hy) in Hc.
  - rewrite list_lookup_insert_ne in Hx by congruence.
    destruct (decide (((i - 1) / 2)%nat = h)) as [Hpi|Hpi].
    + rewrite Hpi, list_lookup_insert_eq in Hy by lia. injection Hy as <-.
      now apply (Hbelow i x).
    + rewrite list_lookup_insert_ne in Hy by congruence.
      now apply (Hd1 i x y).
Qed.

Lemma std_push_heap_at_order n (first : list T) h value :
  up_order n value first h ->
  is_heap_upto comp n (std_push_heap_at comp first h 0 value).
Proof.
  intros HP. unfold std_push_heap_at.
  destruct (push_heap_loop_rule comp (up_order n value) 0 value)
    with (fuel := h) (first := first) (hole := h)
    as (first' & h' & -> & HP' & Hexit); [| lia | exact HP |].
  - intros f k Hf Hlt Hc. now apply up_move.
  - now apply up_fill.
Qed.

(** A hole without children below [n] is ready for the way up. *)
Lemma leaf_up_order n (first : list T) h value :
  hole_order n first h -> (n <= 2 * h + 1)%nat -> up_order n value first h.
Proof. intros HP Hleaf. split; [exact HP |]. intros i x Hi Hpi _. lia. Qed.

Lemma std_adjust_heap_order n (first : list T) value :
  hole_order n first 0 -> is_heap_upto comp n (std_adjust_heap comp first 0 n value).
Proof.
  intros HP. unfold std_adjust_heap.
  destruct (adjust_heap_loop_rule comp (hole_order n) n value)
    with (fuel := n) (first := first) (hole := 0%nat)
    as (first' & h' & -> & HP' & Hexit); [| lia | exact HP |].
  - intros f h Hf Hlt c Hc.
    assert (2 * (h + 1) < n)%nat as Hsc by lia.
    destruct Hf as (Hh & Hn & Hd).
    destruct (lookup_lt_is_Some_2 f (2 * (h + 1))) as [a Ha]; [lia |].
    destruct (lookup_lt_is_Some_2 f (2 * (h + 1) - 1)) as [b Hb]; [lia |].
    rewrite (nth_lookup_Some _ _ _ _ Ha), (nth_lookup_Some _ _ _ _ Hb) in Hc.
    destruct (comp a b) eqn:Hab; subst c.
    + apply down_move; [exact (conj Hh (conj Hn Hd)) | lia | lia |].
      intros i x v Hi Hpi Hne Hx Hv.
      assert (i = (2 * (h + 1))%nat) as -> by lia.
      rewrite Ha in Hx. rewrite Hb in Hv. injection Hx as <-. injection Hv as <-.
      now apply comp_asym.
    + apply down_move; [exact (conj Hh (conj Hn Hd)) | lia | lia |].
      intros i x v Hi Hpi Hne Hx Hv.
      assert (i = (2 * (h + 1) - 1)%nat) as -> by lia.
      rewrite Hb in Hx. rewrite Ha in Hv. injection Hx as <-. injection Hv as <-.
      exact Hab.
  - destruct (Nat.even n) eqn:Heven; cbn [andb].
    + apply Nat.even_spec in Heven as [k Hk].
      destruct (Nat.eqb_spec h' ((n - 2) / 2)) as [Heq | Hne].
      * apply std_push_heap_at_order, leaf_up_order; [| lia].
        destruct HP' as (Hh & HP'').
        apply down_move; [exact (conj Hh HP'') | lia | lia |].
        intros i x v Hi Hpi Hne _ _. lia.
      * apply std_push_heap_at_order, leaf_up_order; [exact HP' | lia].
    + assert (Nat.odd n = true) as Hodd by (now rewrite <- Nat.negb_even, Heven).
      apply Nat.odd_spec in Hodd as [k Hk].
      apply std_push_heap_at_order, leaf_up_order; [exact HP' | lia].
Qed.

Lemma is_heap_nil : is_heap comp (@nil T).
Proof. intros i x y Hi. simpl in Hi. lia. Qed.

(** [push] keeps the heap order. *)
Lemma pq_push_heap (c : list T) (x : T) :
  is_heap comp c -> is_heap comp (pq_push comp c x).
Proof.
  intros Hc. unfold is_heap. rewrite pq_push_length.
  unfold pq_push, std_push_heap. rewrite last_snoc, length_app. simpl.
  replace (length c + 1 - 1)%nat with (length c) by lia.
  apply std_push_heap_at_order, leaf_up_order; [| lia].
  split; [lia |]. split; [rewrite length_app; simpl; lia |]. split.
  - intros i a b Hi Hne _ Ha Hb.
    rewrite lookup_app_l in Ha by lia. rewrite lookup_app_l in Hb by lia.
    apply (Hc i a b); auto. lia.
  - intros i a b Hi Hpi. lia.
Qed.

(** [pop] keeps the heap order. *)
Lemma pq_pop_heap (c : list T) (top : T) :
  is_heap comp c -> pq_top c = Some top -> is_heap comp (pq_pop comp c).
Proof.
  intros Hc Htop.
  pose proof (pq_pop_length comp c top Htop) as Hlen.
  destruct (std_pop_heap_perm comp c top Htop) as (_ & Hlen' & _).
  assert (forall i, (i < length c - 1)%nat ->
            pq_pop comp c !! i = std_pop_heap comp c !! i) as Hlook.
  { intros i Hi. unfold pq_pop. rewrite removelast_firstn_len, Hlen'.
    apply lookup_take_lt. lia. }
  intros i x y Hi Hx Hy. rewrite Hlook in Hx, Hy by lia.
  revert Hx Hy. unfold std_pop_heap, pq_top in *.
  destruct (Nat.ltb_spec 1 (length c)) as [Hgt | Hle]; [| lia].
  rewrite Htop. destruct (last c) as [value|] eqn:Hlast;
    [| rewrite last_lookup in Hlast; apply lookup_ge_None in Hlast; lia].
  apply (std_adjust_heap_order (length c - 1)); [| lia].
  split; [lia |]. split; [rewrite length_insert; lia |]. split.
  - intros j a b Hj _ _ Ha Hb.
    rewrite list_lookup_insert_ne in Ha, Hb by lia.
    apply (Hc j a b); auto. lia.
  - intros j a b Hj _ Hp. lia.
Qed.

(** The first element of a heap compares before no element of it. *)
Lemma heap_top_first (c : list T) (top : T) :
  is_heap comp c -> pq_top c = Some top ->
  forall x, x ∈ c -> comp top x = false.
Proof.
  intros Hc Htop x Hx. unfold pq_top in Htop. rewrite head_lookup in Htop.
  apply list_elem_of_lookup in Hx as [i Hi]. revert x Hi.
  induction i as [i IH] using lt_wf_ind. intros x Hi.
  destruct (decide (i = 0%nat)) as [->|Hpos].
  - rewrite Htop in Hi. injection Hi as <-. apply comp_irrefl.
  - pose proof (lookup_lt_Some _ _ _ Hi) as Hlt.
    destruct (lookup_lt_is_Some_2 c ((i - 1) / 2)) as [y Hy]; [lia |].
    apply (comp_negtrans top y x).
    + apply (IH ((i - 1) / 2)%nat); [lia | exact Hy].
    + apply (Hc i x y); auto. lia.
Qed.

Lemma drain_loop_sorted (fuel : nat) (c : list T) :
  length c = fuel -> is_heap comp c ->
  drain_loop comp fuel c ≡ₚ c
  /\ StronglySorted (fun a b => comp a b = false) (drain_loop comp fuel c).
Proof.
  revert c. induction fuel as [|fuel IH]; intros c Hlen Hc.
  - destruct c; [| discriminate]. split; [reflexivity | constructor].
  - destruct c as [|top c'] eqn:Hc'; [discriminate |].
    rewrite <- Hc' in *. assert (pq_top c = Some top) as Htop by now subst c.
    cbn [drain_loop]. rewrite Htop.
    pose proof (pq_pop_perm comp c top Htop) as Hperm.
    destruct (IH (pq_pop comp c)) as [Hp Hs].
    { pose proof (pq_pop_length comp c top Htop). lia. }
    { now apply (pq_pop_heap c top). }
    split; [now rewrite Hp |].
    constructor; [exact Hs |].
    apply Forall_forall. intros x Hx.
    apply (heap_top_first c top Hc Htop).
    rewrite <- Hperm. apply elem_of_cons. right. now rewrite <- Hp.
Qed.

(** Emptying a heap lists its elements so that none compares before a
    later one. *)
Lemma drain_sorted (c : list T) :
  is_heap comp c ->
  drain comp c ≡ₚ c /\ StronglySorted (fun a b => comp a b = false) (drain comp c).
Proof. intros Hc. now apply drain_loop_sorted. Qed.

Lemma pq_of_heap (xs : list T) : is_heap comp (pq_of comp xs).
Proof.
  unfold pq_of.
  assert (forall c, is_heap comp c -> is_heap comp (fold_left (pq_push comp) xs c)) as H.
  { induction xs as [|x xs IH]; intros c Hc; simpl; [exact Hc |].
    apply IH. now apply pq_push_heap. }
  apply H, is_heap_nil.
Qed.

End HeapOrder.

(** ** The insertion sort meets the contract of [std::sort] *)

Section SortFacts.

Context {T : Type}.
Variable comp : T -> T -> bool.
Hypothesis comp_asym : forall a b, comp a b = true -> comp b a = false.
Hypothesis comp_negtrans :
  forall a b c, comp a b = false -> comp b c = false -> comp a c = false.

Lemma StronglySorted_rev (R : T -> T -> Prop) (l : list T) :
  StronglySorted R l -> StronglySorted (fun a b => R b a) (rev l).
Proof.
  induction 1 as [|a l Hl IH Ha]; simpl; [constructor |].
  apply StronglySorted_app_2; [| exact IH | repeat constructor].
  intros x y Hx Hy. apply list_elem_of_singleton in Hy as ->.
  rewrite Forall_forall in Ha. apply Ha. now rewrite <- Permutation_rev in Hx.
Qed.

Lemma StronglySorted_weaken (R R' : T -> T -> Prop) (l : list T) :
  (forall a b, R a b -> R' a b) -> StronglySorted R l -> StronglySorted R' l.
Proof.
  intros HR. induction 1 as [|a l Hl IH Ha]; constructor; [exact IH |].
  eapply Forall_impl; [exact Ha | intros b; apply HR].
Qed.

Lemma linear_insert_perm (val : T) (rp : list T) :
  linear_insert comp val rp ≡ₚ val :: rp.
Proof.
  induction rp as [|next rest IH]; simpl; [reflexivity |].
  destruct (comp val next); [| reflexivity].
  rewrite IH. apply perm_swap.
Qed.

Lemma linear_insert_sorted (val : T) (rp : list T) :
  StronglySorted (fun a b => comp a b = false) rp ->
  StronglySorted (fun a b => comp a b = false) (linear_insert comp val rp).
Proof.
  induction 1 as [|next rest Hrest IH Hnext]; simpl; [repeat constructor |].
  destruct (comp val next) eqn:Hc.
  - constructor; [exact IH |].
    rewrite linear_insert_perm. constructor; [now apply comp_asym | exact Hnext].
  - constructor; [now constructor |].
    constructor; [exact Hc |].
    eapply Forall_impl; [exact Hnext |]. intros r Hr.
    now apply (comp_negtrans val next r).
Qed.

Lemma insertion_step_perm (prefix : list T) (val : T) :
  insertion_step comp prefix val ≡ₚ val :: prefix.
Proof.
  unfold insertion_step. destruct prefix as [|first prefix]; [reflexivity |].
  destruct (comp val first); [reflexivity |].
  rewrite <- Permutation_rev, linear_insert_perm. now rewrite <- Permutation_rev.
Qed.

Lemma insertion_step_sorted (prefix : list T) (val : T) :
  StronglySorted (fun a b => comp b a = false) prefix ->
  StronglySorted (fun a b => comp b a = false) (insertion_step comp prefix val).
Proof.
  intros Hs. unfold insertion_step.
  destruct prefix as [|first prefix]; [repeat constructor |].
  destruct (comp val first) eqn:Hc.
  - constructor; [exact Hs |].
    pose proof (comp_asym _ _ Hc) as Hfv.
    constructor; [exact Hfv |].
    apply StronglySorted_inv in Hs as [_ Hfirst].
    eapply Forall_impl; [exact Hfirst |]. intros e He.
    now apply (comp_negtrans e first val).
  - apply (StronglySorted_rev (fun a b => comp a b = false)).
    apply linear_insert_sorted.
    now apply (StronglySorted_rev (fun a b => comp b a = false)).
Qed.

Lemma insertion_sort_post (l : list T) : sort_post comp l (insertion_sort comp l).
Proof.
  unfold sort_post, insertion_sort.
  assert (forall prefix,
            StronglySorted (fun a b => comp b a = false) prefix ->
            (rev l ++ prefix)%list ≡ₚ fold_left (insertion_step comp) l prefix
            /\ StronglySorted (fun a b => comp b a = false)
                 (fold_left (insertion_step comp) l prefix)) as H.
  { induction l as [|x l IH]; intros prefix Hs; simpl; [now split |].
    destruct (IH (insertion_step comp prefix x)) as [Hp Hs'];
      [now apply insertion_step_sorted |].
    split; [| exact Hs'].
    rewrite <- Hp, insertion_step_perm, <- app_assoc. reflexivity. }
  destruct (H []) as [Hp Hs]; [constructor |].
  split; [| now apply StronglySorted_Sorted].
  rewrite <- Hp, app_nil_r. apply Permutation_rev.
Qed.

End SortFacts.

End StlFacts.

(** ** LaundryLoad *)

Module LaundryLoadFacts.
Import LaundryLoad.

Lemma overlaps_true start end_ s :
  overlaps start end_ s = true <-> ~ (end_ <= s.1 \/ start >= s.2).
Proof.
  unfold overlaps. rewrite negb_true_iff, orb_false_iff, !Z.leb_gt. lia.
Qed.

Lemma clash_true start end_ slots :
  clash start end_ slots = true <->
  exists s e, In (s, e) slots /\ ~ (end_ <= s \/ start >= e).
Proof.
  induction slots as [|[s e] slots IH]; simpl.
  - split; [discriminate | intros (s & e & [] & _)].
  - destruct (overlaps start end_ (s, e)) eqn:Ho.
    + split; [intros _ | reflexivity].
      exists s, e. split; [now left | now apply (overlaps_true start end_ (s, e))].
    + rewrite IH. split.
      * intros (s' & e' & Hin & Hno). exists s', e'. split; [now right | exact Hno].
      * intros (s' & e' & [Heq | Hin] & Hno); [| now exists s', e'].
        inversion Heq; subst s' e'.
        apply (overlaps_true start end_ (s, e)) in Hno. congruence.
Qed.

Lemma clash_false start end_ slots :
  clash start end_ slots = false <->
  forall s e, In (s, e) slots -> end_ <= s \/ start >= e.
Proof.
  split.
  - intros Hc s e Hin.
    destruct (Z_le_gt_dec end_ s); [now left |].
    destruct (Z_le_gt_dec e start); [right; lia |].
    assert (clash start end_ slots = true) as Ht
      by (apply clash_true; exists s, e; split; [exact Hin | lia]).
    congruence.
  - intros Hall. destruct (clash start end_ slots) eqn:Hc; [| reflexivity].
    apply clash_true in Hc as (s & e & Hin & Hno).
    destruct (Hno (Hall s e Hin)).
Qed.

(** For two non-empty half-open intervals the test of the code says that
    they share an hour. *)
Lemma overlaps_shared_point start end_ s e :
  start < end_ -> s < e ->
  (overlaps start end_ (s, e) = true <->
   exists x, start <= x < end_ /\ s <= x < e).
Proof.
  intros H1 H2. rewrite overlaps_true. simpl. split.
  - intros Hno. exists (Z.max start s). lia.
  - intros (x & Hx1 & Hx2). lia.
Qed.

(** C3.  Booking [start, end) with [start < end] gives [SlotConflict]
    exactly when some stored slot [s, e) passes the overlap test
    [!(end <= s || start >= e)]; the only other result is [Booked].  When no
    stored slot overlaps, the interval is appended at the end of the stored
    slots, where it can be found afterwards; on a conflict the stored
    slots are unchanged. *)
Theorem book_conflict_iff_overlap (slots : list (Z * Z)) (start end_ : Z) :
  start < end_ ->
  ((run slots start end_).2 = SlotConflict <->
     exists s e, In (s, e) slots /\ ~ (end_ <= s \/ start >= e))
  /\ ((run slots start end_).2 = SlotConflict \/ (run slots start end_).2 = Booked)
  /\ ((forall s e, In (s, e) slots -> end_ <= s \/ start >= e) ->
        run slots start end_ = ((slots ++ [(start, end_)])%list, Booked)
        /\ In (start, end_) (run slots start end_).1)
  /\ ((run slots start end_).2 = SlotConflict -> (run slots start end_).1 = slots).
Proof.
  intros _. unfold run.
  destruct (clash start end_ slots) eqn:Hc; simpl.
  - split; [split; [intros _; now apply clash_true | reflexivity] |].
    split; [now left |].
    split; [| reflexivity].
    intros Hall. apply clash_false in Hall. congruence.
  - split; [split; [discriminate |] |].
    { intros Hex. apply clash_true in Hex. congruence. }
    split; [now right |].
    split; [| discriminate].
    intros _. split; [reflexivity |].
    apply in_or_app. right. now left.
Qed.

(** The seed slots: 10-11 clashes, 12-13 is booked. *)
Lemma book_conflict_iff_overlap_witness :
  10 < 11
  /\ ((run slots 10 11).2 = SlotConflict <->
        exists s e, In (s, e) slots /\ ~ (11 <= s \/ 10 >= e))
  /\ run slots 10 11 = (slots, SlotConflict)
  /\ run slots 12 13 = ((slots ++ [(12, 13)])%list, Booked).
Proof.
  split; [lia |].
  split; [apply (book_conflict_iff_overlap slots 10 11); lia |].
  split; reflexivity.
Defined.

End LaundryLoadFacts.

(** ** RoomieMatcher *)

Module RoomieMatcherFacts.
Import RoomieMatcher.

(** The first room of a preference list that nobody holds yet. *)
Definition first_free (prefs : list string) (matches : gmap string string)
    : option string :=
  List.find (fun room => bool_decide (matches !! room = None)) prefs.

Lemma bfsMatch_loop_first_free student prefs (matches : gmap string string) :
  bfsMatch_loop student prefs matches =
  match first_free prefs matches with
  | Some room => (<[room := student]> matches, true)
  | None => (matches, false)
  end.
Proof.
  induction prefs as [|room prefs IH]; simpl; [reflexivity |].
  destruct (matches !! room) eqn:Hr.
  - rewrite bool_decide_eq_false_2 by congruence. exact IH.
  - rewrite bool_decide_eq_true_2 by reflexivity. reflexivity.
Qed.

Lemma first_free_Some prefs (matches : gmap string string) room :
  first_free prefs matches = Some room -> In room prefs /\ matches !! room = None.
Proof.
  intros H. apply find_some in H as [Hin Hb].
  split; [exact Hin | now apply bool_decide_eq_true in Hb].
Qed.

Lemma bfsMatch_cases preferences student (matches : gmap string string) room s :
  (bfsMatch preferences student matches).1 !! room = Some s ->
  matches !! room = Some s
  \/ (matches !! room = None /\ s = student
      /\ In room (default [] (preferences !! student))).
Proof.
  unfold bfsMatch. rewrite bfsMatch_loop_first_free.
  destruct (first_free _ matches) as [r|] eqn:Hf; simpl; [| now left].
  apply first_free_Some in Hf as [Hin Hnone].
  destruct (decide (r = room)) as [->|Hne].
  - rewrite lookup_insert_eq. intros [= <-]. now right.
  - rewrite lookup_insert_ne by exact Hne. now left.
Qed.

Lemma bfsMatch_keeps preferences student (matches : gmap string string) room s :
  matches !! room = Some s ->
  (bfsMatch preferences student matches).1 !! room = Some s.
Proof.
  intros Hm. unfold bfsMatch. rewrite bfsMatch_loop_first_free.
  destruct (first_free _ matches) as [r|] eqn:Hf; simpl; [| exact Hm].
  apply first_free_Some in Hf as [_ Hnone].
  rewrite lookup_insert_ne; [exact Hm | congruence].
Qed.

Lemma fold_bfsMatch_keeps preferences students (matches : gmap string string) room s :
  matches !! room = Some s ->
  fold_left (fun m student => (bfsMatch preferences student m).1) students matches
    !! room = Some s.
Proof.
  revert matches. induction students as [|st students IH]; intros matches Hm; simpl.
  - exact Hm.
  - apply IH. now apply bfsMatch_keeps.
Qed.

Lemma fold_bfsMatch_origin preferences students (matches : gmap string string) room s :
  fold_left (fun m student => (bfsMatch preferences student m).1) students matches
    !! room = Some s ->
  matches !! room = Some s
  \/ (In s students /\ In room (default [] (preferences !! s))).
Proof.
  revert matches. induction students as [|st students IH]; intros matches; simpl.
  - now left.
  - intros H. apply IH in H as [H | [Hin Hp]].
    + apply bfsMatch_cases in H as [H | (_ & -> & Hp)]; [now left |].
      right. split; [now left | exact Hp].
    + right. split; [now right | exact Hp].
Qed.

(** The first free room of a list, spelled out: the rooms before it in the
    list are all held, and it is not. *)
Lemma first_free_spec prefs (matches : gmap string string) room :
  first_free prefs matches = Some room <->
  exists before after, prefs = (before ++ room :: after)%list
    /\ matches !! room = None
    /\ forall r, In r before -> is_Some (matches !! r).
Proof.
  unfold first_free. induction prefs as [|r0 prefs IH]; simpl.
  - split; [discriminate |]. intros (before & after & H & _).
    now destruct before.
  - destruct (matches !! r0) eqn:Hr0.
    + rewrite bool_decide_eq_false_2 by congruence. rewrite IH. split.
      * intros (before & after & -> & Hnone & Hheld).
        exists (r0 :: before), after. split; [reflexivity |]. split; [exact Hnone |].
        intros r [<- | Hin]; [rewrite Hr0; eauto | now apply Hheld].
      * intros (before & after & Heq & Hnone & Hheld).
        destruct before as [|b before]; simpl in Heq; injection Heq as <- ->.
        { congruence. }
        exists before, after. split; [reflexivity |]. split; [exact Hnone |].
        intros r Hin. apply Hheld. now right.
    + rewrite bool_decide_eq_true_2 by reflexivity. split.
      * intros [= <-]. exists [], prefs. split; [reflexivity |].
        split; [exact Hr0 | intros r []].
      * intros (before & after & Heq & Hnone & Hheld).
        destruct before as [|b before]; simpl in Heq; injection Heq as <- ->.
        { reflexivity. }
        destruct (Hheld r0 (or_introl eq_refl)) as [x Hx]. congruence.
Qed.

Lemma first_free_None prefs (matches : gmap string string) :
  first_free prefs matches = None <-> forall r, In r prefs -> is_Some (matches !! r).
Proof.
  unfold first_free. induction prefs as [|r0 prefs IH]; simpl.
  - split; [intros _ r [] | reflexivity].
  - destruct (matches !! r0) eqn:Hr0.
    + rewrite bool_decide_eq_false_2 by congruence. rewrite IH. split.
      * intros H r [<- | Hin]; [rewrite Hr0; eauto | now apply H].
      * intros H r Hin. apply H. now right.
    + rewrite bool_decide_eq_true_2 by reflexivity. split; [discriminate |].
      intros H. destruct (H r0 (or_introl eq_refl)) as [x Hx]. congruence.
Qed.

Lemma assign_snoc preferences pre s :
  assign preferences (pre ++ [s])
  = (bfsMatch preferences s (assign preferences pre)).1.
Proof. unfold assign. now rewrite fold_left_app. Qed.

(** C9.  The assignment starts empty and handles the students one after the
    other in the given order: each is given the first room of its preference
    list that nobody holds at its turn, all rooms listed before that one
    being held, or no room if every listed room is held ([bfsMatch]).  A
    room once given stays with the student who got it, so a room is given
    to at most one student; every holder is a student who listed the room.
    On the seed data the result is A1: Alice, A2: Bob, and neither Charlie
    nor Daisy holds a room.  The result is a function of the student order
    and the preferences. *)
Theorem assign_first_come (preferences : gmap string (list string))
    (students : list string) :
  (forall student (matches : gmap string string),
     bfsMatch preferences student matches =
     match first_free (default [] (preferences !! student)) matches with
     | Some room => (<[room := student]> matches, true)
     | None => (matches, false)
     end)
  /\ (forall prefs (matches : gmap string string) room,
        first_free prefs matches = Some room <->
        exists before after, prefs = (before ++ room :: after)%list
          /\ matches !! room = None
          /\ forall r, In r before -> is_Some (matches !! r))
  /\ (forall prefs (matches : gmap string string),
        first_free prefs matches = None <->
        forall r, In r prefs -> is_Some (matches !! r))
  /\ assign preferences [] = ∅
  /\ (forall pre s,
        assign preferences (pre ++ [s])
        = (bfsMatch preferences s (assign preferences pre)).1)
  /\ (forall pre s post room,
        students = (pre ++ s :: post)%list ->
        first_free (default [] (preferences !! s)) (assign preferences pre) = Some room ->
        assign preferences students !! room = Some s)
  /\ (forall pre post room s,
        students = (pre ++ post)%list ->
        assign preferences pre !! room = Some s ->
        assign preferences students !! room = Some s)
  /\ (forall room s,
        assign preferences students !! room = Some s ->
        In s students /\ In room (default [] (preferences !! s)))
  /\ assign RoomieMatcher.preferences RoomieMatcher.students
       = <["A1" := "Alice"]> (<["A2" := "Bob"]> ∅)
  /\ (run RoomieMatcher.preferences RoomieMatcher.students rooms).2
       = [("A1", Some "Alice"); ("A2", Some "Bob")]
  /\ (forall room,
        assign RoomieMatcher.preferences RoomieMatcher.students !! room = Some "Charlie"
        \/ assign RoomieMatcher.preferences RoomieMatcher.students !! room = Some "Daisy"
        -> False).
Proof.
  assert (assign RoomieMatcher.preferences RoomieMatcher.students
          = <["A1" := "Alice"]> (<["A2" := "Bob"]> ∅)) as Hseed
    by (vm_compute; reflexivity).
  split; [intros student matches; apply bfsMatch_loop_first_free |].
  split; [exact first_free_spec |].
  split; [exact first_free_None |].
  split; [reflexivity |].
  split; [apply assign_snoc |].
  split.
  { intros pre s post room -> Hfree.
    replace (pre ++ s :: post)%list with ((pre ++ [s]) ++ post)%list
      by now rewrite <- app_assoc.
    unfold assign at 1. rewrite fold_left_app. apply fold_bfsMatch_keeps.
    fold (assign preferences (pre ++ [s])). rewrite assign_snoc.
    unfold bfsMatch. rewrite bfsMatch_loop_first_free, Hfree. simpl.
    apply lookup_insert_eq. }
  split.
  { intros pre post room s -> Hpre. unfold assign. rewrite fold_left_app.
    now apply fold_bfsMatch_keeps. }
  split.
  { intros room s H. apply fold_bfsMatch_origin in H as [H | H]; [| exact H].
    now rewrite lookup_empty in H. }
  split; [exact Hseed |].
  split; [vm_compute; reflexivity |].
  intros room. rewrite Hseed.
  destruct (decide ("A1" = room)) as [<-|H1].
  { rewrite lookup_insert_eq. intros [|]; discriminate. }
  rewrite lookup_insert_ne by exact H1.
  destruct (decide ("A2" = room)) as [<-|H2].
  { rewrite lookup_insert_eq. intros [|]; discriminate. }
  rewrite lookup_insert_ne, lookup_empty by exact H2. intros [|]; discriminate.
Qed.

(** Charlie lists A1 then A2; both are taken when its turn comes.  Bob,
    second in the order, lists A2, which is free at its turn. *)
Lemma assign_first_come_witness :
  bfsMatch preferences "Charlie" (assign preferences ["Alice"; "Bob"])
    = (assign preferences ["Alice"; "Bob"], false)
  /\ assign preferences ["Alice"; "Bob"; "Charlie"; "Daisy"] !! "A2" = Some "Bob"
  /\ assign preferences (["Alice"; "Bob"] ++ ["Charlie"])
     = (bfsMatch preferences "Charlie" (assign preferences ["Alice"; "Bob"])).1.
Proof.
  split; [| split].
  - rewrite (proj1 (assign_first_come preferences students)). vm_compute. reflexivity.
  - apply (proj1 (proj2 (proj2 (proj2 (proj2 (proj2
             (assign_first_come preferences ["Alice"; "Bob"; "Charlie"; "Daisy"]))))))
             ["Alice"] "Bob" ["Charlie"; "Daisy"] "A2");
      [reflexivity | vm_compute; reflexivity].
  - apply (proj1 (proj2 (proj2 (proj2 (proj2
             (assign_first_come preferences students)))))).
Defined.

End RoomieMatcherFacts.

(** ** FoodFight *)

Module FoodFightFacts.
Import FoodFight CInt CIntFacts.

Lemma prefix_fold_lookup (n k : nat) :
  (k <= n)%nat ->
  length (fold_left (fun prefix i => <[S i := add (nth i prefix 0) 1]> prefix)
            (seq 0 k) (replicate (S n) 0)) = S n
  /\ forall i, (i <= k)%nat ->
       fold_left (fun prefix i => <[S i := add (nth i prefix 0) 1]> prefix)
         (seq 0 k) (replicate (S n) 0) !! i = Some (wrap (Z.of_nat i)).
Proof.
  induction k as [|k IH]; intros Hk.
  - split; [simpl; now rewrite length_replicate |].
    intros i Hi. assert (i = 0%nat) as -> by lia. reflexivity.
  - destruct IH as [Hlen Hlook]; [lia |].
    rewrite seq_S, fold_left_app. simpl fold_left at 1 3.
    set (p := fold_left _ (seq 0 k) _) in *.
    split; [now rewrite length_insert |].
    intros i Hi. destruct (decide (i = S k)) as [->|Hne].
    + rewrite list_lookup_insert_eq by lia. f_equal.
      rewrite (nth_lookup_Some _ _ _ _ (Hlook k (le_n k))).
      unfold add. rewrite wrap_wrap_add. f_equal. lia.
    + rewrite list_lookup_insert_ne by congruence. apply Hlook. lia.
Qed.

Lemma prefix_of_lookup (n i : nat) :
  (i <= n)%nat -> prefix_of n !! i = Some (wrap (Z.of_nat i)).
Proof.
  intros Hi. destruct (prefix_fold_lookup n n (le_n n)) as [_ H]. now apply H.
Qed.

(** The count of a window is [window], whatever the entry times are. *)
Lemma queue_line_count (entryTimes : list Z) (window i : nat) :
  (1 <= window)%nat -> (i + window <= length entryTimes)%nat ->
  Z.of_nat window <= int_max ->
  exists a b, queue_line entryTimes (prefix_of (length entryTimes)) window i
              = Some (a, b, Z.of_nat window).
Proof.
  intros Hw Hi Hmax. unfold queue_line.
  rewrite (prefix_of_lookup _ (i + window)) by lia.
  rewrite (prefix_of_lookup _ i) by lia. simpl.
  destruct (lookup_lt_is_Some_2 entryTimes i) as [a Ha]; [lia |].
  destruct (lookup_lt_is_Some_2 entryTimes (i + window - 1)) as [b Hb]; [lia |].
  rewrite Ha. simpl. destruct (Nat.eqb_spec (i + window) 0); [lia |].
  rewrite Hb. simpl. exists a, b. do 2 f_equal.
  unfold sub. rewrite wrap_sub_wraps.
  replace (Z.of_nat (i + window) - Z.of_nat i) with (Z.of_nat window) by lia.
  apply wrap_exact. unfold in_range, int_min, int_max in *. lia.
Qed.

Lemma mapM_all {A B} (f : A -> option B) (P : B -> Prop) (l : list A) :
  (forall x, In x l -> exists y, f x = Some y /\ P y) ->
  exists k, mapM f l = Some k /\ length k = length l /\ Forall P k.
Proof.
  induction l as [|x l IH]; intros H; simpl.
  - exists []. repeat split. constructor.
  - destruct (H x (or_introl eq_refl)) as (y & Hy & HP).
    destruct IH as (k & Hk & Hlen & Hall); [intros z Hz; apply H; now right |].
    exists (y :: k). rewrite Hy. simpl. rewrite Hk. simpl.
    repeat split; [now rewrite Hlen | now constructor].
Qed.

Lemma best_step_count (entryTimes : list Z) (window i : nat) (t m : Z) :
  (1 <= window)%nat -> (i + window <= length entryTimes)%nat ->
  Z.of_nat window <= int_max -> Z.of_nat window <= m ->
  exists t', best_step entryTimes (prefix_of (length entryTimes)) window (Some (t, m)) i
             = Some (t', Z.of_nat window).
Proof.
  intros Hw Hi Hmax Hm. unfold best_step. simpl.
  rewrite (prefix_of_lookup _ (i + window)) by lia.
  rewrite (prefix_of_lookup _ i) by lia. simpl.
  unfold sub. rewrite wrap_sub_wraps.
  replace (Z.of_nat (i + window) - Z.of_nat i) with (Z.of_nat window) by lia.
  rewrite wrap_exact by (unfold in_range, int_min, int_max in *; lia).
  destruct (Z.ltb_spec (Z.of_nat window) m).
  - destruct (lookup_lt_is_Some_2 entryTimes i) as [a Ha]; [lia |].
    rewrite Ha. simpl. now exists a.
  - exists t. do 2 f_equal. lia.
Qed.

Lemma best_fold_count (entryTimes : list Z) (window : nat) (l : list nat) (t m : Z) :
  (1 <= window)%nat -> Z.of_nat window <= int_max -> Z.of_nat window <= m ->
  (forall i, In i l -> (i + window <= length entryTimes)%nat) ->
  l <> [] ->
  exists t', fold_left (best_step entryTimes (prefix_of (length entryTimes)) window) l
               (Some (t, m)) = Some (t', Z.of_nat window).
Proof.
  intros Hw Hmax. revert t m.
  induction l as [|i l IH]; intros t m Hm Hin Hne; [congruence |].
  cbn [fold_left].
  destruct (best_step_count entryTimes window i t m) as [t' Ht']; auto.
  { apply Hin. now left. }
  rewrite Ht'. destruct l as [|j l].
  - now exists t'.
  - apply IH; [lia | | discriminate]. intros k Hk. apply Hin. now right.
Qed.

(** C8, as the code has it.  For every sequence of [N] entry times (sorted
    or not) and every window size [1 <= W <= N] that fits an [int], the
    report has [N - W + 1] lines, each with count [W], and the minimum it
    reports is [W].  If [1 <= N < W] no line is printed, yet the "best time"
    sentence still is: with the first entry time and the minimum [N].  An
    empty sequence makes [entryTimes[0]] undefined. *)
Theorem window_counts (entryTimes : list Z) (W : nat) :
  ((1 <= W <= length entryTimes)%nat -> Z.of_nat (length entryTimes) <= int_max ->
     exists r, run entryTimes W = Some r
       /\ length (lines r) = (length entryTimes - W + 1)%nat
       /\ Forall (fun l => l.2 = Z.of_nat W) (lines r)
       /\ minQueue r = Z.of_nat W)
  /\ ((1 <= length entryTimes < W)%nat -> Z.of_nat (length entryTimes) <= int_max ->
        exists t0, entryTimes !! 0%nat = Some t0
          /\ run entryTimes W
             = Some {| lines := []; bestTime := t0;
                       minQueue := Z.of_nat (length entryTimes) |})
  /\ (length entryTimes = 0%nat -> run entryTimes W = None).
Proof.
  split; [| split].
  - intros [Hw Hn] Hmax. unfold run.
    assert (forall i, In i (windows (length entryTimes) W) ->
                      (i + W <= length entryTimes)%nat) as Hwin.
    { intros i Hi. unfold windows in Hi. apply in_seq in Hi. lia. }
    destruct (mapM_all (queue_line entryTimes (prefix_of (length entryTimes)) W)
                (fun l => l.2 = Z.of_nat W) (windows (length entryTimes) W))
      as (ls & Hls & Hlen & Hall).
    { intros i Hi.
      destruct (queue_line_count entryTimes W i) as (a & b & Hq); auto; [lia |].
      now exists (a, b, Z.of_nat W). }
    rewrite Hls. simpl.
    destruct (lookup_lt_is_Some_2 entryTimes 0) as [t0 Ht0]; [lia |].
    rewrite Ht0. simpl.
    destruct (best_fold_count entryTimes W (windows (length entryTimes) W) t0
                (wrap (Z.of_nat (length entryTimes)))) as [t' Ht']; auto; try lia.
    { rewrite wrap_exact by (unfold in_range, int_min, int_max in *; lia). lia. }
    { unfold windows. replace (S (length entryTimes) - W)%nat
        with (S (length entryTimes - W)) by lia. discriminate. }
    rewrite Ht'. simpl. eexists. split; [reflexivity |]. simpl.
    repeat split; [| exact Hall].
    rewrite Hlen. unfold windows. rewrite length_seq. lia.
  - intros [Hn Hw] Hmax. unfold run, windows.
    replace (S (length entryTimes) - W)%nat with 0%nat by lia. simpl.
    destruct (lookup_lt_is_Some_2 entryTimes 0) as [t0 Ht0]; [lia |].
    exists t0. split; [exact Ht0 |]. rewrite Ht0. simpl.
    rewrite wrap_exact by (unfold in_range, int_min, int_max in *; lia).
    reflexivity.
  - intros Hn. destruct entryTimes; [| discriminate]. unfold run, windows. simpl.
    destruct W as [|W]; reflexivity.
Qed.

(** The seed data (seven entry times, window 2), and a window longer than
    the sequence. *)
Lemma window_counts_witness :
  (exists r, run entryTimes window = Some r
     /\ length (lines r) = 6%nat
     /\ Forall (fun l => l.2 = 2) (lines r)
     /\ minQueue r = 2)
  /\ (exists t0, [7; 9] !! 0%nat = Some t0
        /\ run [7; 9] 3 = Some {| lines := []; bestTime := t0; minQueue := 2 |}).
Proof.
  split.
  - apply (proj1 (window_counts entryTimes window)); vm_compute; [lia | discriminate].
  - apply (proj1 (proj2 (window_counts [7; 9] 3))); vm_compute; [lia | discriminate].
Defined.

(** With one entry time and window 2 the output is not empty: the report
    names a best time and a queue of one. *)
Lemma short_sequence_still_reports :
  run [7] 2 = Some {| lines := []; bestTime := 7; minQueue := 1 |}.
Proof. reflexivity. Qed.

End FoodFightFacts.

(** ** SnackCart: purchases *)

Module SnackCartFacts.
Import SnackCart CInt CIntFacts.

(** The snack as [stock[name].quantity -= qty] leaves it. *)
Definition sold (s : Snack) (qty : Z) : Snack :=
  {| name := s.(name); quantity := sub s.(quantity) qty;
     price := s.(price); expiry := s.(expiry) |}.

Lemma purchase_known (st : State) (name : string) (qty : Z) (s : Snack) :
  st.(stock) !! name = Some s -> qty <= s.(quantity) ->
  purchase st name qty =
    ({| stock := <[name := sold s qty]> st.(stock);
        salesHistory := (st.(salesHistory) ++ [(name, mul qty s.(price))])%list |},
     Purchased).
Proof.
  intros Hs Hq. unfold purchase. rewrite Hs.
  destruct (Z.leb_spec qty (quantity s)); [reflexivity | lia].
Qed.

Lemma purchase_short (st : State) (name : string) (qty : Z) (s : Snack) :
  st.(stock) !! name = Some s -> s.(quantity) < qty ->
  purchase st name qty = (st, OutOfStock).
Proof.
  intros Hs Hq. unfold purchase. rewrite Hs.
  destruct (Z.leb_spec qty (quantity s)); [lia | reflexivity].
Qed.

Lemma purchase_unknown (st : State) (name : string) (qty : Z) :
  st.(stock) !! name = None -> purchase st name qty = (st, OutOfStock).
Proof. intros Hs. unfold purchase. now rewrite Hs. Qed.

(** Every quantity and price in the stock is an [int] value: true of the
    seed stock and kept by every purchase. *)
Definition ints_ok (st : State) : Prop :=
  forall key s, st.(stock) !! key = Some s ->
    in_range s.(quantity) /\ in_range s.(price).

Lemma state0_ints_ok : ints_ok state0.
Proof.
  intros key s. unfold state0, stock0. simpl. rewrite !lookup_insert.
  repeat (case_decide; [intros [= <-]; vm_compute; repeat split; discriminate |]).
  now rewrite lookup_empty.
Qed.

Lemma purchase_ints_ok (st : State) (name : string) (qty : Z) :
  ints_ok st -> ints_ok (purchase st name qty).1.
Proof.
  intros Hok. unfold purchase.
  destruct (st.(stock) !! name) as [s|] eqn:Hs; [| exact Hok].
  destruct (qty <=? quantity s)%Z; [| exact Hok].
  intros key s'. simpl. rewrite lookup_insert.
  case_decide; [| apply Hok]. intros [= <-]. simpl.
  split; [apply wrap_in_range | now apply (Hok name s)].
Qed.

(** C2, as the code has it.  A purchase of [qty > 0] is refused exactly when
    the name is not in the stock or [qty] exceeds the quantity in stock, and
    a refused purchase changes nothing.  An accepted one replaces the item
    by the same item with quantity [quantity - qty] and appends the single
    record [(name, qty * price)] to the history; [-] and [*] are the
    program's [int] operations.  The difference is exact for every [int]
    quantity; the product is the exact one provided it fits an [int], which
    nothing in the program sees to. *)
Theorem purchase_spec (st : State) (name : string) (qty : Z) :
  0 < qty ->
  ((purchase st name qty).2 = OutOfStock <->
     (st.(stock) !! name = None
      \/ exists s, st.(stock) !! name = Some s /\ s.(quantity) < qty))
  /\ ((purchase st name qty).2 = OutOfStock \/ (purchase st name qty).2 = Purchased)
  /\ ((purchase st name qty).2 = OutOfStock -> (purchase st name qty).1 = st)
  /\ ((purchase st name qty).2 = Purchased ->
        exists s, st.(stock) !! name = Some s
          /\ (purchase st name qty).1.(stock) = <[name := sold s qty]> st.(stock)
          /\ (sold s qty).(quantity) = sub s.(quantity) qty
          /\ (in_range s.(quantity) -> (sold s qty).(quantity) = s.(quantity) - qty)
          /\ (purchase st name qty).1.(salesHistory)
             = (st.(salesHistory) ++ [(name, mul qty s.(price))])%list
          /\ (in_range (qty * s.(price)) -> mul qty s.(price) = qty * s.(price))).
Proof.
  intros Hpos.
  destruct (st.(stock) !! name) as [s|] eqn:Hs.
  - destruct (Z_lt_le_dec s.(quantity) qty) as [Hlt | Hle].
    + rewrite (purchase_short st name qty s Hs Hlt). simpl.
      split; [split; [intros _; right; now exists s | reflexivity] |].
      split; [now left |]. split; [reflexivity | discriminate].
    + rewrite (purchase_known st name qty s Hs Hle). simpl.
      split; [split; [discriminate |] |].
      { intros [Hn | (s' & Heq & Hlt)]; [discriminate |].
        inversion Heq; subst s'. lia. }
      split; [now right |]. split; [discriminate |].
      intros _. exists s. repeat split.
      * intros Hr. apply sub_exact. unfold in_range, int_min, int_max in *. lia.
      * apply mul_exact.
  - rewrite (purchase_unknown st name qty Hs). simpl.
    split; [split; [intros _; now left | reflexivity] |].
    split; [now left |]. split; [reflexivity | discriminate].
Qed.

(** The example of the specification: three Kurkure are sold for 45, ten
    Lays are refused. *)
Lemma purchase_spec_witness :
  0 < 3
  /\ ((purchase state0 "Kurkure" 3).2 = OutOfStock <->
        (state0.(stock) !! "Kurkure" = None
         \/ exists s, state0.(stock) !! "Kurkure" = Some s /\ s.(quantity) < 3))
  /\ (purchase state0 "Kurkure" 3).2 = Purchased
  /\ (purchase state0 "Kurkure" 3).1.(stock) !! "Kurkure"
     = Some {| name := "Kurkure"; quantity := 7; price := 15; expiry := "2025-09-01" |}
  /\ (purchase state0 "Kurkure" 3).1.(salesHistory) = [("Kurkure", 45)]
  /\ purchase state0 "Lays" 10 = (state0, OutOfStock).
Proof.
  split; [lia |].
  split; [apply (purchase_spec state0 "Kurkure" 3); lia |].
  repeat split; vm_compute; reflexivity.
Defined.

(** The seed stock after minus 80000000 Oreo are bought twice: 160000008
    Oreo are in stock, and every result so far fits an [int]. *)
Definition restocked : State :=
  (purchase (purchase state0 "Oreo" (-80000000)).1 "Oreo" (-80000000)).1.

(** Then 100000000 Oreo are bought, fewer than are in stock: the purchase
    is accepted, and the product 2500000000 does not fit an [int].  The C++
    multiplication overflows; with the wrap-around of [CInt] the record
    says -1794967296, and in no reading does it say 2500000000. *)
Lemma purchase_profit_overflows :
  restocked.(stock) !! "Oreo"
    = Some {| name := "Oreo"; quantity := 160000008; price := 25;
              expiry := "2025-10-05" |}
  /\ restocked.(salesHistory) = [("Oreo", -2000000000); ("Oreo", -2000000000)]
  /\ (0 < 100000000 <= 160000008 /\ int_max < 100000000 * 25)
  /\ (purchase restocked "Oreo" 100000000).2 = Purchased
  /\ (purchase restocked "Oreo" 100000000).1.(salesHistory)
     = [("Oreo", -2000000000); ("Oreo", -2000000000); ("Oreo", -1794967296)].
Proof.
  split; [vm_compute; reflexivity |]. split; [vm_compute; reflexivity |].
  split; [unfold int_max; lia |].
  split; vm_compute; reflexivity.
Qed.

(** C10, as the code has it.  Nothing checks the sign of [qty]: for an item
    in stock, a purchase of [qty <= 0] with [qty <= quantity] is accepted,
    sets the quantity to [quantity - qty] and appends the record
    [(name, qty * price)], in the program's [int] arithmetic.  Provided the
    exact difference fits an [int], the stock does not shrink (it grows for
    [qty < 0]); provided the exact product fits an [int], the recorded
    profit of a negative [qty] at a positive price is negative.  Nothing in
    the program sees to either. *)
Theorem purchase_nonpositive (st : State) (name : string) (qty : Z) (s : Snack) :
  st.(stock) !! name = Some s -> qty <= 0 -> qty <= s.(quantity) ->
  purchase st name qty =
    ({| stock := <[name := sold s qty]> st.(stock);
        salesHistory := (st.(salesHistory) ++ [(name, mul qty s.(price))])%list |},
     Purchased)
  /\ (sold s qty).(quantity) = sub s.(quantity) qty
  /\ (in_range (s.(quantity) - qty) ->
        (sold s qty).(quantity) = s.(quantity) - qty
        /\ s.(quantity) <= (sold s qty).(quantity)
        /\ (qty < 0 -> s.(quantity) < (sold s qty).(quantity)))
  /\ (in_range (qty * s.(price)) ->
        mul qty s.(price) = qty * s.(price)
        /\ (qty < 0 -> 0 < s.(price) -> mul qty s.(price) < 0)).
Proof.
  intros Hs Hq0 Hq.
  split; [now apply purchase_known |].
  split; [reflexivity |].
  split.
  - intros Hr. simpl. rewrite (sub_exact _ _ Hr). lia.
  - intros Hr. rewrite (mul_exact _ _ Hr). split; [reflexivity | nia].
Qed.

(** Buying minus two Oreo: the stock grows from 8 to 10 and the record
    says -50. *)
Lemma purchase_nonpositive_witness :
  (purchase state0 "Oreo" (-2)).2 = Purchased
  /\ (purchase state0 "Oreo" (-2)).1.(stock) !! "Oreo"
     = Some {| name := "Oreo"; quantity := 10; price := 25; expiry := "2025-10-05" |}
  /\ (purchase state0 "Oreo" (-2)).1.(salesHistory) = [("Oreo", -50)].
Proof.
  rewrite (proj1 (purchase_nonpositive state0 "Oreo" (-2)
                    {| name := "Oreo"; quantity := 8; price := 25;
                       expiry := "2025-10-05" |}
                    ltac:(vm_compute; reflexivity) ltac:(lia) ltac:(simpl; lia))).
  repeat split; vm_compute; reflexivity.
Defined.

(** Minus 100000000 Oreo, from the seed stock: the purchase is accepted and
    the product -2500000000 does not fit an [int]; with the wrap-around of
    [CInt] the recorded profit is positive.  Minus 2147483647 Oreo: the
    difference 2147483655 does not fit, and with wrap-around the stock
    becomes negative.  In C++ both are signed overflows. *)
Lemma purchase_negative_overflows :
  ((-100000000) * 25 < int_min
   /\ (purchase state0 "Oreo" (-100000000)).2 = Purchased
   /\ (purchase state0 "Oreo" (-100000000)).1.(salesHistory) = [("Oreo", 1794967296)])
  /\ (int_max < 8 - (-2147483647)
      /\ (purchase state0 "Oreo" (-2147483647)).2 = Purchased
      /\ quantity <$> (purchase state0 "Oreo" (-2147483647)).1.(stock) !! "Oreo"
         = Some (-2147483641)).
Proof.
  split; (split; [unfold int_min, int_max; lia |]); split; vm_compute; reflexivity.
Qed.

End SnackCartFacts.

(** ** HostelFixer: the task queue *)

Module TaskFacts.
Import HostelFixer Stl StlFacts.

Lemma Task_gt_asym a b : Task_gt a b = true -> Task_gt b a = false.
Proof. unfold Task_gt. rewrite Z.ltb_lt, Z.ltb_ge. lia. Qed.

Lemma Task_gt_negtrans a b c :
  Task_gt a b = false -> Task_gt b c = false -> Task_gt a c = false.
Proof. unfold Task_gt. rewrite !Z.ltb_ge. lia. Qed.

Lemma Task_gt_false a b : Task_gt a b = false <-> urgency a <= urgency b.
Proof. unfold Task_gt. rewrite Z.ltb_ge. reflexivity. Qed.

(** The queue after the calls [insert(desc, urgency)] for the pairs of
    [calls], from the empty queue the program starts with. *)
Definition inserted (calls : list (string * Z)) : list Task :=
  fold_left (fun tasks call => insert tasks call.1 call.2) calls tasks.

Definition task_of (call : string * Z) : Task :=
  {| desc := call.1; urgency := call.2 |}.

Lemma inserted_pq_of calls : inserted calls = pq_of Task_gt (map task_of calls).
Proof.
  unfold inserted, pq_of, tasks. generalize (@nil Task).
  induction calls as [|call calls IH]; intros c; simpl; [reflexivity |].
  apply IH.
Qed.

(** C1, as the code has it.  After any sequence of [insert] calls the
    listing holds exactly the inserted tasks, in ascending order of urgency;
    urgencies 5, 1, 3 are listed as 1, 3, 5.  (The order among tasks of the
    same urgency is the heap's; see [ties_not_in_insertion_order].) *)
Theorem listByUrgency_sorted (calls : list (string * Z)) :
  listByUrgency (inserted calls) ≡ₚ map task_of calls
  /\ StronglySorted (fun a b => urgency a <= urgency b) (listByUrgency (inserted calls))
  /\ map urgency (listByUrgency (inserted [("x", 5); ("y", 1); ("z", 3)])) = [1; 3; 5].
Proof.
  rewrite inserted_pq_of. unfold listByUrgency.
  destruct (drain_sorted Task_gt Task_gt_asym Task_gt_negtrans
              (pq_of Task_gt (map task_of calls))) as [Hp Hs].
  { apply pq_of_heap; [exact Task_gt_asym | exact Task_gt_negtrans]. }
  split; [now rewrite Hp, pq_of_perm |].
  split; [| reflexivity].
  eapply StronglySorted_weaken; [| exact Hs].
  intros a b. apply Task_gt_false.
Qed.

(** Tasks a and b, both of urgency 2, are inserted in this order and then
    task c of urgency 1: the listing is c, b, a, where insertion order
    among the ties would be c, a, b. *)
Lemma ties_not_in_insertion_order :
  map desc (listByUrgency (inserted [("a", 2); ("b", 2); ("c", 1)])) = ["c"; "b"; "a"].
Proof. reflexivity. Qed.

End TaskFacts.

(** ** SnackCart: the stock view and the profit report *)

Module SnackCartMenuFacts.
Import SnackCart Stl StlFacts.

Lemma ltb_false_leb (a b : string) : String.ltb b a = false <-> String.leb a b = true.
Proof.
  unfold String.ltb, String.leb. rewrite (String.compare_antisym a b).
  destruct (String.compare b a); simpl; split; congruence.
Qed.

Lemma ExpiryCompare_false a b :
  ExpiryCompare a b = false <-> String.leb a.(expiry) b.(expiry) = true.
Proof. apply ltb_false_leb. Qed.

Lemma ExpiryCompare_asym a b : ExpiryCompare a b = true -> ExpiryCompare b a = false.
Proof.
  unfold ExpiryCompare, String.ltb. rewrite (String.compare_antisym (expiry a)).
  destruct (String.compare (expiry b) (expiry a)); simpl; congruence.
Qed.

Lemma ExpiryCompare_negtrans a b c :
  ExpiryCompare a b = false -> ExpiryCompare b c = false -> ExpiryCompare a c = false.
Proof.
  rewrite !ExpiryCompare_false. intros Hab Hbc.
  apply Is_true_true. apply Is_true_true in Hab, Hbc.
  exact (transitivity (R := String.le) Hab Hbc).
Qed.

Lemma rank_in_sorted (order : list Snack) :
  rank_in order ≡ₚ order
  /\ StronglySorted (fun a b => String.leb a.(expiry) b.(expiry) = true) (rank_in order).
Proof.
  unfold rank_in.
  destruct (drain_sorted ExpiryCompare ExpiryCompare_asym ExpiryCompare_negtrans
              (pq_of ExpiryCompare order)) as [Hp Hs].
  { apply pq_of_heap; [exact ExpiryCompare_asym | exact ExpiryCompare_negtrans]. }
  split; [now rewrite Hp, pq_of_perm |].
  eapply StronglySorted_weaken; [| exact Hs].
  intros a b. apply ExpiryCompare_false.
Qed.

(** C6.  The stock view lists exactly the snacks of the stock and lists
    them by ascending expiry string: no snack is followed by one whose
    expiry is smaller in the byte-wise lexicographic order.  This holds
    whatever order the map hands its snacks out in.  The seed stock is
    listed as Lays (2025-08-10), Kurkure (2025-09-01), Oreo (2025-10-05). *)
Theorem rank_sorted_by_expiry (stock : gmap string Snack) :
  rank stock ≡ₚ (map_to_list stock).*2
  /\ (forall s, s ∈ rank stock <-> exists key, stock !! key = Some s)
  /\ StronglySorted (fun a b => String.leb a.(expiry) b.(expiry) = true) (rank stock)
  /\ (forall order, order ≡ₚ (map_to_list stock).*2 ->
        rank_in order ≡ₚ (map_to_list stock).*2
        /\ StronglySorted (fun a b => String.leb a.(expiry) b.(expiry) = true)
             (rank_in order))
  /\ map name (rank stock0) = ["Lays"; "Kurkure"; "Oreo"].
Proof.
  destruct (rank_in_sorted (map_to_list stock).*2) as [Hperm Hs].
  split; [exact Hperm |]. split; [| split; [exact Hs | split]].
  - intros s. unfold rank. rewrite Hperm, list_elem_of_fmap. split.
    + intros ([key s'] & -> & Hin). exists key. now apply elem_of_map_to_list.
    + intros (key & Hkey). exists (key, s). split; [reflexivity |].
      now apply elem_of_map_to_list.
  - intros order Horder. destruct (rank_in_sorted order) as [Hp' Hs'].
    split; [now rewrite Hp' | exact Hs'].
  - vm_compute. reflexivity.
Qed.

Lemma by_profit_asym a b : by_profit a b = true -> by_profit b a = false.
Proof. unfold by_profit. rewrite Z.ltb_lt, Z.ltb_ge. lia. Qed.

Lemma by_profit_negtrans a b c :
  by_profit a b = false -> by_profit b c = false -> by_profit a c = false.
Proof. unfold by_profit. rewrite !Z.ltb_ge. lia. Qed.

(** libstdc++'s insertion sort is a [std::sort] for the profit order. *)
Lemma insertion_sort_by_profit (l : list (string * Z)) :
  sort_post by_profit l (insertion_sort by_profit l).
Proof. apply insertion_sort_post; [exact by_profit_asym | exact by_profit_negtrans]. Qed.

Section AnyStdSort.

Variable std_sort : list (string * Z) -> list (string * Z).
Hypothesis std_sort_post : forall l, sort_post by_profit l (std_sort l).

(** C7, as the code has it.  With any [std::sort] that keeps its contract:
    the profit report leaves the stock as it is and neither adds, drops nor
    alters a record, but it sorts the history in place, so that afterwards
    the history is a rearrangement of the old one in descending order of
    profit, which is also what is printed.  Viewing the stock and an
    invalid option change nothing, and no command but a purchase changes
    the stock or the records the history holds. *)
Theorem profitReport_reorders_history (st : State) :
  (profitReport std_sort st).1.(stock) = st.(stock)
  /\ (profitReport std_sort st).1.(salesHistory) ≡ₚ st.(salesHistory)
  /\ Sorted (fun a b => b.2 <= a.2) (profitReport std_sort st).1.(salesHistory)
  /\ (profitReport std_sort st).2
     = ProfitHistory (profitReport std_sort st).1.(salesHistory)
         (total_profit (profitReport std_sort st).1.(salesHistory))
  /\ step std_sort st ViewStock = Some (st, Stock (rank st.(stock)))
  /\ step std_sort st Other = Some (st, InvalidOption)
  /\ (forall c st' out, step std_sort st c = Some (st', out) ->
        (forall name qty, c <> BuySnack name qty) ->
        st'.(stock) = st.(stock) /\ st'.(salesHistory) ≡ₚ st.(salesHistory)).
Proof.
  destruct (std_sort_post st.(salesHistory)) as [Hperm Hsorted].
  assert (Sorted (fun a b => b.2 <= a.2) (std_sort st.(salesHistory))) as Hdesc.
  { clear Hperm. induction Hsorted as [|a l Hl IH Ha]; constructor; [exact IH |].
    destruct Ha as [|b l Hab]; constructor.
    unfold by_profit in Hab. now apply Z.ltb_ge in Hab. }
  simpl. split; [reflexivity |]. split; [now symmetry |]. split; [exact Hdesc |].
  do 3 (split; [reflexivity |]).
  intros c st' out Hstep Hbuy.
  destruct c as [| |name qty| |]; simpl in Hstep; try discriminate.
  - now injection Hstep as <- _.
  - destruct (Hbuy name qty eq_refl).
  - injection Hstep as <- _. simpl. split; [reflexivity | now symmetry].
  - now injection Hstep as <- _.
Qed.

End AnyStdSort.

(** The report after selling three Kurkure (45) and five Lays (100), with
    the insertion sort as [std::sort]. *)
Lemma profitReport_reorders_history_witness :
  (forall l, sort_post by_profit l (insertion_sort by_profit l))
  /\ (profitReport (insertion_sort by_profit)
        (run (insertion_sort by_profit) state0
           [BuySnack "Kurkure" 3; BuySnack "Lays" 5]).1).1.(salesHistory)
     ≡ₚ [("Kurkure", 45); ("Lays", 100)].
Proof.
  split; [exact insertion_sort_by_profit |].
  apply (profitReport_reorders_history (insertion_sort by_profit)
           insertion_sort_by_profit
           (run (insertion_sort by_profit) state0
              [BuySnack "Kurkure" 3; BuySnack "Lays" 5]).1).
Defined.

(** Three Kurkure are sold, then five Lays: the history is Kurkure 45,
    Lays 100.  After the profit report it is Lays 100, Kurkure 45. *)
Lemma profitReport_changes_history_order :
  (run (insertion_sort by_profit) state0
     [BuySnack "Kurkure" 3; BuySnack "Lays" 5]).1.(salesHistory)
  = [("Kurkure", 45); ("Lays", 100)]
  /\ (run (insertion_sort by_profit) state0
        [BuySnack "Kurkure" 3; BuySnack "Lays" 5; ViewProfit]).1.(salesHistory)
     = [("Lays", 100); ("Kurkure", 45)].
Proof. split; vm_compute; reflexivity. Qed.

(** Whatever [std::sort] is run, as long as it keeps its contract, the
    same history comes out in the other order. *)
Lemma profitReport_changes_history_order_any_sort
    (std_sort : list (string * Z) -> list (string * Z)) :
  (forall l, sort_post by_profit l (std_sort l)) ->
  std_sort [("Kurkure", 45); ("Lays", 100)] = [("Lays", 100); ("Kurkure", 45)].
Proof.
  intros Hpost. destruct (Hpost [("Kurkure", 45); ("Lays", 100)]) as [Hperm Hsorted].
  apply Permutation_length_2_inv in Hperm as [Heq | Heq]; [| exact Heq].
  rewrite Heq in Hsorted.
  apply Sorted_inv in Hsorted as [_ Hhd]. apply HdRel_inv in Hhd. discriminate.
Qed.

End SnackCartMenuFacts.

(** ** HostelFixer: the shortest path *)

Module PathFacts.
Import HostelFixer Stl StlFacts CInt CIntFacts.

(** *** The queue as a bag of entries *)

Lemma pq_top_None (pq : list (Z * string)) : pq_top pq = None -> pq = [].
Proof. destruct pq; [reflexivity | discriminate]. Qed.

Lemma pq_top_elem (pq : list (Z * string)) top : pq_top pq = Some top -> top ∈ pq.
Proof. destruct pq; intros [= ->]. apply elem_of_cons. now left. Qed.

Lemma pq_pop_elem (pq : list (Z * string)) top e :
  pq_top pq = Some top -> e ∈ pq -> e = top \/ e ∈ pq_pop pair_gt pq.
Proof.
  intros Htop He. rewrite <- (pq_pop_perm pair_gt pq top Htop) in He.
  now apply elem_of_cons in He.
Qed.

Lemma pq_pop_subset (pq : list (Z * string)) top e :
  pq_top pq = Some top -> e ∈ pq_pop pair_gt pq -> e ∈ pq.
Proof.
  intros Htop He. rewrite <- (pq_pop_perm pair_gt pq top Htop).
  apply elem_of_cons. now right.
Qed.

Lemma pq_push_elem (pq : list (Z * string)) x e :
  e ∈ pq_push pair_gt pq x <-> e = x \/ e ∈ pq.
Proof. rewrite (pq_push_perm pair_gt pq x). apply elem_of_cons. Qed.

Lemma pq_push_first (x : Z * string) : pq_push pair_gt [] x = [x].
Proof. reflexivity. Qed.

(** *** The loops *)

Lemma dist_at_insert (dist : gmap string Z) v d x :
  dist_at (<[v := d]> dist) x = if decide (v = x) then d else dist_at dist x.
Proof. unfold dist_at. rewrite lookup_insert. now destruct (decide (v = x)). Qed.

(** The rule of the [for] loop over the edges of [u]: what every update of
    a distance keeps holds after the loop. *)
Lemma relax_rule (P : gmap string Z -> list (Z * string) -> Prop) (u : string)
    (edges : list (string * Z)) :
  (forall dist pq v w, P dist pq -> (v, w) ∈ edges ->
     add (dist_at dist u) w < dist_at dist v ->
     P (<[v := add (dist_at dist u) w]> dist)
       (pq_push pair_gt pq (add (dist_at dist u) w, v))) ->
  forall dist pq, P dist pq ->
    P (relax u edges dist pq).1 (relax u edges dist pq).2.
Proof.
  induction edges as [|[v w] edges IH]; intros Hstep dist pq HP; [exact HP |].
  cbn [relax].
  assert (forall dist pq v' w', P dist pq -> (v', w') ∈ edges ->
            add (dist_at dist u) w' < dist_at dist v' ->
            P (<[v' := add (dist_at dist u) w']> dist)
              (pq_push pair_gt pq (add (dist_at dist u) w', v'))) as Hstep'.
  { intros d p v' w' Hd Hin. apply Hstep; [exact Hd |]. apply elem_of_cons. now right. }
  destruct (Z.ltb_spec (add (dist_at dist u) w) (dist_at dist v)) as [Hlt | Hge].
  - apply (IH Hstep'). rewrite dist_at_insert, decide_True by reflexivity.
    apply Hstep; [exact HP | apply elem_of_cons; now left | exact Hlt].
  - now apply (IH Hstep').
Qed.

Lemma dijkstra_step_None graph dist pq :
  dijkstra_step graph dist pq = None -> pq = [].
Proof.
  unfold dijkstra_step. destruct (pq_top pq) as [[d u]|] eqn:Htop.
  - destruct (dist_at dist u <? d)%Z; discriminate.
  - intros _. now apply pq_top_None.
Qed.

Lemma dijkstra_step_Some graph dist pq dist' pq' :
  dijkstra_step graph dist pq = Some (dist', pq') ->
  exists d u, pq_top pq = Some (d, u)
    /\ ((dist_at dist u < d /\ dist' = dist /\ pq' = pq_pop pair_gt pq)
        \/ (d <= dist_at dist u
            /\ (dist', pq') = relax u (graph_at graph u) dist (pq_pop pair_gt pq))).
Proof.
  unfold dijkstra_step. destruct (pq_top pq) as [[d u]|] eqn:Htop; [| discriminate].
  intros H. exists d, u. split; [reflexivity |].
  destruct (Z.ltb_spec (dist_at dist u) d) as [Hlt | Hge].
  - left. injection H as <- <-. auto.
  - right. injection H as <-. auto.
Qed.

Lemma dijkstra_loop_unfold fuel graph dist pq :
  dijkstra_loop fuel graph dist pq =
  match dijkstra_step graph dist pq with
  | None => Some dist
  | Some (dist', pq') =>
      match fuel with
      | S fuel' => dijkstra_loop fuel' graph dist' pq'
      | O => None
      end
  end.
Proof. destruct fuel; reflexivity. Qed.

(** More turns than needed change nothing. *)
Lemma dijkstra_loop_mono fuel fuel' graph dist pq dist' :
  (fuel <= fuel')%nat ->
  dijkstra_loop fuel graph dist pq = Some dist' ->
  dijkstra_loop fuel' graph dist pq = Some dist'.
Proof.
  revert fuel' dist pq. induction fuel as [|fuel IH]; intros fuel' dist pq Hle;
    rewrite (dijkstra_loop_unfold _ graph dist pq),
            (dijkstra_loop_unfold fuel' graph dist pq);
    destruct (dijkstra_step graph dist pq) as [[dist1 pq1]|]; try easy.
  destruct fuel' as [|fuel']; [lia |]. apply IH. lia.
Qed.

Lemma shortestPath_mono fuel fuel' graph src dest d :
  (fuel <= fuel')%nat ->
  shortestPath fuel graph src dest = Some d ->
  shortestPath fuel' graph src dest = Some d.
Proof.
  unfold shortestPath. intros Hle.
  destruct (dijkstra_loop fuel graph _ _) as [dist'|] eqn:Hrun; [| discriminate].
  now rewrite (dijkstra_loop_mono fuel fuel' _ _ _ _ Hle Hrun).
Qed.

(** So the loop has one result, whatever number of turns shows it. *)
Lemma shortestPath_unique fuel fuel' graph src dest d d' :
  shortestPath fuel graph src dest = Some d ->
  shortestPath fuel' graph src dest = Some d' -> d = d'.
Proof.
  intros H H'.
  apply (shortestPath_mono fuel (Nat.max fuel fuel')) in H; [| lia].
  apply (shortestPath_mono fuel' (Nat.max fuel fuel')) in H'; [| lia].
  congruence.
Qed.

(** *** Termination: every turn lowers a distance or shortens the queue *)

(** All distances are [int] values. *)
Definition ranged (dist : gmap string Z) : Prop := forall x, in_range (dist_at dist x).

(** The names that occur as the target of an edge. *)
Definition targets (graph : gmap string (list (string * Z))) : list string :=
  map_to_list graph ≫= (fun kv => kv.2.*1).

Definition slack (dist : gmap string Z) (x : string) : nat :=
  Z.to_nat (dist_at dist x - int_min).

Definition measure (graph : gmap string (list (string * Z))) (dist : gmap string Z)
    (pq : list (Z * string)) : nat :=
  (2 * sum_list_with (slack dist) (targets graph) + length pq)%nat.

Lemma edge_target graph u v w : (v, w) ∈ graph_at graph u -> v ∈ targets graph.
Proof.
  unfold graph_at, targets. destruct (graph !! u) as [edges|] eqn:Hu; simpl.
  - intros Hin. apply list_elem_of_bind. exists (u, edges).
    split; [| now apply elem_of_map_to_list].
    simpl. apply list_elem_of_fmap. now exists (v, w).
  - intros Hin. now apply elem_of_nil in Hin.
Qed.

Lemma sum_list_with_lt {A} (f g : A -> nat) (l : list A) (v : A) :
  (forall x, (f x <= g x)%nat) -> v ∈ l -> (f v < g v)%nat ->
  (sum_list_with f l < sum_list_with g l)%nat.
Proof.
  intros Hle Hv Hlt. induction l as [|a l IH]; [now apply elem_of_nil in Hv |].
  simpl. apply elem_of_cons in Hv as [<- | Hv].
  - assert (sum_list_with f l <= sum_list_with g l)%nat; [| lia].
    clear IH. induction l as [|b l IH]; simpl; [lia |]. specialize (Hle b). lia.
  - specialize (IH Hv). specialize (Hle a). lia.
Qed.

Lemma relax_measure graph u edges dist pq :
  (forall v w, (v, w) ∈ edges -> v ∈ targets graph) -> ranged dist ->
  ranged (relax u edges dist pq).1
  /\ (measure graph (relax u edges dist pq).1 (relax u edges dist pq).2
      <= measure graph dist pq)%nat.
Proof.
  intros Hedges Hr.
  apply (relax_rule
           (fun d p => ranged d /\ (measure graph d p <= measure graph dist pq)%nat)
           u edges); [| split; [exact Hr | lia]].
  intros d p v w [Hd Hm] Hin Hlt. split.
  - intros x. rewrite dist_at_insert. destruct (decide (v = x)); [| apply Hd].
    apply wrap_in_range.
  - unfold measure in *. rewrite pq_push_length.
    assert (sum_list_with (slack (<[v := add (dist_at d u) w]> d)) (targets graph)
            < sum_list_with (slack d) (targets graph))%nat; [| lia].
    apply (sum_list_with_lt _ _ _ v); [| now apply (Hedges v w) |].
    + intros x. unfold slack. rewrite dist_at_insert.
      destruct (decide (v = x)) as [<-|]; lia.
    + unfold slack. rewrite dist_at_insert, decide_True by reflexivity.
      pose proof (wrap_in_range (dist_at d u + w)) as Hw.
      unfold add, in_range in *. lia.
Qed.

Lemma step_measure graph dist pq dist' pq' :
  ranged dist -> dijkstra_step graph dist pq = Some (dist', pq') ->
  ranged dist' /\ (measure graph dist' pq' < measure graph dist pq)%nat.
Proof.
  intros Hr Hstep.
  apply dijkstra_step_Some in Hstep as (d & u & Htop & [(_ & -> & ->) | (_ & Heq)]).
  - split; [exact Hr |]. unfold measure.
    pose proof (pq_pop_length pair_gt pq (d, u) Htop). lia.
  - destruct (relax_measure graph u (graph_at graph u) dist (pq_pop pair_gt pq))
      as [Hr' Hm]; [intros v w; apply edge_target | exact Hr |].
    rewrite <- Heq in Hr', Hm. simpl in Hr', Hm. split; [exact Hr' |].
    unfold measure in *. pose proof (pq_pop_length pair_gt pq (d, u) Htop). lia.
Qed.

(** The rule of the [while] loop: the loop ends, and what every turn keeps
    holds at the end, when the queue is empty. *)
Lemma dijkstra_loop_rule graph (Inv : gmap string Z -> list (Z * string) -> Prop) :
  (forall dist pq dist' pq', ranged dist -> Inv dist pq ->
     dijkstra_step graph dist pq = Some (dist', pq') -> Inv dist' pq') ->
  forall dist pq, ranged dist -> Inv dist pq ->
  exists fuel dist',
    (forall fuel', (fuel <= fuel')%nat -> dijkstra_loop fuel' graph dist pq = Some dist')
    /\ Inv dist' [] /\ ranged dist'.
Proof.
  intros Hkeep dist pq.
  remember (measure graph dist pq) as m eqn:Hm. revert dist pq Hm.
  induction m as [m IH] using lt_wf_ind. intros dist pq Hm Hr HI.
  destruct (dijkstra_step graph dist pq) as [[dist1 pq1]|] eqn:Hstep.
  - destruct (step_measure graph dist pq dist1 pq1 Hr Hstep) as [Hr1 Hlt].
    destruct (IH (measure graph dist1 pq1) ltac:(lia) dist1 pq1 eq_refl Hr1)
      as (fuel & dist' & Hrun & Hend); [now apply (Hkeep dist pq) |].
    exists (S fuel), dist'. split; [| exact Hend].
    intros [|fuel'] Hfuel; [lia |].
    rewrite dijkstra_loop_unfold, Hstep. apply Hrun. lia.
  - exists 0%nat, dist.
    rewrite (dijkstra_step_None graph dist pq Hstep) in HI.
    split; [| now split].
    intros fuel' _. now rewrite dijkstra_loop_unfold, Hstep.
Qed.

Lemma dist_init_ranged graph src : ranged (dist_init graph src).
Proof.
  intros x. unfold dist_init. rewrite dist_at_insert.
  destruct (decide (src = x)); [unfold in_range, int_min, int_max; lia |].
  unfold dist_at. rewrite lookup_fmap.
  destruct (graph !! x); simpl; unfold in_range, INF, int_min, int_max; lia.
Qed.

(** *** The least weight of a path *)

(** The graphs the result is right for: every edge leads to a key of the
    graph, and no weight is negative or so large that adding it to a
    distance of at most [INF] leaves [int]. *)
Definition wf_graph (graph : gmap string (list (string * Z))) : Prop :=
  forall u v w, (v, w) ∈ graph_at graph u ->
    is_Some (graph !! v) /\ 0 <= w <= int_max - INF.

(** No edge out of [u] gives a shorter way to its target. *)
Definition relaxed (graph : gmap string (list (string * Z))) (dist : gmap string Z)
    (u : string) : Prop :=
  forall v w, (v, w) ∈ graph_at graph u -> dist_at dist v <= dist_at dist u + w.

(** What holds of the distances and the queue entries at any time. *)
Definition dist_ok (graph : gmap string (list (string * Z))) (src : string)
    (dist : gmap string Z) (pq : list (Z * string)) : Prop :=
  (forall x, 0 <= dist_at dist x <= INF)
  /\ (forall x d, dist !! x = Some d -> d = INF \/ path graph src x d)
  /\ dist !! src = Some 0
  /\ (forall x, is_Some (graph !! x) -> is_Some (dist !! x))
  /\ (forall d u, (d, u) ∈ pq -> is_Some (dist !! u)).

(** Between two turns of the [while] loop: a name is in the queue with its
    distance, or its edges are relaxed. *)
Definition sp_inv (graph : gmap string (list (string * Z))) (src : string)
    (dist : gmap string Z) (pq : list (Z * string)) : Prop :=
  dist_ok graph src dist pq
  /\ forall x, (dist_at dist x, x) ∈ pq \/ relaxed graph dist x.

(** Inside the [for] loop over the edges of [u], whose distance is [du]. *)
Definition relax_inv (graph : gmap string (list (string * Z))) (src u : string) (du : Z)
    (dist : gmap string Z) (pq : list (Z * string)) : Prop :=
  dist_ok graph src dist pq
  /\ dist !! u = Some du
  /\ forall x, x <> u -> (dist_at dist x, x) ∈ pq \/ relaxed graph dist x.

Lemma relax_inv_update graph src u du dist pq v w :
  wf_graph graph -> relax_inv graph src u du dist pq ->
  (v, w) ∈ graph_at graph u -> add (dist_at dist u) w < dist_at dist v ->
  add (dist_at dist u) w = du + w
  /\ relax_inv graph src u du (<[v := du + w]> dist) (pq_push pair_gt pq (du + w, v)).
Proof.
  intros Hwf ((Hrange & Hpath & Hsrc & Hkeys & Hq) & Hu & Hrest) Hin Hlt.
  destruct (Hwf u v w Hin) as [Hv Hw].
  assert (dist_at dist u = du) as Hdu by (unfold dist_at; now rewrite Hu).
  pose proof (Hrange u) as Hru. pose proof (Hrange v) as Hrv.
  assert (add du w = du + w) as Hadd.
  { apply add_exact. unfold in_range, int_min, int_max, INF in *. lia. }
  rewrite Hdu, Hadd in Hlt |- *. split; [reflexivity |].
  assert (v <> u) as Hvu by (intros ->; lia).
  assert (v <> src) as Hvs.
  { intros ->. unfold dist_at in Hlt. rewrite Hsrc in Hlt. simpl in Hlt. lia. }
  assert (forall x, dist_at (<[v := du + w]> dist) x <= dist_at dist x) as Hmono.
  { intros x. rewrite dist_at_insert. destruct (decide (v = x)) as [<-|]; lia. }
  split; [split; [| split; [| split; [| split]]] | split].
  - intros x. rewrite dist_at_insert. destruct (decide (v = x)); [lia | apply Hrange].
  - intros x d. destruct (decide (v = x)) as [<-|Hne].
    + rewrite lookup_insert_eq. intros [= <-]. right.
      destruct (Hpath u du Hu) as [-> | Hp]; [lia |].
      now apply (path_step graph src u v w du).
    + rewrite lookup_insert_ne by exact Hne. apply Hpath.
  - now rewrite lookup_insert_ne.
  - intros x Hx. rewrite lookup_insert. destruct (decide (v = x)); [eauto | now apply Hkeys].
  - intros d x Hpush. rewrite lookup_insert. destruct (decide (v = x)); [eauto |].
    apply pq_push_elem in Hpush as [[= -> ->] | Hold]; [congruence | now apply (Hq d x)].
  - now rewrite lookup_insert_ne.
  - intros x Hxu. destruct (decide (v = x)) as [<-|Hne].
    + left. rewrite dist_at_insert, decide_True by reflexivity.
      apply pq_push_elem. now left.
    + assert (dist_at (<[v := du + w]> dist) x = dist_at dist x) as Hx
        by (rewrite dist_at_insert; now rewrite decide_False).
      destruct (Hrest x Hxu) as [Hinq | Hrel].
      * left. rewrite Hx. apply pq_push_elem. now right.
      * right. intros y w' Hy. rewrite Hx.
        specialize (Hrel y w' Hy). specialize (Hmono y). lia.
Qed.

Lemma relax_inv_keep graph src u du edges dist pq :
  wf_graph graph -> (forall e, e ∈ edges -> e ∈ graph_at graph u) ->
  relax_inv graph src u du dist pq ->
  relax_inv graph src u du (relax u edges dist pq).1 (relax u edges dist pq).2
  /\ forall x, dist_at (relax u edges dist pq).1 x <= dist_at dist x.
Proof.
  intros Hwf Hedges HI.
  apply (relax_rule
           (fun d p => relax_inv graph src u du d p
                       /\ forall x, dist_at d x <= dist_at dist x) u edges);
    [| split; [exact HI | intros x; lia]].
  intros d p v w [Hd Hmono] Hin Hlt.
  destruct (relax_inv_update graph src u du d p v w Hwf Hd (Hedges _ Hin) Hlt)
    as [Hadd Hd'].
  rewrite Hadd in *. split; [exact Hd' |].
  intros x. specialize (Hmono x). rewrite dist_at_insert.
  destruct (decide (v = x)) as [<-|]; lia.
Qed.

Lemma relax_inv_done graph src u du edges dist pq :
  wf_graph graph -> (forall e, e ∈ edges -> e ∈ graph_at graph u) ->
  relax_inv graph src u du dist pq ->
  forall v w, (v, w) ∈ edges -> dist_at (relax u edges dist pq).1 v <= du + w.
Proof.
  intros Hwf. revert dist pq.
  induction edges as [|[v0 w0] edges IH]; intros dist pq Hedges HI v w Hin;
    [now apply elem_of_nil in Hin |].
  assert (forall e, e ∈ edges -> e ∈ graph_at graph u) as Hedges'
    by (intros e He; apply Hedges, elem_of_cons; now right).
  assert ((v0, w0) ∈ graph_at graph u) as Hin0
    by (apply Hedges, elem_of_cons; now left).
  assert (dist_at dist u = du) as Hdu.
  { destruct HI as (_ & Hu & _). unfold dist_at. now rewrite Hu. }
  cbn [relax].
  destruct (Z.ltb_spec (add (dist_at dist u) w0) (dist_at dist v0)) as [Hlt | Hge].
  - destruct (relax_inv_update graph src u du dist pq v0 w0 Hwf HI Hin0 Hlt)
      as [Hadd HI'].
    rewrite dist_at_insert, decide_True, Hadd by reflexivity.
    apply elem_of_cons in Hin as [[= -> ->] | Hin]; [| now apply IH].
    destruct (relax_inv_keep graph src u du edges (<[v0 := du + w0]> dist)
                (pq_push pair_gt pq (du + w0, v0)) Hwf Hedges' HI') as [_ Hmono].
    specialize (Hmono v0). rewrite dist_at_insert, decide_True in Hmono by reflexivity.
    exact Hmono.
  - apply elem_of_cons in Hin as [[= -> ->] | Hin]; [| now apply IH].
    destruct (relax_inv_keep graph src u du edges dist pq Hwf Hedges' HI) as [_ Hmono].
    specialize (Hmono v0).
    destruct (Hwf u v0 w0 Hin0) as [_ Hw].
    destruct HI as ((Hrange & _) & _). pose proof (Hrange u) as Hru.
    rewrite Hdu, add_exact in Hge
      by (unfold in_range, int_min, int_max, INF in *; lia).
    lia.
Qed.

Lemma dist_ok_pop graph src dist pq top :
  pq_top pq = Some top -> dist_ok graph src dist pq ->
  dist_ok graph src dist (pq_pop pair_gt pq).
Proof.
  intros Htop (Hrange & Hpath & Hsrc & Hkeys & Hq).
  split; [exact Hrange |]. split; [exact Hpath |]. split; [exact Hsrc |].
  split; [exact Hkeys |]. intros d u Hin. apply (Hq d u).
  now apply (pq_pop_subset pq top).
Qed.

Lemma sp_inv_step graph src dist pq dist' pq' :
  wf_graph graph -> sp_inv graph src dist pq ->
  dijkstra_step graph dist pq = Some (dist', pq') ->
  sp_inv graph src dist' pq'.
Proof.
  intros Hwf [Hok Hall] Hstep.
  pose proof Hok as (Hrange & Hpath & Hsrc & Hkeys & Hq).
  apply dijkstra_step_Some in Hstep as (d & u & Htop & [(Hlt & -> & ->) | (_ & Heq)]).
  - split; [now apply (dist_ok_pop graph src dist pq (d, u)) |].
    intros x. destruct (Hall x) as [Hin | Hrel]; [| now right].
    left. apply (pq_pop_elem pq (d, u) _ Htop) in Hin as [[= Hd Hx] | Hin];
      [subst x; lia | exact Hin].
  - destruct (Hq d u (pq_top_elem pq (d, u) Htop)) as [du Hu].
    assert (relax_inv graph src u du dist (pq_pop pair_gt pq)) as HI.
    { split; [now apply (dist_ok_pop graph src dist pq (d, u)) |].
      split; [exact Hu |].
      intros x Hxu. destruct (Hall x) as [Hin | Hrel]; [| now right].
      left. apply (pq_pop_elem pq (d, u) _ Htop) in Hin as [[= Hd Hx] | Hin];
        [congruence | exact Hin]. }
    destruct (relax_inv_keep graph src u du (graph_at graph u) dist
                (pq_pop pair_gt pq) Hwf ltac:(auto) HI) as [(Hok' & Hu' & Hrest) _].
    pose proof (relax_inv_done graph src u du (graph_at graph u) dist
                  (pq_pop pair_gt pq) Hwf ltac:(auto) HI) as Hdone.
    rewrite <- Heq in Hok', Hu', Hrest, Hdone. simpl in Hok', Hu', Hrest, Hdone.
    split; [exact Hok' |].
    intros x. destruct (decide (x = u)) as [->|Hxu]; [| now apply Hrest].
    right. intros v w Hin. unfold dist_at at 2. rewrite Hu'. simpl.
    now apply Hdone.
Qed.

Lemma sp_inv_init graph src :
  wf_graph graph ->
  sp_inv graph src (dist_init graph src) (pq_push pair_gt [] (0, src)).
Proof.
  intros Hwf. rewrite pq_push_first. unfold dist_init.
  assert (forall x, src <> x ->
            dist_at (<[src := 0]> ((fun _ => INF) <$> graph)) x
            = match graph !! x with Some _ => INF | None => 0 end) as Hother.
  { intros x Hne. unfold dist_at. rewrite lookup_insert_ne, lookup_fmap by exact Hne.
    now destruct (graph !! x). }
  split; [split; [| split; [| split; [| split]]] |].
  - intros x. destruct (decide (src = x)) as [<-|Hne].
    + rewrite dist_at_insert, decide_True by reflexivity. unfold INF. lia.
    + rewrite (Hother x Hne). destruct (graph !! x); unfold INF; lia.
  - intros x d. destruct (decide (src = x)) as [<-|Hne].
    + rewrite lookup_insert_eq. intros [= <-]. right. constructor.
    + rewrite lookup_insert_ne, lookup_fmap by exact Hne.
      destruct (graph !! x); simpl; [intros [= <-]; now left | discriminate].
  - apply lookup_insert_eq.
  - intros x Hx. rewrite lookup_insert. destruct (decide (src = x)); [eauto |].
    rewrite lookup_fmap. destruct Hx as [e ->]. simpl. eauto.
  - intros d u Hin. apply list_elem_of_singleton in Hin as [= -> ->].
    rewrite lookup_insert_eq. eauto.
  - intros x. destruct (decide (src = x)) as [<-|Hne].
    + left. rewrite dist_at_insert, decide_True by reflexivity.
      now apply list_elem_of_singleton.
    + right. intros v w Hin. destruct (Hwf x v w Hin) as [_ Hw].
      rewrite (Hother x Hne).
      assert (is_Some (graph !! x)) as [e He].
      { unfold graph_at in Hin. destruct (graph !! x); [eauto |].
        now apply elem_of_nil in Hin. }
      rewrite He.
      destruct (decide (src = v)) as [<-|Hnv].
      * rewrite dist_at_insert, decide_True by reflexivity. unfold INF. lia.
      * rewrite (Hother v Hnv). destruct (graph !! v); unfold INF; lia.
Qed.

(** When all edges are relaxed, no path is shorter than the distance. *)
Lemma relaxed_lower_bound graph src (dist : gmap string Z) :
  dist !! src = Some 0 -> (forall x, relaxed graph dist x) ->
  forall x W, path graph src x W -> dist_at dist x <= W.
Proof.
  intros Hsrc Hrel x W Hp. induction Hp as [|u v w W Hp IH Hin].
  - unfold dist_at. rewrite Hsrc. simpl. lia.
  - specialize (Hrel u v w Hin). lia.
Qed.

Lemma path_end graph src x W :
  wf_graph graph -> path graph src x W -> x = src \/ is_Some (graph !! x).
Proof.
  intros Hwf Hp. destruct Hp as [|u v w W Hp Hin]; [now left |].
  right. now destruct (Hwf u v w Hin).
Qed.

(** On a well-formed graph the loop ends with the least weight of a
    path, capped at the start value [INF]. *)
Lemma shortestPath_wf (graph : gmap string (list (string * Z))) (src dest : string) :
  wf_graph graph ->
  exists fuel d,
    (forall fuel', (fuel <= fuel')%nat -> shortestPath fuel' graph src dest = Some d)
    /\ (dest = src -> d = 0)
    /\ (forall W, path graph src dest W -> d <= W)
    /\ (forall W, path graph src dest W -> W <= INF -> path graph src dest d).
Proof.
  intros Hwf.
  destruct (dijkstra_loop_rule graph (sp_inv graph src)) with
    (dist := dist_init graph src) (pq := pq_push pair_gt [] (0, src))
    as (fuel & dist' & Hrun & [Hok Hall] & _).
  - intros dist pq dist1 pq1 _. now apply sp_inv_step.
  - apply dist_init_ranged.
  - now apply sp_inv_init.
  - destruct Hok as (Hrange & Hpath & Hsrc & Hkeys & _).
    assert (forall x, relaxed graph dist' x) as Hrel.
    { intros x. destruct (Hall x) as [Hin | Hrel]; [| exact Hrel].
      now apply elem_of_nil in Hin. }
    exists fuel, (dist_at dist' dest).
    split; [| split; [| split]].
    + intros fuel' Hfuel. unfold shortestPath. now rewrite (Hrun fuel' Hfuel).
    + intros ->. unfold dist_at. now rewrite Hsrc.
    + now apply relaxed_lower_bound.
    + intros W Hp HW.
      pose proof (relaxed_lower_bound graph src dist' Hsrc Hrel dest W Hp) as Hle.
      assert (is_Some (dist' !! dest)) as [d Hd].
      { destruct (path_end graph src dest W Hwf Hp) as [-> | Hkey]; [eauto |].
        now apply Hkeys. }
      unfold dist_at in *. rewrite Hd in *. simpl in *.
      destruct (Hpath dest d Hd) as [-> | Hp']; [| exact Hp'].
      now replace INF with W by lia.
Qed.

Lemma seed_graph_wf : wf_graph HostelFixer.graph.
Proof.
  intros u v w Hin. unfold graph_at, HostelFixer.graph in Hin.
  assert (forall x, x ∈ ["Gate"; "Mess"; "Laundry"] -> is_Some (HostelFixer.graph !! x))
    as Hkeys.
  { intros x Hx. repeat (apply elem_of_cons in Hx as [-> | Hx]; [vm_compute; eauto |]).
    now apply elem_of_nil in Hx. }
  rewrite !lookup_insert in Hin.
  repeat (case_decide; simpl in Hin;
          [ repeat (apply elem_of_cons in Hin as [[= -> ->] | Hin];
                    [split; [apply Hkeys; set_solver | vm_compute; split; discriminate] |]);
            now apply elem_of_nil in Hin | ]).
  rewrite lookup_empty in Hin. now apply elem_of_nil in Hin.
Qed.

Lemma seed_path_over_Mess : path HostelFixer.graph "Gate" "Laundry" 3.
Proof.
  apply (path_step _ _ "Mess" "Laundry" 1 2).
  - apply (path_step _ _ "Gate" "Mess" 2 0); [constructor |].
    vm_compute. apply elem_of_cons. now left.
  - vm_compute. apply elem_of_cons. right. apply elem_of_cons. now left.
Qed.

(** C4, as the code has it.  On a graph whose edges all lead to keys of the
    graph and whose weights lie between 0 and [INT_MAX - 1e9], the loop ends
    with one result [d]: it is 0 from a name to itself, it is at most the
    weight of every path from the source to the destination, and as soon
    as one path weighs at most [1e9] it is the least weight of a path.  On
    the seed graph the distance from Gate to Laundry is 3, the least
    weight of a path. *)
Theorem shortestPath_least_weight (graph : gmap string (list (string * Z)))
    (src dest : string) :
  wf_graph graph ->
  (exists fuel d,
     (forall fuel', (fuel <= fuel')%nat -> shortestPath fuel' graph src dest = Some d)
     /\ (forall fuel' d', shortestPath fuel' graph src dest = Some d' -> d' = d)
     /\ (dest = src -> d = 0)
     /\ (forall W, path graph src dest W -> d <= W)
     /\ (forall W, path graph src dest W -> W <= INF -> least_weight graph src dest d))
  /\ shortestPath 4 HostelFixer.graph "Gate" "Laundry" = Some 3
  /\ least_weight HostelFixer.graph "Gate" "Laundry" 3.
Proof.
  intros Hwf. split; [| split; [vm_compute; reflexivity |]].
  - destruct (shortestPath_wf graph src dest Hwf)
      as (fuel & d & Hrun & Hself & Hlow & Hpath).
    exists fuel, d. split; [exact Hrun |]. split.
    { intros fuel' d' Hd'.
      apply (shortestPath_unique fuel' fuel graph src dest); [exact Hd' |].
      apply Hrun. lia. }
    split; [exact Hself |]. split; [exact Hlow |].
    intros W Hp HW. split; [now apply (Hpath W) | exact Hlow].
  - destruct (shortestPath_wf HostelFixer.graph "Gate" "Laundry" seed_graph_wf)
      as (fuel & d & Hrun & _ & Hlow & _).
    assert (d = 3) as ->.
    { apply (shortestPath_unique fuel 4 HostelFixer.graph "Gate" "Laundry");
        [apply Hrun; lia | vm_compute; reflexivity]. }
    split; [exact seed_path_over_Mess | exact Hlow].
Qed.

(** The seed graph is well formed; the way over Mess weighs 3. *)
Lemma shortestPath_least_weight_witness :
  wf_graph HostelFixer.graph
  /\ exists fuel d,
       (forall fuel', (fuel <= fuel')%nat ->
          shortestPath fuel' HostelFixer.graph "Gate" "Laundry" = Some d)
       /\ (forall fuel' d',
             shortestPath fuel' HostelFixer.graph "Gate" "Laundry" = Some d' -> d' = d)
       /\ ("Laundry" = "Gate" -> d = 0)
       /\ (forall W, path HostelFixer.graph "Gate" "Laundry" W -> d <= W)
       /\ (forall W, path HostelFixer.graph "Gate" "Laundry" W -> W <= INF ->
             least_weight HostelFixer.graph "Gate" "Laundry" d).
Proof.
  split; [exact seed_graph_wf |].
  exact (proj1 (shortestPath_least_weight HostelFixer.graph "Gate" "Laundry"
                  seed_graph_wf)).
Defined.

(** Two graphs with non-negative weights.  In the first the only edge weighs
    more than [1e9]; in the second the target of the only edge is not a key.
    Each has one path from A to B, and the printed distance is not its
    weight. *)
Definition far_apart : gmap string (list (string * Z)) :=
  <["A" := [("B", 1000000001)]]> (<["B" := []]> ∅).

Definition no_key : gmap string (list (string * Z)) := <["A" := [("B", 5)]]> ∅.

Lemma far_apart_paths x W :
  path far_apart "A" x W -> (x = "A" /\ W = 0) \/ (x = "B" /\ W = 1000000001).
Proof.
  induction 1 as [|u v w W Hp IH Hin]; [now left |].
  unfold graph_at, far_apart in Hin. destruct IH as [[-> ->] | [-> ->]].
  - rewrite lookup_insert_eq in Hin. simpl in Hin.
    apply list_elem_of_singleton in Hin as [= -> ->]. now right.
  - rewrite lookup_insert_ne, lookup_insert_eq in Hin by discriminate.
    now apply elem_of_nil in Hin.
Qed.

Lemma no_key_paths x W :
  path no_key "A" x W -> (x = "A" /\ W = 0) \/ (x = "B" /\ W = 5).
Proof.
  induction 1 as [|u v w W Hp IH Hin]; [now left |].
  unfold graph_at, no_key in Hin. destruct IH as [[-> ->] | [-> ->]].
  - rewrite lookup_insert_eq in Hin. simpl in Hin.
    apply list_elem_of_singleton in Hin as [= -> ->]. now right.
  - rewrite lookup_insert_ne, lookup_empty in Hin by discriminate.
    now apply elem_of_nil in Hin.
Qed.

Lemma shortestPath_not_least_weight :
  (path far_apart "A" "B" 1000000001
   /\ (forall W, path far_apart "A" "B" W -> W = 1000000001)
   /\ shortestPath 2 far_apart "A" "B" = Some 1000000000)
  /\ (path no_key "A" "B" 5
      /\ (forall W, path no_key "A" "B" W -> W = 5)
      /\ shortestPath 2 no_key "A" "B" = Some 0).
Proof.
  split; (split; [| split; [| vm_compute; reflexivity]]).
  - apply (path_step _ _ "A" "B" 1000000001 0); [constructor |].
    vm_compute. apply elem_of_cons. now left.
  - intros W HW. apply far_apart_paths in HW as [[? _] | [_ ->]];
      [discriminate | reflexivity].
  - apply (path_step _ _ "A" "B" 5 0); [constructor |].
    vm_compute. apply elem_of_cons. now left.
  - intros W HW. apply no_key_paths in HW as [[? _] | [_ ->]];
      [discriminate | reflexivity].
Qed.

(** *** A destination that no path reaches *)

(** On a well-formed graph, what the loop ends with for a key of the graph:
    the start value [INF], or the weight of a path. *)
Lemma shortestPath_wf_key (graph : gmap string (list (string * Z))) (src dest : string) :
  wf_graph graph -> is_Some (graph !! dest) ->
  exists fuel d,
    (forall fuel', (fuel <= fuel')%nat -> shortestPath fuel' graph src dest = Some d)
    /\ 0 <= d <= INF
    /\ (d = INF \/ path graph src dest d)
    /\ (forall W, path graph src dest W -> d <= W).
Proof.
  intros Hwf Hkey.
  destruct (dijkstra_loop_rule graph (sp_inv graph src)) with
    (dist := dist_init graph src) (pq := pq_push pair_gt [] (0, src))
    as (fuel & dist' & Hrun & [Hok Hall] & _).
  - intros dist pq dist1 pq1 _. now apply sp_inv_step.
  - apply dist_init_ranged.
  - now apply sp_inv_init.
  - destruct Hok as (Hrange & Hpath & Hsrc & Hkeys & _).
    assert (forall x, relaxed graph dist' x) as Hrel.
    { intros x. destruct (Hall x) as [Hin | Hrel]; [| exact Hrel].
      now apply elem_of_nil in Hin. }
    destruct (Hkeys dest Hkey) as [d Hd].
    assert (dist_at dist' dest = d) as Hat by (unfold dist_at; now rewrite Hd).
    exists fuel, d. split; [| split; [| split]].
    + intros fuel' Hfuel. unfold shortestPath. rewrite (Hrun fuel' Hfuel). simpl.
      now rewrite Hat.
    + rewrite <- Hat. apply Hrange.
    + now apply Hpath.
    + intros W Hp. rewrite <- Hat. now apply (relaxed_lower_bound graph src dist' Hsrc Hrel).
Qed.

(** C5, as the code has it.  On a graph whose edges all lead to keys of the
    graph and whose weights lie between 0 and [INT_MAX - 1e9] (so that no
    sum leaves [int]), for a destination that is a key of the graph: if no
    path leads from the source to it, the loop ends and the result is the
    [int] 1000000000, the value every key's distance starts from.  The same
    [int] is the result for a destination whose least path weight is
    1000000000 or more: it is a value among the distances, not a separate
    one. *)
Theorem unreachable_distance (graph : gmap string (list (string * Z)))
    (src dest : string) :
  wf_graph graph -> is_Some (graph !! dest) ->
  ((forall W, path graph src dest W -> False) ->
     (exists fuel, forall fuel', (fuel <= fuel')%nat ->
        shortestPath fuel' graph src dest = Some 1000000000)
     /\ (forall fuel d, shortestPath fuel graph src dest = Some d -> d = 1000000000))
  /\ (forall W, least_weight graph src dest W -> 1000000000 <= W ->
        (exists fuel, forall fuel', (fuel <= fuel')%nat ->
           shortestPath fuel' graph src dest = Some 1000000000)
        /\ (forall fuel d, shortestPath fuel graph src dest = Some d -> d = 1000000000)).
Proof.
  intros Hwf Hkey.
  destruct (shortestPath_wf_key graph src dest Hwf Hkey)
    as (fuel & d & Hrun & Hrange & Hcase & Hlow).
  assert (d = 1000000000 ->
          (exists fuel, forall fuel', (fuel <= fuel')%nat ->
             shortestPath fuel' graph src dest = Some 1000000000)
          /\ (forall fuel d, shortestPath fuel graph src dest = Some d -> d = 1000000000))
    as Hend.
  { intros ->. split; [now exists fuel |].
    intros fuel' d' Hd'.
    apply (shortestPath_unique fuel' fuel graph src dest); [exact Hd' |].
    apply Hrun. lia. }
  split.
  - intros Hno. apply Hend.
    destruct Hcase as [-> | Hp]; [reflexivity | destruct (Hno d Hp)].
  - intros W [HW Hleast] Hfar. apply Hend.
    destruct Hcase as [-> | Hp]; [reflexivity |].
    specialize (Hleast d Hp). unfold INF in Hrange. lia.
Qed.

(** A graph with the keys A, B and C: B is one edge of weight 1000000000
    away from A, and no edge leads to C. *)
Definition at_the_cap : gmap string (list (string * Z)) :=
  <["A" := [("B", 1000000000)]]> (<["B" := []]> (<["C" := []]> ∅)).

Lemma at_the_cap_paths x W :
  path at_the_cap "A" x W -> (x = "A" /\ W = 0) \/ (x = "B" /\ W = 1000000000).
Proof.
  induction 1 as [|u v w W Hp IH Hin]; [now left |].
  unfold graph_at, at_the_cap in Hin. destruct IH as [[-> ->] | [-> ->]].
  - rewrite lookup_insert_eq in Hin. simpl in Hin.
    apply list_elem_of_singleton in Hin as [= -> ->]. now right.
  - rewrite lookup_insert_ne, lookup_insert_eq in Hin by discriminate.
    now apply elem_of_nil in Hin.
Qed.

Lemma at_the_cap_wf : wf_graph at_the_cap.
Proof.
  intros u v w Hin. unfold graph_at, at_the_cap in Hin.
  rewrite !lookup_insert in Hin.
  repeat (case_decide; simpl in Hin;
          [ repeat (apply elem_of_cons in Hin as [[= -> ->] | Hin];
                    [split; [vm_compute; eauto | vm_compute; split; discriminate] |]);
            now apply elem_of_nil in Hin | ]).
  rewrite lookup_empty in Hin. now apply elem_of_nil in Hin.
Qed.

Lemma at_the_cap_no_path_to_C W : path at_the_cap "A" "C" W -> False.
Proof. intros HW. apply at_the_cap_paths in HW as [[? _] | [? _]]; discriminate. Qed.

(** From A no path leads to the key C. *)
Lemma unreachable_distance_witness :
  wf_graph at_the_cap /\ is_Some (at_the_cap !! "C")
  /\ (forall W, path at_the_cap "A" "C" W -> False)
  /\ (exists fuel, forall fuel', (fuel <= fuel')%nat ->
        shortestPath fuel' at_the_cap "A" "C" = Some 1000000000)
  /\ shortestPath 1 at_the_cap "A" "C" = Some 1000000000.
Proof.
  assert (is_Some (at_the_cap !! "C")) as Hkey by (vm_compute; eauto).
  split; [exact at_the_cap_wf |]. split; [exact Hkey |].
  split; [exact at_the_cap_no_path_to_C |].
  split; [| vm_compute; reflexivity].
  exact (proj1 (proj1 (unreachable_distance at_the_cap "A" "C" at_the_cap_wf Hkey)
                  at_the_cap_no_path_to_C)).
Defined.

(** The value printed for C, which no path reaches, is the very number that
    is printed for B as its distance, the least weight of a path to B: the
    result for an unreachable destination is a numeric distance. *)
Lemma unreachable_value_is_a_distance :
  ((forall W, path at_the_cap "A" "C" W -> False)
   /\ shortestPath 1 at_the_cap "A" "C" = Some 1000000000)
  /\ (least_weight at_the_cap "A" "B" 1000000000
      /\ shortestPath 1 at_the_cap "A" "B" = Some 1000000000).
Proof.
  split; (split; [| vm_compute; reflexivity]).
  - exact at_the_cap_no_path_to_C.
  - split.
    + apply (path_step _ _ "A" "B" 1000000000 0); [constructor |].
      vm_compute. apply elem_of_cons. now left.
    + intros W HW. apply at_the_cap_paths in HW as [[? _] | [_ ->]];
        [discriminate | lia].
Qed.

End PathFacts.

(** ** The order of [std::pair<int, std::string>] *)

Module OrderFacts.
Import HostelFixer.

Lemma leb_trans (a b c : string) :
  String.leb a b = true -> String.leb b c = true -> String.leb a c = true.
Proof.
  intros Hab Hbc. apply Is_true_true. apply Is_true_true in Hab, Hbc.
  exact (transitivity (R := String.le) Hab Hbc).
Qed.

Lemma ltb_iff_not_leb (a b : string) : String.ltb a b = false <-> String.leb b a = true.
Proof.
  unfold String.ltb, String.leb. rewrite (String.compare_antisym a b).
  destruct (String.compare b a); simpl; split; congruence.
Qed.

(** [b] does not come after [a]: a smaller number, or the same number and
    a string that is not greater. *)
Definition pair_le (b a : Z * string) : Prop :=
  b.1 < a.1 \/ (b.1 = a.1 /\ String.leb b.2 a.2 = true).

Lemma pair_lt_false (a b : Z * string) : pair_lt a b = false <-> pair_le b a.
Proof.
  unfold pair_lt, pair_le. rewrite <- ltb_iff_not_leb.
  destruct (Z.lt_trichotomy a.1 b.1) as [H | [H | H]].
  - rewrite (proj2 (Z.ltb_lt _ _) H). simpl.
    split; [discriminate | intros [H' | [H' _]]; lia].
  - rewrite H, Z.ltb_irrefl. simpl.
    split; [intros H'; right; now split | intros [H' | [_ H']]; [lia | exact H']].
  - rewrite (proj2 (Z.ltb_ge _ _) (Z.lt_le_incl _ _ H)), (proj2 (Z.ltb_lt _ _) H).
    simpl. split; [intros _; now left | reflexivity].
Qed.

Lemma pair_le_trans (a b c : Z * string) : pair_le a b -> pair_le b c -> pair_le a c.
Proof.
  unfold pair_le. intros [H1 | [H1 H1']] [H2 | [H2 H2']]; try (left; lia).
  right. split; [lia | now apply (leb_trans _ b.2)].
Qed.

Lemma pair_le_total (a b : Z * string) : pair_le a b \/ pair_le b a.
Proof.
  unfold pair_le. destruct (Z.lt_trichotomy a.1 b.1) as [H | [H | H]]; auto.
  destruct (String.leb_total a.2 b.2); [left | right]; right; split; auto.
Qed.

Lemma pair_le_antisym (a b : Z * string) : pair_le a b -> pair_le b a -> a = b.
Proof.
  unfold pair_le. destruct a as [a1 a2], b as [b1 b2]. simpl.
  intros [H1 | [H1 H1']] [H2 | [H2 H2']]; try lia.
  f_equal; [exact H1 | now apply String.leb_antisym].
Qed.

Lemma pair_lt_asym (a b : Z * string) : pair_lt a b = true -> pair_lt b a = false.
Proof.
  intros Hab. apply pair_lt_false.
  destruct (pair_le_total a b) as [H | H]; [exact H |].
  apply pair_lt_false in H. congruence.
Qed.

Lemma pair_lt_negtrans (a b c : Z * string) :
  pair_lt a b = false -> pair_lt b c = false -> pair_lt a c = false.
Proof.
  rewrite !pair_lt_false. intros Hba Hcb. now apply (pair_le_trans c b a).
Qed.

Lemma pair_gt_asym (a b : Z * string) : pair_gt a b = true -> pair_gt b a = false.
Proof. unfold pair_gt. apply pair_lt_asym. Qed.

Lemma pair_gt_negtrans (a b c : Z * string) :
  pair_gt a b = false -> pair_gt b c = false -> pair_gt a c = false.
Proof. unfold pair_gt. intros Hab Hbc. now apply (pair_lt_negtrans c b a). Qed.

Lemma pair_gt_false (a b : Z * string) : pair_gt a b = false <-> pair_le a b.
Proof. unfold pair_gt. apply pair_lt_false. Qed.

End OrderFacts.

(** ** MessyMess *)

Module MessyMessFacts.
Import MessyMess HostelFixer Stl StlFacts OrderFacts.

Definition pair_of (d : Dish) : Z * string := (d.(rating), d.(name)).

Lemma heap_of_pq_of (dishes : list Dish) :
  heap_of dishes = pq_of pair_lt (map pair_of dishes).
Proof.
  unfold heap_of, pq_of. generalize (@nil (Z * string)).
  induction dishes as [|d dishes IH]; intros c; simpl; [reflexivity | apply IH].
Qed.

Lemma top_loop_spec (left : nat) (heap : list (Z * string)) :
  is_heap pair_lt heap ->
  exists rest,
    (top_loop left heap ++ rest)%list ≡ₚ heap
    /\ length (top_loop left heap) = Nat.min left (length heap)
    /\ StronglySorted (fun a b => pair_le b a) (top_loop left heap)
    /\ forall a b, a ∈ top_loop left heap -> b ∈ rest -> pair_le b a.
Proof.
  revert heap. induction left as [|left IH]; intros heap Hheap.
  - exists heap. simpl. split; [reflexivity |]. split; [reflexivity |].
    split; [constructor |]. intros a b Ha. now apply elem_of_nil in Ha.
  - cbn [top_loop]. destruct (pq_top heap) as [top|] eqn:Htop.
    + pose proof (pq_pop_perm pair_lt heap top Htop) as Hperm.
      pose proof (pq_pop_length pair_lt heap top Htop) as Hlen.
      destruct (IH (pq_pop pair_lt heap)) as (rest & Hp & Hl & Hs & Hgt).
      { now apply (pq_pop_heap pair_lt pair_lt_asym pair_lt_negtrans heap top). }
      assert (forall x, x ∈ pq_pop pair_lt heap -> pair_le x top) as Hfirst.
      { intros x Hx. apply pair_lt_false.
        apply (heap_top_first pair_lt pair_lt_asym pair_lt_negtrans heap top Hheap Htop).
        rewrite <- Hperm. apply elem_of_cons. now right. }
      exists rest. cbn [app length]. split; [now rewrite Hp |]. split; [lia |]. split.
      * constructor; [exact Hs |]. apply Forall_forall. intros x Hx.
        apply Hfirst. rewrite <- Hp. apply elem_of_app. now left.
      * intros a b Ha Hb. apply elem_of_cons in Ha as [-> | Ha]; [| now apply Hgt].
        apply Hfirst. rewrite <- Hp. apply elem_of_app. now right.
    + assert (heap = []) by (destruct heap; [reflexivity | discriminate]). subst heap. exists []. simpl.
      split; [reflexivity |]. split; [lia |]. split; [constructor |].
      intros a b Ha. now apply elem_of_nil in Ha.
Qed.

Lemma top_loop_take (left : nat) (heap : list (Z * string)) :
  top_loop left heap = take left (drain pair_lt heap).
Proof.
  unfold drain. revert heap. induction left as [|left IH]; intros heap; [reflexivity |].
  cbn [top_loop]. destruct (pq_top heap) as [top|] eqn:Htop.
  - pose proof (pq_pop_length pair_lt heap top Htop) as Hlen.
    rewrite <- Hlen. cbn [drain_loop]. rewrite Htop. cbn [take]. now rewrite IH.
  - destruct heap; [reflexivity | discriminate].
Qed.

(** The whole heap comes out in one order only, for the pairs are totally
    ordered. *)
Lemma drain_order_free (xs ys : list (Z * string)) :
  xs ≡ₚ ys -> drain pair_lt (pq_of pair_lt xs) = drain pair_lt (pq_of pair_lt ys).
Proof.
  intros Hperm.
  destruct (drain_sorted pair_lt pair_lt_asym pair_lt_negtrans (pq_of pair_lt xs))
    as [Hpx Hsx]; [apply pq_of_heap; [exact pair_lt_asym | exact pair_lt_negtrans] |].
  destruct (drain_sorted pair_lt pair_lt_asym pair_lt_negtrans (pq_of pair_lt ys))
    as [Hpy Hsy]; [apply pq_of_heap; [exact pair_lt_asym | exact pair_lt_negtrans] |].
  apply (StronglySorted_unique_strong (fun a b => pair_lt a b = false)).
  - intros a b _ _ Hab Hba. apply pair_lt_false in Hab, Hba.
    now apply pair_le_antisym.
  - exact Hsx.
  - exact Hsy.
  - now rewrite Hpx, Hpy, !pq_of_perm.
Qed.

(** X1.  Top Dishes.  The list has three dishes, or all of them if there are
    fewer; it goes down by rating and, among equal ratings, down by name in
    byte-wise order; no dish left out comes before a listed one in that
    order; and the list is the same in whatever order the dishes are
    stored. *)
Theorem top_dishes_best (dishes : list Dish) :
  (exists rest,
     (top_dishes dishes ++ rest)%list ≡ₚ map pair_of dishes
     /\ length (top_dishes dishes) = Nat.min 3 (length dishes)
     /\ StronglySorted (fun a b => pair_le b a) (top_dishes dishes)
     /\ forall a b, a ∈ top_dishes dishes -> b ∈ rest -> pair_le b a)
  /\ (forall dishes', dishes ≡ₚ dishes' -> top_dishes dishes' = top_dishes dishes).
Proof.
  split.
  - unfold top_dishes. rewrite heap_of_pq_of.
    destruct (top_loop_spec 3 (pq_of pair_lt (map pair_of dishes)))
      as (rest & Hp & Hl & Hs & Hgt);
      [apply pq_of_heap; [exact pair_lt_asym | exact pair_lt_negtrans] |].
    exists rest. split; [now rewrite Hp, pq_of_perm |].
    split; [| split; [exact Hs | exact Hgt]].
    rewrite Hl, (Permutation_length (pq_of_perm pair_lt _)). now rewrite length_map.
  - intros dishes' Hperm. unfold top_dishes.
    rewrite !top_loop_take, !heap_of_pq_of. f_equal.
    apply drain_order_free. now rewrite Hperm.
Qed.

End MessyMessFacts.

(** ** HostelFixer: how the loop of the shortest path runs *)

Module PathRunFacts.
Import HostelFixer Stl StlFacts CInt CIntFacts OrderFacts PathFacts.

(** The state after [n] turns of the loop, if it takes that many. *)
Fixpoint after_turns (n : nat) (graph : gmap string (list (string * Z)))
    (dist : gmap string Z) (pq : list (Z * string))
    : option (gmap string Z * list (Z * string)) :=
  match n with
  | O => Some (dist, pq)
  | S n' =>
      match dijkstra_step graph dist pq with
      | Some (dist', pq') => after_turns n' graph dist' pq'
      | None => None
      end
  end.

(** No weight is negative or so large that adding it to a distance of at
    most [INF] leaves [int].  Edges may lead to names that are no key. *)
Definition light (graph : gmap string (list (string * Z))) : Prop :=
  forall u v w, (v, w) ∈ graph_at graph u -> 0 <= w <= int_max - INF.

(** Every distance lies between 0 and [INF]. *)
Definition bounded (dist : gmap string Z) : Prop :=
  forall x, 0 <= dist_at dist x <= INF.

(** Every sum [dist[u] + w] that the [for] loop over [edges] computes from
    [dist] fits an [int]: the loop of [relax], with the exact sum looked at
    before each test. *)
Fixpoint relax_fits (u : string) (edges : list (string * Z)) (dist : gmap string Z)
    : Prop :=
  match edges with
  | [] => True
  | (v, w) :: edges' =>
      in_range (dist_at dist u + w)
      /\ relax_fits u edges'
           (if (add (dist_at dist u) w <? dist_at dist v)%Z
            then <[v := add (dist_at dist u) w]> dist else dist)
  end.

(** The same for the turn of the [while] loop that starts from [dist] and
    [pq]. *)
Definition turn_fits (graph : gmap string (list (string * Z))) (dist : gmap string Z)
    (pq : list (Z * string)) : Prop :=
  match pq_top pq with
  | Some (d, u) =>
      if (dist_at dist u <? d)%Z then True else relax_fits u (graph_at graph u) dist
  | None => True
  end.

Lemma bounded_update (dist : gmap string Z) u v w :
  bounded dist -> 0 <= w <= int_max - INF ->
  add (dist_at dist u) w = dist_at dist u + w
  /\ (dist_at dist u + w < dist_at dist v ->
      bounded (<[v := dist_at dist u + w]> dist)).
Proof.
  intros Hb Hw. pose proof (Hb u) as Hu. pose proof (Hb v) as Hv.
  split.
  - apply add_exact. unfold in_range, int_min, int_max, INF in *. lia.
  - intros Hlt x. rewrite dist_at_insert. destruct (decide (v = x)); [lia | apply Hb].
Qed.

Lemma relax_bounded u edges dist pq :
  (forall v w, (v, w) ∈ edges -> 0 <= w <= int_max - INF) -> bounded dist ->
  bounded (relax u edges dist pq).1.
Proof.
  intros Hedges Hb.
  apply (relax_rule (fun d _ => bounded d) u edges); [| exact Hb].
  intros d p v w Hd Hin Hlt.
  destruct (bounded_update d u v w Hd (Hedges v w Hin)) as [Hadd Hkeep].
  rewrite Hadd in *. now apply Hkeep.
Qed.

Lemma relax_fits_bounded u edges dist :
  (forall v w, (v, w) ∈ edges -> 0 <= w <= int_max - INF) -> bounded dist ->
  relax_fits u edges dist.
Proof.
  revert dist. induction edges as [|[v w] edges IH]; intros dist Hedges Hb; [exact I |].
  assert (0 <= w <= int_max - INF) as Hw by (apply (Hedges v w), elem_of_cons; now left).
  assert (forall v' w', (v', w') ∈ edges -> 0 <= w' <= int_max - INF) as Hedges'
    by (intros v' w' Hin; apply (Hedges v' w'), elem_of_cons; now right).
  destruct (bounded_update dist u v w Hb Hw) as [Hadd Hkeep].
  pose proof (Hb u) as Hu. cbn [relax_fits]. rewrite Hadd. split.
  - unfold in_range, int_min, int_max, INF in *. lia.
  - destruct (Z.ltb_spec (dist_at dist u + w) (dist_at dist v)) as [Hlt | _];
      apply (IH _ Hedges'); [now apply Hkeep | exact Hb].
Qed.

Lemma dijkstra_step_bounded graph dist pq dist' pq' :
  light graph -> bounded dist ->
  dijkstra_step graph dist pq = Some (dist', pq') -> bounded dist'.
Proof.
  intros Hl Hb Hstep.
  apply dijkstra_step_Some in Hstep as (d & u & Htop & [(_ & -> & _) | (_ & Heq)]);
    [exact Hb |].
  replace dist' with (relax u (graph_at graph u) dist (pq_pop pair_gt pq)).1
    by now rewrite <- Heq.
  apply relax_bounded; [| exact Hb]. intros v w. apply (Hl u).
Qed.

Lemma dist_init_bounded graph src : bounded (dist_init graph src).
Proof.
  intros x. unfold dist_init. rewrite dist_at_insert.
  destruct (decide (src = x)); [unfold INF; lia |].
  unfold dist_at. rewrite lookup_fmap.
  destruct (graph !! x); simpl; unfold INF; lia.
Qed.

(** X2.  On every graph whose weights lie between 0 and [INT_MAX - 1e9],
    whether or not its edges lead to keys: the loop ends with one result,
    between 0 and 1e9; and at every turn every distance lies between 0 and
    1e9 and every sum [dist[u] + w] the turn computes fits an [int]. *)
Theorem shortestPath_always_ends (graph : gmap string (list (string * Z)))
    (src dest : string) :
  light graph ->
  (exists fuel d,
     (forall fuel', (fuel <= fuel')%nat -> shortestPath fuel' graph src dest = Some d)
     /\ (forall fuel' d', shortestPath fuel' graph src dest = Some d' -> d' = d)
     /\ 0 <= d <= 1000000000)
  /\ (forall n dist pq,
        after_turns n graph (dist_init graph src) (pq_push pair_gt [] (0, src))
          = Some (dist, pq) ->
        bounded dist /\ turn_fits graph dist pq).
Proof.
  intros Hl. split.
  - destruct (dijkstra_loop_rule graph (fun d _ => bounded d)) with
      (dist := dist_init graph src) (pq := pq_push pair_gt [] (0, src))
      as (fuel & dist' & Hrun & Hb & _).
    + intros dist pq dist1 pq1 _ Hb. now apply dijkstra_step_bounded.
    + apply dist_init_ranged.
    + apply dist_init_bounded.
    + assert (forall fuel', (fuel <= fuel')%nat ->
                shortestPath fuel' graph src dest = Some (dist_at dist' dest)) as Hsp.
      { intros fuel' Hfuel. unfold shortestPath. now rewrite (Hrun fuel' Hfuel). }
      exists fuel, (dist_at dist' dest). split; [exact Hsp |]. split; [| apply Hb].
      intros fuel' d' Hd'.
      apply (shortestPath_unique fuel' fuel graph src dest); [exact Hd' |].
      apply Hsp. lia.
  - intros n. generalize (pq_push pair_gt [] (0, src)).
    generalize (dist_init_bounded graph src). generalize (dist_init graph src).
    induction n as [|n IH]; intros d0 Hb0 p0 dist pq; simpl.
    + intros [= <- <-]. split; [exact Hb0 |]. unfold turn_fits.
      destruct (pq_top p0) as [[d u]|]; [| exact I].
      destruct (dist_at d0 u <? d)%Z; [exact I |].
      apply relax_fits_bounded; [| exact Hb0]. intros v w. apply (Hl u).
    + destruct (dijkstra_step graph d0 p0) as [[d1 p1]|] eqn:Hstep; [| discriminate].
      apply IH. now apply (dijkstra_step_bounded graph d0 p0 d1 p1).
Qed.

(** The global graph. *)
Lemma shortestPath_always_ends_witness :
  light HostelFixer.graph
  /\ (exists fuel d,
        (forall fuel', (fuel <= fuel')%nat ->
           shortestPath fuel' HostelFixer.graph "Gate" "Laundry" = Some d)
        /\ (forall fuel' d',
              shortestPath fuel' HostelFixer.graph "Gate" "Laundry" = Some d' -> d' = d)
        /\ 0 <= d <= 1000000000)
  /\ turn_fits HostelFixer.graph (dist_init HostelFixer.graph "Gate")
       (pq_push pair_gt [] (0, "Gate")).
Proof.
  assert (light HostelFixer.graph) as Hl
    by (intros u v w Hin; exact (proj2 (seed_graph_wf u v w Hin))).
  split; [exact Hl |]. split.
  - exact (proj1 (shortestPath_always_ends HostelFixer.graph "Gate" "Laundry" Hl)).
  - exact (proj2 (proj2 (shortestPath_always_ends HostelFixer.graph "Gate" "Laundry" Hl)
                   0%nat _ _ eq_refl)).
Defined.

Lemma relax_heap u edges dist pq :
  is_heap pair_gt pq -> is_heap pair_gt (relax u edges dist pq).2.
Proof.
  intros Hpq.
  apply (relax_rule (fun _ p => is_heap pair_gt p) u edges); [| exact Hpq].
  intros d p v w Hp _ _.
  now apply (pq_push_heap pair_gt pair_gt_asym pair_gt_negtrans).
Qed.

Lemma dijkstra_step_heap graph dist pq dist' pq' :
  is_heap pair_gt pq -> dijkstra_step graph dist pq = Some (dist', pq') ->
  is_heap pair_gt pq'.
Proof.
  intros Hpq Hstep.
  apply dijkstra_step_Some in Hstep as (d & u & Htop & [(_ & _ & ->) | (_ & Heq)]).
  - now apply (pq_pop_heap pair_gt pair_gt_asym pair_gt_negtrans pq (d, u)).
  - replace pq' with (relax u (graph_at graph u) dist (pq_pop pair_gt pq)).2
      by now rewrite <- Heq.
    apply relax_heap.
    now apply (pq_pop_heap pair_gt pair_gt_asym pair_gt_negtrans pq (d, u)).
Qed.

(** X3.  At every turn of the loop, on every graph, the entry taken from the
    queue is the least one: no entry of the queue has a smaller distance,
    or the same distance and a smaller name. *)
Theorem turn_takes_least_entry (graph : gmap string (list (string * Z)))
    (src : string) (n : nat) (dist : gmap string Z) (pq : list (Z * string))
    (d : Z) (u : string) :
  after_turns n graph (dist_init graph src) (pq_push pair_gt [] (0, src))
    = Some (dist, pq) ->
  pq_top pq = Some (d, u) ->
  forall d' u', (d', u') ∈ pq ->
    d < d' \/ (d = d' /\ String.leb u u' = true).
Proof.
  intros Hturns Htop d' u' Hin.
  assert (is_heap pair_gt pq) as Hheap.
  { revert Hturns. generalize (dist_init graph src).
    assert (is_heap pair_gt (pq_push pair_gt [] (0, src))) as H0
      by (apply (pq_push_heap pair_gt pair_gt_asym pair_gt_negtrans), is_heap_nil).
    revert H0. generalize (pq_push pair_gt [] (0, src)).
    induction n as [|n IH]; intros p0 Hp0 d0; simpl.
    - now intros [= _ <-].
    - destruct (dijkstra_step graph d0 p0) as [[d1 p1]|] eqn:Hstep; [| discriminate].
      apply IH. now apply (dijkstra_step_heap graph d0 p0 d1 p1). }
  apply (pair_gt_false (d, u) (d', u')).
  now apply (heap_top_first pair_gt pair_gt_asym pair_gt_negtrans pq (d, u)).
Qed.

(** After the first turn on the global graph the queue holds Mess at 2 and
    Laundry at 4, and Mess is taken. *)
Lemma turn_takes_least_entry_witness :
  after_turns 1 HostelFixer.graph (dist_init HostelFixer.graph "Gate")
    (pq_push pair_gt [] (0, "Gate"))
  = Some (<["Laundry" := 4]> (<["Mess" := 2]> (dist_init HostelFixer.graph "Gate")),
          [(2, "Mess"); (4, "Laundry")])
  /\ forall d' u', (d', u') ∈ [(2, "Mess"); (4, "Laundry")] ->
       2 < d' \/ (2 = d' /\ String.leb "Mess" u' = true).
Proof.
  assert (after_turns 1 HostelFixer.graph (dist_init HostelFixer.graph "Gate")
            (pq_push pair_gt [] (0, "Gate"))
          = Some (<["Laundry" := 4]> (<["Mess" := 2]> (dist_init HostelFixer.graph "Gate")),
                  [(2, "Mess"); (4, "Laundry")])) as H
    by (vm_compute; reflexivity).
  split; [exact H |].
  exact (turn_takes_least_entry HostelFixer.graph "Gate" 1 _ _ 2 "Mess" H eq_refl).
Defined.

End PathRunFacts.

(** ** SnackCart: whole sessions at the menu *)

Module SnackCartRunFacts.
Import SnackCart Stl StlFacts CInt CIntFacts SnackCartFacts.

Lemma run_cons (std_sort : list (string * Z) -> list (string * Z)) st c input :
  run std_sort st (c :: input) =
  match step std_sort st c with
  | None => (st, [])
  | Some (st', out) =>
      ((run std_sort st' input).1, out :: (run std_sort st' input).2)
  end.
Proof.
  simpl. destruct (step std_sort st c) as [[st' out]|]; [| reflexivity].
  now destruct (run std_sort st' input).
Qed.

(** The rule of the menu loop: what every executed command keeps holds of
    the state the loop ends in. *)
Lemma run_rule (std_sort : list (string * Z) -> list (string * Z))
    (P : State -> Prop) (input : list Command) :
  (forall st c st' out, P st -> In c input -> step std_sort st c = Some (st', out) ->
     P st') ->
  forall st, P st -> P (run std_sort st input).1.
Proof.
  induction input as [|c input IH]; intros Hstep st HP; [exact HP |].
  rewrite run_cons. destruct (step std_sort st c) as [[st' out]|] eqn:Hc; [| exact HP].
  simpl. apply IH.
  - intros st1 c1 st2 out1 H1 Hin. apply (Hstep st1 c1 st2 out1 H1). now right.
  - apply (Hstep st c st' out HP); [now left | exact Hc].
Qed.

(** The two stocks hold the same items, up to their quantities. *)
Definition same_catalog (st st' : State) : Prop :=
  forall key,
    match st.(stock) !! key, st'.(stock) !! key with
    | Some s, Some s' =>
        s.(name) = s'.(name) /\ s.(price) = s'.(price) /\ s.(expiry) = s'.(expiry)
    | None, None => True
    | _, _ => False
    end.

Lemma same_catalog_refl st : same_catalog st st.
Proof. intros key. now destruct (stock st !! key). Qed.

Lemma same_catalog_trans st1 st2 st3 :
  same_catalog st1 st2 -> same_catalog st2 st3 -> same_catalog st1 st3.
Proof.
  intros H12 H23 key. specialize (H12 key). specialize (H23 key).
  destruct (stock st1 !! key), (stock st2 !! key), (stock st3 !! key);
    try easy. destruct H12 as (? & ? & ?), H23 as (? & ? & ?).
  repeat split; congruence.
Qed.

Lemma purchase_same_catalog st name qty : same_catalog st (purchase st name qty).1.
Proof.
  unfold purchase. destruct (stock st !! name) as [s|] eqn:Hs;
    [| apply same_catalog_refl].
  destruct (qty <=? quantity s)%Z; [| apply same_catalog_refl].
  intros key. simpl. rewrite lookup_insert.
  case_decide as Hk; [subst key; now rewrite Hs |].
  now destruct (stock st !! key).
Qed.

Lemma step_state std_sort st c st' out :
  step std_sort st c = Some (st', out) ->
  st' = match c with
        | BuySnack name qty => (purchase st name qty).1
        | ViewProfit => (profitReport std_sort st).1
        | _ => st
        end.
Proof.
  destruct c as [| |name qty| |]; simpl; try discriminate; intros H;
    inversion H as [H']; try reflexivity.
  now rewrite H'.
Qed.

Lemma step_same_catalog std_sort st c st' out :
  step std_sort st c = Some (st', out) -> same_catalog st st'.
Proof.
  intros Hc. rewrite (step_state std_sort st c st' out Hc).
  destruct c as [| |name qty| |]; try apply same_catalog_refl.
  - apply purchase_same_catalog.
  - intros key. simpl. now destruct (stock st !! key).
Qed.

(** X4.  Whatever is typed at the menu, and whatever [std::sort] does, the stock
    keeps its items: none is added, none is removed, and no name, price or
    expiry changes.  Only quantities change. *)
Theorem run_keeps_catalog (std_sort : list (string * Z) -> list (string * Z))
    (st : State) (input : list Command) :
  same_catalog st (run std_sort st input).1.
Proof.
  apply (run_rule std_sort (same_catalog st)); [| apply same_catalog_refl].
  intros st1 c st2 out H1 _ Hc.
  apply (same_catalog_trans st st1 st2 H1). now apply (step_same_catalog std_sort st1 c st2 out).
Qed.

(** No quantity is negative or above [INT_MAX]. *)
Definition stock_bounds (st : State) : Prop :=
  forall key s, st.(stock) !! key = Some s -> 0 <= s.(quantity) <= int_max.

(** Every quantity of [st'] is at most what it is in [st]. *)
Definition no_more_than (st st' : State) : Prop :=
  forall key s s', st.(stock) !! key = Some s -> st'.(stock) !! key = Some s' ->
    s'.(quantity) <= s.(quantity).

Lemma no_more_than_refl st : no_more_than st st.
Proof. intros key s s' Hs Hs'. rewrite Hs in Hs'. injection Hs' as <-. lia. Qed.

Lemma purchase_bounds st name qty :
  0 <= qty -> stock_bounds st ->
  stock_bounds (purchase st name qty).1 /\ no_more_than st (purchase st name qty).1.
Proof.
  intros Hq Hb. unfold purchase.
  destruct (stock st !! name) as [s|] eqn:Hs;
    [| split; [exact Hb | apply no_more_than_refl]].
  destruct (Z.leb_spec qty (quantity s)) as [Hle | Hgt];
    [| split; [exact Hb | apply no_more_than_refl]].
  pose proof (Hb name s Hs) as Hbs.
  assert (sub (quantity s) qty = quantity s - qty) as Hsub
    by (apply sub_exact; unfold in_range, int_min, int_max in *; lia).
  unfold stock_bounds, no_more_than. simpl. split.
  - intros key s'. rewrite lookup_insert. case_decide; [| apply Hb].
    intros [= <-]. simpl. rewrite Hsub. lia.
  - intros key s1 s2 H1. rewrite lookup_insert. case_decide as Hk.
    + subst key. rewrite Hs in H1. injection H1 as <-. intros [= <-]. simpl.
      rewrite Hsub. lia.
    + intros H2. rewrite H1 in H2. injection H2 as <-. lia.
Qed.

(** X5.  As long as no negative quantity is typed, no quantity in stock ever
    becomes negative, and none ever grows. *)
Theorem run_keeps_quantities_nonnegative
    (std_sort : list (string * Z) -> list (string * Z))
    (st : State) (input : list Command) :
  stock_bounds st ->
  (forall name qty, In (BuySnack name qty) input -> 0 <= qty) ->
  stock_bounds (run std_sort st input).1 /\ no_more_than st (run std_sort st input).1.
Proof.
  intros Hb Hq.
  cut (stock_bounds (run std_sort st input).1
       /\ no_more_than st (run std_sort st input).1
       /\ same_catalog st (run std_sort st input).1); [tauto |].
  apply (run_rule std_sort
           (fun st' => stock_bounds st' /\ no_more_than st st' /\ same_catalog st st'));
    [| split; [exact Hb | split; [| apply same_catalog_refl]]].
  - intros st1 c st2 out (Hb1 & Hle1 & Hsame) Hin Hc.
    assert (same_catalog st st2) as Hsame2.
    { apply (same_catalog_trans st st1 st2 Hsame).
      now apply (step_same_catalog std_sort st1 c st2 out). }
    rewrite (step_state std_sort st1 c st2 out Hc) in *.
    destruct c as [| |name qty| |]; auto.
    destruct (purchase_bounds st1 name qty (Hq name qty Hin) Hb1) as [Hb2 Hle2].
    split; [exact Hb2 |]. split; [| exact Hsame2].
    intros key s s2 Hs Hs2. specialize (Hsame key). rewrite Hs in Hsame.
    destruct (stock st1 !! key) as [s1|] eqn:Hs1; [| destruct Hsame].
    specialize (Hle1 key s s1 Hs Hs1). specialize (Hle2 key s1 s2 Hs1 Hs2). lia.
  - apply no_more_than_refl.
Qed.

Lemma state0_bounds : stock_bounds state0.
Proof.
  intros key s. unfold state0, stock0. simpl. rewrite !lookup_insert.
  repeat (case_decide; [intros [= <-]; vm_compute; split; discriminate |]).
  now rewrite lookup_empty.
Qed.

Lemma run_keeps_quantities_nonnegative_witness :
  stock_bounds state0
  /\ (forall name qty,
        In (BuySnack name qty) [BuySnack "Lays" 5; BuySnack "Lays" 1; ViewProfit] ->
        0 <= qty)
  /\ stock_bounds
       (run (insertion_sort by_profit) state0
          [BuySnack "Lays" 5; BuySnack "Lays" 1; ViewProfit]).1.
Proof.
  assert (forall name qty,
            In (BuySnack name qty) [BuySnack "Lays" 5; BuySnack "Lays" 1; ViewProfit] ->
            0 <= qty) as Hq.
  { intros name qty [H | [H | [H | []]]]; try discriminate; injection H as _ <-; lia. }
  split; [exact state0_bounds |]. split; [exact Hq |].
  exact (proj1 (run_keeps_quantities_nonnegative (insertion_sort by_profit) state0
                  [BuySnack "Lays" 5; BuySnack "Lays" 1; ViewProfit]
                  state0_bounds Hq)).
Defined.

Lemma run_split (std_sort : list (string * Z) -> list (string * Z))
    (st : State) (before after : list Command) :
  (In Back before -> False) ->
  run std_sort st (before ++ after)
  = ((run std_sort (run std_sort st before).1 after).1,
     ((run std_sort st before).2 ++ (run std_sort (run std_sort st before).1 after).2)%list)
  /\ run std_sort st (before ++ Back :: after) = run std_sort st before
  /\ length (run std_sort st before).2 = length before.
Proof.
  revert st. induction before as [|c before IH]; intros st Hno.
  - simpl. split; [now destruct (run std_sort st after) | split; reflexivity].
  - assert (c <> Back) as Hc by (intros ->; apply Hno; now left).
    assert (In Back before -> False) as Hno' by (intros H; apply Hno; now right).
    rewrite <- !app_comm_cons, !run_cons.
    destruct (step std_sort st c) as [[st' out]|] eqn:Hstep;
      [| destruct c; simpl in Hstep; congruence].
    destruct (IH st' Hno') as (H1 & H2 & H3).
    rewrite H1, H2. simpl. split; [reflexivity |]. split; [| now rewrite H3].
    now destruct (run std_sort st' before).
Qed.

(** X6.  The commands typed before the first [Back] are run one after the
    other, each on the stock and history the commands before it leave: a
    view lists that stock, a purchase is the purchase from that stock, a
    profit report sorts and sums that history, any other option does
    nothing; each prints one output.  Nothing typed after [Back] is run. *)
Theorem run_app (std_sort : list (string * Z) -> list (string * Z))
    (st : State) (before after : list Command) :
  (In Back before -> False) ->
  run std_sort st (before ++ after)
  = ((run std_sort (run std_sort st before).1 after).1,
     ((run std_sort st before).2 ++ (run std_sort (run std_sort st before).1 after).2)%list)
  /\ run std_sort st (before ++ Back :: after) = run std_sort st before
  /\ length (run std_sort st before).2 = length before
  /\ run std_sort st (before ++ [ViewStock])
     = ((run std_sort st before).1,
        ((run std_sort st before).2
           ++ [Stock (rank (run std_sort st before).1.(stock))])%list)
  /\ (forall name qty,
        run std_sort st (before ++ [BuySnack name qty])
        = ((purchase (run std_sort st before).1 name qty).1,
           ((run std_sort st before).2
              ++ [(purchase (run std_sort st before).1 name qty).2])%list))
  /\ run std_sort st (before ++ [ViewProfit])
     = ((profitReport std_sort (run std_sort st before).1).1,
        ((run std_sort st before).2
           ++ [(profitReport std_sort (run std_sort st before).1).2])%list)
  /\ run std_sort st (before ++ [Other])
     = ((run std_sort st before).1, ((run std_sort st before).2 ++ [InvalidOption])%list).
Proof.
  intros Hno.
  destruct (run_split std_sort st before after Hno) as (H1 & H2 & H3).
  split; [exact H1 |]. split; [exact H2 |]. split; [exact H3 |].
  split; [| split; [| split]]; [| intros name qty | |];
    match goal with
    | |- run _ _ (_ ++ ?l) = _ => rewrite (proj1 (run_split std_sort st before l Hno))
    end; simpl.
  - reflexivity.
  - now destruct (purchase (run std_sort st before).1 name qty).
  - reflexivity.
  - reflexivity.
Qed.

(** One Oreo is bought and the stock is viewed; then eight Oreo are asked
    for, and seven are left: refused.  After [Back] nothing is run. *)
Lemma run_app_witness :
  (In Back [BuySnack "Oreo" 1; ViewStock] -> False)
  /\ run (insertion_sort by_profit) state0
       ([BuySnack "Oreo" 1; ViewStock] ++ Back :: [BuySnack "Oreo" 8])
     = run (insertion_sort by_profit) state0 [BuySnack "Oreo" 1; ViewStock]
  /\ (run (insertion_sort by_profit) state0
        ([BuySnack "Oreo" 1; ViewStock] ++ [BuySnack "Oreo" 8])).2 !! 2%nat
     = Some OutOfStock
  /\ (run (insertion_sort by_profit) state0
        ([BuySnack "Oreo" 1; ViewStock] ++ [BuySnack "Oreo" 7])).2 !! 2%nat
     = Some Purchased.
Proof.
  assert (In Back [BuySnack "Oreo" 1; ViewStock] -> False) as Hno
    by (intros [H | [H | []]]; discriminate).
  split; [exact Hno |].
  split; [exact (proj1 (proj2 (run_app (insertion_sort by_profit) state0
                                 [BuySnack "Oreo" 1; ViewStock] [BuySnack "Oreo" 8]
                                 Hno))) |].
  split.
  - rewrite (proj1 (proj2 (proj2 (proj2 (proj2
               (run_app (insertion_sort by_profit) state0
                  [BuySnack "Oreo" 1; ViewStock] [] Hno))))) "Oreo" 8).
    vm_compute. reflexivity.
  - rewrite (proj1 (proj2 (proj2 (proj2 (proj2
               (run_app (insertion_sort by_profit) state0
                  [BuySnack "Oreo" 1; ViewStock] [] Hno))))) "Oreo" 7).
    vm_compute. reflexivity.
Defined.

(** The loop of [total_profit] from any start value, in terms of the exact
    sum. *)
Lemma total_profit_from (history : list (string * Z)) (a : Z) :
  fold_left (fun total p => add total p.2) history (wrap a)
  = wrap (a + foldr Z.add 0 history.*2).
Proof.
  revert a. induction history as [|p history IH]; intros a.
  - simpl. f_equal. lia.
  - rewrite fmap_cons. cbn [fold_left foldr].
    replace (add (wrap a) p.2) with (wrap (a + p.2))
      by (unfold add; now rewrite wrap_wrap_add).
    rewrite IH. f_equal. lia.
Qed.

Lemma sum_perm (l l' : list Z) : l ≡ₚ l' -> foldr Z.add 0 l = foldr Z.add 0 l'.
Proof. induction 1; simpl; lia. Qed.

(** Every partial sum that [total += p.second] goes through over the
    history fits an [int]. *)
Definition sums_fit (history : list (string * Z)) : Prop :=
  forall k, in_range (foldr Z.add 0 (take k history).*2).

Lemma total_profit_exact (history : list (string * Z)) :
  sums_fit history -> total_profit history = foldr Z.add 0 history.*2.
Proof.
  intros Hfit.
  assert (total_profit history = wrap (foldr Z.add 0 history.*2)) as ->
    by (unfold total_profit; apply (total_profit_from history 0)).
  apply wrap_exact. specialize (Hfit (length history)).
  now rewrite firstn_all in Hfit.
Qed.

Lemma sum_nonneg (l : list Z) : Forall (fun z => 0 <= z) l -> 0 <= foldr Z.add 0 l.
Proof. induction 1; simpl; lia. Qed.

Lemma sum_take_le (l : list Z) (k : nat) :
  Forall (fun z => 0 <= z) l -> 0 <= foldr Z.add 0 (take k l) <= foldr Z.add 0 l.
Proof.
  intros Hl. revert k. induction Hl as [|z l Hz Hl IH]; intros k.
  - rewrite take_nil. simpl. lia.
  - destruct k as [|k]; simpl.
    + pose proof (sum_nonneg l Hl). lia.
    + specialize (IH k). lia.
Qed.

(** X7.  As long as every partial sum of the loop fits an [int], the printed
    total is the exact sum of the recorded profits, and it is the same for
    every order of the records whose partial sums fit.  When no recorded
    profit is negative, the partial sums fit in every order as soon as they
    fit in one. *)
Theorem total_profit_sum (history : list (string * Z)) :
  sums_fit history ->
  total_profit history = foldr Z.add 0 history.*2
  /\ (forall history', history ≡ₚ history' -> sums_fit history' ->
        total_profit history' = total_profit history)
  /\ ((forall p, p ∈ history -> 0 <= p.2) ->
      forall history', history ≡ₚ history' ->
        sums_fit history' /\ total_profit history' = total_profit history).
Proof.
  intros Hfit.
  assert (forall history', history ≡ₚ history' -> sums_fit history' ->
            total_profit history' = total_profit history) as Hsame.
  { intros history' Hperm Hfit'.
    rewrite (total_profit_exact history Hfit), (total_profit_exact history' Hfit').
    apply sum_perm. now rewrite Hperm. }
  split; [now apply total_profit_exact |]. split; [exact Hsame |].
  intros Hpos history' Hperm.
  assert (sums_fit history') as Hfit'; [| split; [exact Hfit' | now apply Hsame]].
  intros k. rewrite fmap_take.
  assert (Forall (fun z => 0 <= z) history'.*2) as Hall.
  { apply Forall_forall. intros z Hz. apply list_elem_of_fmap in Hz as (p & -> & Hp). apply Hpos. now rewrite Hperm. }
  pose proof (sum_take_le _ k Hall) as Hk.
  specialize (Hfit (length history)). rewrite firstn_all in Hfit.
  rewrite (sum_perm _ history'.*2) in Hfit by now rewrite Hperm.
  unfold in_range, int_min, int_max in *. lia.
Qed.

(** 45 for Kurkure, then 100 for Lays: the total is 145, also after the
    report has put the Lays first. *)
Lemma total_profit_sum_witness :
  sums_fit [("Kurkure", 45); ("Lays", 100)]
  /\ total_profit [("Kurkure", 45); ("Lays", 100)] = 145
  /\ total_profit [("Lays", 100); ("Kurkure", 45)] = 145.
Proof.
  assert (sums_fit [("Kurkure", 45); ("Lays", 100)]) as Hfit.
  { intros [|[|k]]; [vm_compute; split; discriminate ..|].
    cbn [take fmap list_fmap]. rewrite take_nil. vm_compute. split; discriminate. }
  split; [exact Hfit |]. split.
  - rewrite (proj1 (total_profit_sum _ Hfit)). reflexivity.
  - rewrite (proj2 (proj2 (proj2 (total_profit_sum _ Hfit))
                      ltac:(intros p Hp;
                            repeat (apply elem_of_cons in Hp as [-> | Hp]; [simpl; lia |]);
                            now apply elem_of_nil in Hp)
                      [("Lays", 100); ("Kurkure", 45)]
                      (perm_swap _ _ []))).
    rewrite (proj1 (total_profit_sum _ Hfit)). reflexivity.
Defined.

Definition is_Purchased (out : Output) : bool :=
  match out with Purchased => true | _ => false end.

Section Bookkeeping.

Variable std_sort : list (string * Z) -> list (string * Z).
Hypothesis std_sort_post : forall l, sort_post by_profit l (std_sort l).

Lemma step_history st c st' out :
  step std_sort st c = Some (st', out) ->
  length st'.(salesHistory)
  = (length st.(salesHistory) + (if is_Purchased out then 1 else 0))%nat.
Proof.
  destruct c as [| |name qty| |]; simpl; try discriminate.
  - intros [= <- <-]. simpl. lia.
  - unfold purchase. destruct (stock st !! name) as [s|] eqn:Hs.
    + destruct (qty <=? quantity s)%Z; intros [= <- <-]; simpl; [| lia].
      rewrite length_app. simpl. lia.
    + intros [= <- <-]. simpl. lia.
  - intros [= <- <-]. simpl. destruct (std_sort_post (salesHistory st)) as [Hperm _].
    rewrite <- (Permutation_length Hperm). lia.
  - intros [= <- <-]. simpl. lia.
Qed.

(** X8.  With any [std::sort] that keeps its contract: at the end of a session
    the history has grown by exactly one record for each "Purchased!" that
    was printed, and by nothing else. *)
Theorem run_history_length (st : State) (input : list Command) :
  length (run std_sort st input).1.(salesHistory)
  = (length st.(salesHistory)
     + length (List.filter is_Purchased (run std_sort st input).2))%nat.
Proof.
  revert st. induction input as [|c input IH]; intros st; [simpl; lia |].
  rewrite run_cons. destruct (step std_sort st c) as [[st' out]|] eqn:Hc; [| simpl; lia].
  pose proof (step_history st c st' out Hc) as Hlen.
  cbn [fst snd List.filter]. rewrite IH, Hlen.
  destruct (is_Purchased out); simpl; lia.
Qed.

End Bookkeeping.

Lemma run_history_length_witness :
  (forall l, sort_post by_profit l (insertion_sort by_profit l))
  /\ length (run (insertion_sort by_profit) state0
               [BuySnack "Lays" 9; BuySnack "Lays" 2; ViewProfit; BuySnack "Oreo" 1]).1
              .(salesHistory)
     = 2%nat.
Proof.
  split; [exact SnackCartMenuFacts.insertion_sort_by_profit |].
  rewrite (run_history_length (insertion_sort by_profit)
             SnackCartMenuFacts.insertion_sort_by_profit state0
             [BuySnack "Lays" 9; BuySnack "Lays" 2; ViewProfit; BuySnack "Oreo" 1]).
  vm_compute. reflexivity.
Defined.

End SnackCartRunFacts.

(** ** LaundryLoad: what a series of bookings keeps *)

Module LaundryLoadMoreFacts.
Import LaundryLoad LaundryLoadFacts.

(** No slot passes the overlap test against a slot stored before it. *)
Definition no_clash (slots : list (Z * Z)) : Prop :=
  StronglySorted (fun a b => overlaps b.1 b.2 a = false) slots.

(** The slots one after the other requested, those refused left out. *)
Definition book_all (slots : list (Z * Z)) (requests : list (Z * Z)) : list (Z * Z) :=
  fold_left (fun slots r => (run slots r.1 r.2).1) requests slots.

(** Two intervals share an hour. *)
Definition share_hour (a b : Z * Z) : Prop :=
  exists x, (a.1 <= x < a.2) /\ (b.1 <= x < b.2).

Lemma clash_false_all start end_ slots :
  clash start end_ slots = false <->
  forall s, In s slots -> overlaps start end_ s = false.
Proof.
  induction slots as [|s slots IH]; simpl; [split; [intros _ s [] | reflexivity] |].
  destruct (overlaps start end_ s) eqn:Ho.
  - split; [discriminate |]. intros H. rewrite <- Ho. apply H. now left.
  - rewrite IH. split.
    + intros H s' [<- | Hin]; [exact Ho | now apply H].
    + intros H s' Hin. apply H. now right.
Qed.



Lemma run_keeps_no_clash slots start end_ :
  no_clash slots -> no_clash (run slots start end_).1.
Proof.
  intros Hs. unfold run. destruct (clash start end_ slots) eqn:Hc; simpl; [exact Hs |].
  apply StronglySorted_app_2; [| exact Hs | repeat constructor].
  intros a b Ha Hb. apply list_elem_of_singleton in Hb as ->. simpl.
  apply (proj1 (clash_false_all start end_ slots) Hc). now apply list_elem_of_In.
Qed.

Lemma seed_no_clash : no_clash slots.
Proof. repeat constructor. Qed.

(** X9.  Whatever hours are typed in whatever number of visits, the stored
    slots stay free of overlap in the sense of the test of the code; and
    when every request has [start < end], no two stored slots share an
    hour. *)
Theorem bookings_never_overlap (requests : list (Z * Z)) :
  no_clash (book_all slots requests)
  /\ (Forall (fun r => r.1 < r.2) requests ->
      StronglySorted (fun a b => share_hour a b -> False) (book_all slots requests)).
Proof.
  assert (forall sl, no_clash sl -> no_clash (book_all sl requests)) as Hkeep.
  { induction requests as [|r requests IH]; intros sl Hsl; [exact Hsl |].
    simpl. apply IH. now apply run_keeps_no_clash. }
  split; [apply Hkeep, seed_no_clash |].
  intros Hproper.
  assert (forall sl, Forall (fun s => s.1 < s.2) sl ->
            Forall (fun s => s.1 < s.2) (book_all sl requests)) as Hprop.
  { clear Hkeep. induction requests as [|r requests IH]; intros sl Hsl; [exact Hsl |].
    apply Forall_cons in Hproper as [Hr Hrest]. simpl. apply (IH Hrest).
    unfold run. destruct (clash r.1 r.2 sl); simpl; [exact Hsl |].
    apply Forall_app. split; [exact Hsl | now repeat constructor]. }
  assert (Forall (fun s => s.1 < s.2) (book_all slots requests)) as Hall
    by (apply Hprop; repeat constructor; simpl; lia).
  pose proof (Hkeep slots seed_no_clash) as Hno.
  revert Hall Hno. generalize (book_all slots requests). intros sl Hall Hno.
  induction Hno as [|a sl Hsl IH Ha]; [constructor |].
  apply Forall_cons in Hall as [Hpa Hall].
  constructor; [now apply IH |].
  rewrite Forall_forall in Ha, Hall. apply Forall_forall. intros b Hb Hshare.
  specialize (Ha b Hb). specialize (Hall b Hb).
  destruct a as [s e], b as [s' e']. simpl in *.
  assert (overlaps s' e' (s, e) = true) as Ht; [| rewrite Ht in Ha; discriminate].
  apply (overlaps_shared_point s' e' s e Hall Hpa).
  destruct Hshare as (x & Hx1 & Hx2). exists x. simpl in *. lia.
Qed.



End LaundryLoadMoreFacts.

(** ** FoodFight: the whole report *)

Module FoodFightReportFacts.
Import FoodFight CInt CIntFacts FoodFightFacts.

Lemma window_count_exact (n window i : nat) :
  (i + window <= n)%nat -> Z.of_nat window <= int_max ->
  wrap (wrap (Z.of_nat (i + window)) - wrap (Z.of_nat i)) = Z.of_nat window.
Proof.
  intros Hi Hmax. rewrite wrap_sub_wraps.
  replace (Z.of_nat (i + window) - Z.of_nat i) with (Z.of_nat window) by lia.
  apply wrap_exact. unfold in_range, int_min, int_max in *. lia.
Qed.

Lemma queue_line_exact (entryTimes : list Z) (window i : nat) :
  (1 <= window)%nat -> (i + window <= length entryTimes)%nat ->
  Z.of_nat window <= int_max ->
  queue_line entryTimes (prefix_of (length entryTimes)) window i
  = Some (nth i entryTimes 0, nth (i + window - 1) entryTimes 0, Z.of_nat window).
Proof.
  intros Hw Hi Hmax. unfold queue_line.
  rewrite (prefix_of_lookup _ (i + window)) by lia.
  rewrite (prefix_of_lookup _ i) by lia. simpl.
  destruct (lookup_lt_is_Some_2 entryTimes i) as [a Ha]; [lia |].
  destruct (lookup_lt_is_Some_2 entryTimes (i + window - 1)) as [b Hb]; [lia |].
  rewrite Ha. simpl. destruct (Nat.eqb_spec (i + window) 0); [lia |].
  rewrite Hb. simpl.
  rewrite (nth_lookup_Some _ _ _ _ Ha), (nth_lookup_Some _ _ _ _ Hb).
  unfold sub. now rewrite (window_count_exact (length entryTimes)).
Qed.

Lemma mapM_exact {A B} (f : A -> option B) (g : A -> B) (l : list A) :
  (forall x, In x l -> f x = Some (g x)) -> mapM f l = Some (map g l).
Proof.
  induction l as [|x l IH]; intros H; simpl; [reflexivity |].
  rewrite (H x (or_introl eq_refl)). simpl.
  rewrite IH by (intros z Hz; apply H; now right). reflexivity.
Qed.

Lemma best_step_exact (entryTimes : list Z) (window i : nat) (t m : Z) :
  (1 <= window)%nat -> (i + window <= length entryTimes)%nat ->
  Z.of_nat window <= int_max ->
  best_step entryTimes (prefix_of (length entryTimes)) window (Some (t, m)) i
  = if (Z.of_nat window <? m)%Z
    then Some (nth i entryTimes 0, Z.of_nat window)
    else Some (t, m).
Proof.
  intros Hw Hi Hmax. unfold best_step. simpl.
  rewrite (prefix_of_lookup _ (i + window)) by lia.
  rewrite (prefix_of_lookup _ i) by lia. simpl.
  unfold sub. rewrite (window_count_exact (length entryTimes)) by assumption.
  destruct (Z.of_nat window <? m)%Z; [| reflexivity].
  destruct (lookup_lt_is_Some_2 entryTimes i) as [a Ha]; [lia |].
  rewrite Ha. simpl. now rewrite (nth_lookup_Some _ _ _ _ Ha).
Qed.

Lemma best_fold_settled (entryTimes : list Z) (window : nat) (l : list nat) (t : Z) :
  (1 <= window)%nat -> Z.of_nat window <= int_max ->
  (forall i, In i l -> (i + window <= length entryTimes)%nat) ->
  fold_left (best_step entryTimes (prefix_of (length entryTimes)) window) l
    (Some (t, Z.of_nat window)) = Some (t, Z.of_nat window).
Proof.
  intros Hw Hmax. induction l as [|i l IH]; intros Hin; [reflexivity |].
  cbn [fold_left]. rewrite best_step_exact; auto; [| apply Hin; now left].
  rewrite Z.ltb_irrefl. apply IH. intros k Hk. apply Hin. now right.
Qed.

(** X11.  For [1 <= W <= N] the report is fixed by the entry times alone: line [i]
    names the entry times at [i] and at [i + W - 1] with the count [W], and
    since every window has the same count the "best time" is always the
    first entry time, whatever the entry times are. *)
Theorem report_names_first_entry (entryTimes : list Z) (W : nat) :
  (1 <= W <= length entryTimes)%nat -> Z.of_nat (length entryTimes) <= int_max ->
  run entryTimes W
  = Some {| lines := map (fun i => (nth i entryTimes 0,
                                    nth (i + W - 1) entryTimes 0, Z.of_nat W))
                       (seq 0 (length entryTimes - W + 1));
            bestTime := nth 0 entryTimes 0;
            minQueue := Z.of_nat W |}.
Proof.
  intros [Hw Hn] Hmax. unfold run.
  assert (windows (length entryTimes) W = seq 0 (length entryTimes - W + 1)) as Hwin
    by (unfold windows; f_equal; lia).
  rewrite Hwin.
  rewrite (mapM_exact _ (fun i => (nth i entryTimes 0,
                                   nth (i + W - 1) entryTimes 0, Z.of_nat W))).
  2:{ intros i Hi. apply in_seq in Hi. apply queue_line_exact; lia. }
  simpl. destruct (lookup_lt_is_Some_2 entryTimes 0) as [t0 Ht0]; [lia |].
  rewrite Ht0. simpl. rewrite (nth_lookup_Some _ _ _ _ Ht0).
  replace (length entryTimes - W + 1)%nat with (S (length entryTimes - W)) by lia.
  rewrite <- cons_seq. cbn [fold_left].
  rewrite best_step_exact by lia.
  rewrite (nth_lookup_Some _ _ 0 _ Ht0).
  rewrite wrap_exact by (unfold in_range, int_min, int_max in *; lia).
  assert ((if (Z.of_nat W <? Z.of_nat (length entryTimes))%Z
           then Some (t0, Z.of_nat W)
           else Some (t0, Z.of_nat (length entryTimes)))
          = Some (t0, Z.of_nat W)) as ->.
  { destruct (Z.ltb_spec (Z.of_nat W) (Z.of_nat (length entryTimes))); [reflexivity |].
    do 2 f_equal. lia. }
  rewrite best_fold_settled; [reflexivity | lia | lia |].
  intros i Hi. apply in_seq in Hi. lia.
Qed.

(** The seed data, and the same times in reverse: the report still names the
    first entry of the vector, here the latest time. *)
Lemma report_names_first_entry_witness :
  run entryTimes window
  = Some {| lines := [(1, 2, 2); (2, 2, 2); (2, 3, 2); (3, 4, 2); (4, 4, 2); (4, 5, 2)];
            bestTime := 1; minQueue := 2 |}
  /\ bestTime <$> run (rev entryTimes) window = Some 5.
Proof.
  split.
  - rewrite (report_names_first_entry entryTimes window); [reflexivity | | ];
      vm_compute; [lia | discriminate].
  - rewrite (report_names_first_entry (rev entryTimes) window); [reflexivity | | ];
      vm_compute; [lia | discriminate].
Defined.

End FoodFightReportFacts.

(** ** RoomieMatcher: what the assignment guarantees *)

Module RoomieMatcherMoreFacts.
Import RoomieMatcher RoomieMatcherFacts.

(** No student holds two rooms. *)
Definition one_room_each (matches : gmap string string) : Prop :=
  forall r1 r2 s, matches !! r1 = Some s -> matches !! r2 = Some s -> r1 = r2.

Lemma fold_bfsMatch_one_room preferences students (matches : gmap string string) :
  NoDup students ->
  (forall r s, matches !! r = Some s -> In s students -> False) ->
  one_room_each matches ->
  one_room_each
    (fold_left (fun m student => (bfsMatch preferences student m).1) students matches).
Proof.
  revert matches. induction students as [|st students IH];
    intros matches Hnd Hfresh Hone; simpl; [exact Hone |].
  apply NoDup_cons in Hnd as [Hst Hnd].
  assert (forall r s, (bfsMatch preferences st matches).1 !! r = Some s ->
            matches !! r = Some s \/ (s = st /\
              (bfsMatch preferences st matches).1 = <[r := st]> matches)) as Hcase.
  { intros r s. unfold bfsMatch. rewrite bfsMatch_loop_first_free.
    destruct (first_free _ matches) as [r0|] eqn:Hf; simpl; [| now left].
    destruct (decide (r0 = r)) as [->|Hne].
    - rewrite lookup_insert_eq. intros [= <-]. now right.
    - rewrite lookup_insert_ne by exact Hne. now left. }
  apply IH; [exact Hnd | |].
  - intros r s Hr Hin. apply Hcase in Hr as [Hr | [-> _]].
    + apply (Hfresh r s Hr). now right.
    + apply Hst. now apply list_elem_of_In.
  - intros r1 r2 s H1 H2.
    destruct (Hcase r1 s H1) as [H1' | [E1' E1]], (Hcase r2 s H2) as [H2' | [E2 E2']].
    + exact (Hone r1 r2 s H1' H2').
    + subst s. exfalso. apply (Hfresh r1 st H1'). now left.
    + subst s. exfalso. apply (Hfresh r2 st H2'). now left.
    + rewrite E1 in E2'.
      assert ((<[r1 := st]> matches : gmap string string) !! r1
              = (<[r2 := st]> matches : gmap string string) !! r1) as E
        by now rewrite E2'.
      rewrite lookup_insert_eq in E.
      destruct (decide (r2 = r1)) as [-> | Hne]; [reflexivity |].
      rewrite lookup_insert_ne in E by exact Hne.
      exfalso. apply (Hfresh r1 st); [now symmetry | now left].
Qed.

(** X12.  When no name occurs twice in [students], no student ends up with two
    rooms. *)
Theorem student_holds_one_room (preferences : gmap string (list string))
    (students : list string) (r1 r2 s : string) :
  NoDup students ->
  assign preferences students !! r1 = Some s ->
  assign preferences students !! r2 = Some s ->
  r1 = r2.
Proof.
  intros Hnd. apply (fold_bfsMatch_one_room preferences students ∅ Hnd).
  - intros r s' H. now rewrite lookup_empty in H.
  - intros r r' s' H. now rewrite lookup_empty in H.
Qed.

Lemma student_holds_one_room_witness :
  NoDup RoomieMatcher.students
  /\ assign RoomieMatcher.preferences RoomieMatcher.students !! "A1" = Some "Alice"
  /\ "A1" = "A1".
Proof.
  assert (NoDup RoomieMatcher.students) as Hnd.
  { apply (bool_decide_unpack _). vm_compute. exact I. }
  split; [exact Hnd |]. split; [vm_compute; reflexivity |].
  apply (student_holds_one_room RoomieMatcher.preferences RoomieMatcher.students
           "A1" "A1" "Alice" Hnd); vm_compute; reflexivity.
Defined.

(** X13.  A student who holds no room at the end was not passed over: every room
    of its preference list is held by a student who comes earlier in
    [students]. *)
Theorem left_out_only_if_all_taken (preferences : gmap string (list string))
    (pre post : list string) (s : string) :
  (forall room, assign preferences (pre ++ s :: post) !! room = Some s -> False) ->
  forall room, In room (default [] (preferences !! s)) ->
    exists s', assign preferences (pre ++ s :: post) !! room = Some s' /\ In s' pre.
Proof.
  intros Hnone room Hin.
  assert (assign preferences (pre ++ s :: post)
          = fold_left (fun m student => (bfsMatch preferences student m).1) post
              (bfsMatch preferences s (assign preferences pre)).1) as Hsplit.
  { unfold assign. now rewrite fold_left_app. }
  rewrite Hsplit in *. clear Hsplit.
  assert (bfsMatch preferences s (assign preferences pre)
          = match first_free (default [] (preferences !! s)) (assign preferences pre) with
            | Some r => (<[r := s]> (assign preferences pre), true)
            | None => (assign preferences pre, false)
            end) as Hturn by apply bfsMatch_loop_first_free.
  rewrite Hturn in *. clear Hturn.
  destruct (first_free (default [] (preferences !! s)) (assign preferences pre))
    as [r|] eqn:Hf; simpl in *.
  - exfalso. apply (Hnone r). apply fold_bfsMatch_keeps. apply lookup_insert_eq.
  - unfold first_free in Hf.
    pose proof (find_none _ _ Hf room Hin) as Hb. simpl in Hb.
    apply bool_decide_eq_false in Hb.
    destruct (assign preferences pre !! room) as [s'|] eqn:Hs'; [| congruence].
    exists s'. split; [now apply fold_bfsMatch_keeps |].
    unfold assign in Hs'. apply fold_bfsMatch_origin in Hs' as [H | [H _]]; [| exact H].
    now rewrite lookup_empty in H.
Qed.

(** Charlie holds no room on the seed data: A1 and A2 are held by students
    before Charlie. *)
Lemma left_out_only_if_all_taken_witness :
  (exists s', assign RoomieMatcher.preferences (["Alice"; "Bob"] ++ "Charlie" :: ["Daisy"])
                !! "A2" = Some s' /\ In s' ["Alice"; "Bob"]).
Proof.
  apply (left_out_only_if_all_taken RoomieMatcher.preferences ["Alice"; "Bob"] ["Daisy"]
           "Charlie").
  - intros room.
    assert (assign RoomieMatcher.preferences (["Alice"; "Bob"] ++ "Charlie" :: ["Daisy"])
            = <["A1" := "Alice"]> (<["A2" := "Bob"]> ∅)) as ->
      by (vm_compute; reflexivity).
    destruct (decide ("A1" = room)) as [<-|H1].
    { rewrite lookup_insert_eq. discriminate. }
    rewrite lookup_insert_ne by exact H1.
    destruct (decide ("A2" = room)) as [<-|H2].
    { rewrite lookup_insert_eq. discriminate. }
    rewrite lookup_insert_ne, lookup_empty by exact H2. discriminate.
  - vm_compute. auto.
Defined.

End RoomieMatcherMoreFacts.

(** ** main: what a whole session keeps *)

Module MainFacts.
Import Main.

(** The tasks typed in at the visits to HostelFixer, up to the choice 0. *)
Fixpoint task_calls (input : list Choice) : list (string * Z) :=
  match input with
  | [] => []
  | Exit :: _ => []
  | ChooseHostelFixer desc urg :: input' => (desc, urg) :: task_calls input'
  | _ :: input' => task_calls input'
  end.

(** The choices that are served: those before the first 0. *)
Fixpoint served (input : list Choice) : list Choice :=
  match input with
  | [] => []
  | Exit :: _ => []
  | c :: input' => c :: served input'
  end.

(** The hours typed in at the visits to LaundryLoad, up to the choice 0. *)
Fixpoint bookings (input : list Choice) : list (Z * Z) :=
  match input with
  | [] => []
  | Exit :: _ => []
  | ChooseLaundryLoad start end_ :: input' => (start, end_) :: bookings input'
  | _ :: input' => bookings input'
  end.

(** What is typed at the menu of SnackCart, visit by visit, up to the
    choice 0. *)
Fixpoint snack_visits (input : list Choice) : list (list SnackCart.Command) :=
  match input with
  | [] => []
  | Exit :: _ => []
  | ChooseSnackCart commands :: input' => commands :: snack_visits input'
  | _ :: input' => snack_visits input'
  end.

(** Whether RoomieMatcher is chosen before the choice 0. *)
Fixpoint roomie_visited (input : list Choice) : bool :=
  match input with
  | [] => false
  | Exit :: _ => false
  | ChooseRoomieMatcher :: _ => true
  | _ :: input' => roomie_visited input'
  end.

Section Session.

Variable std_sort : list (string * Z) -> list (string * Z).

(** The globals a session leaves, starting from [g]: each module's data is
    what its own visits make of it, one after the other. *)
Definition after_session (g : Globals) (input : list Choice) : Globals :=
  {| snack := fold_left (fun st commands => (SnackCart.run std_sort st commands).1)
                (snack_visits input) g.(snack);
     matches := if roomie_visited input
                then RoomieMatcher.assign RoomieMatcher.preferences RoomieMatcher.students
                else g.(matches);
     slots := LaundryLoadMoreFacts.book_all g.(slots) (bookings input);
     tasks := fold_left (fun tasks call => HostelFixer.insert tasks call.1 call.2)
                (task_calls input) g.(tasks) |}.

Lemma main_cons g c input :
  main std_sort g (c :: input) =
  match dispatch std_sort g c with
  | None => (g, [])
  | Some (g', out) =>
      ((main std_sort g' input).1, out :: (main std_sort g' input).2)
  end.
Proof.
  simpl. destruct (dispatch std_sort g c) as [[g' out]|]; [| reflexivity].
  now destruct (main std_sort g' input).
Qed.

(** The rule of the top menu loop. *)
Lemma main_rule (P : Globals -> Prop) (input : list Choice) :
  (forall g c g' out, P g -> dispatch std_sort g c = Some (g', out) -> P g') ->
  forall g, P g -> P (main std_sort g input).1.
Proof.
  intros Hstep. induction input as [|c input IH]; intros g HP; [exact HP |].
  rewrite main_cons. destruct (dispatch std_sort g c) as [[g' out]|] eqn:Hc; [| exact HP].
  simpl. apply IH. exact (Hstep g c g' out HP Hc).
Qed.

Lemma dispatch_globals g c g' out :
  dispatch std_sort g c = Some (g', out) ->
  g' = match c with
       | ChooseSnackCart input =>
           {| snack := (SnackCart.run std_sort g.(snack) input).1;
              matches := g.(matches); slots := g.(slots); tasks := g.(tasks) |}
       | ChooseRoomieMatcher =>
           {| snack := g.(snack);
              matches := RoomieMatcher.assign RoomieMatcher.preferences
                           RoomieMatcher.students;
              slots := g.(slots); tasks := g.(tasks) |}
       | ChooseLaundryLoad start end_ =>
           {| snack := g.(snack); matches := g.(matches);
              slots := (LaundryLoad.run g.(slots) start end_).1; tasks := g.(tasks) |}
       | ChooseHostelFixer desc urg =>
           {| snack := g.(snack); matches := g.(matches); slots := g.(slots);
              tasks := HostelFixer.insert g.(tasks) desc urg |}
       | _ => g
       end.
Proof.
  destruct c as [|input| | |start end_|desc urg| |]; simpl; try discriminate.
  - destruct (SnackCart.run std_sort (snack g) input). now intros [= <- _].
  - now intros [= <- _].
  - now intros [= <- _].
  - unfold LaundryLoad.run. destruct (LaundryLoad.clash start end_ (slots g));
      now intros [= <- _].
  - now intros [= <- _].
  - now intros [= <- _].
  - now intros [= <- _].
Qed.

Lemma dispatch_None g c : dispatch std_sort g c = None -> c = Exit.
Proof.
  destruct c as [|input| | |start end_|desc urg| |]; simpl; try discriminate;
    try reflexivity.
  - now destruct (SnackCart.run std_sort (snack g) input).
  - now destruct (LaundryLoad.run (slots g) start end_).
Qed.

Lemma main_tasks (input : list Choice) (g : Globals) :
  Stl.is_heap HostelFixer.Task_gt g.(tasks) ->
  Stl.is_heap HostelFixer.Task_gt (main std_sort g input).1.(tasks)
  /\ (main std_sort g input).1.(tasks)
     ≡ₚ (map TaskFacts.task_of (task_calls input) ++ g.(tasks))%list.
Proof.
  revert g. induction input as [|c input IH]; intros g Hg; [now split |].
  rewrite main_cons. destruct (dispatch std_sort g c) as [[g' out]|] eqn:Hc.
  - pose proof (dispatch_globals g c g' out Hc) as Hg'. cbn [fst].
    destruct c as [|sc| | |start end_|desc urg| |]; subst g';
      try discriminate; cbn [task_calls]; try (refine (IH _ _); exact Hg).
    destruct (IH {| snack := snack g; matches := matches g; slots := slots g;
                    tasks := HostelFixer.insert (tasks g) desc urg |}) as [Hh Hp].
    { simpl. apply StlFacts.pq_push_heap;
        [exact TaskFacts.Task_gt_asym | exact TaskFacts.Task_gt_negtrans | exact Hg]. }
    split; [exact Hh |]. rewrite Hp. simpl. unfold HostelFixer.insert.
    rewrite StlFacts.pq_push_perm. unfold TaskFacts.task_of. simpl.
    now rewrite Permutation_middle.
  - apply dispatch_None in Hc as ->. now split.
Qed.

Lemma main_after_session (input : list Choice) (g : Globals) :
  (main std_sort g input).1 = after_session g input.
Proof.
  revert g. induction input as [|c input IH]; intros g; [now destruct g |].
  rewrite main_cons. destruct (dispatch std_sort g c) as [[g' out]|] eqn:Hc.
  - pose proof (dispatch_globals g c g' out Hc) as Hg'. cbn [fst]. rewrite IH.
    destruct c as [|sc| | |start end_|desc urg| |]; subst g'; try discriminate;
      unfold after_session; cbn [snack_visits bookings task_calls roomie_visited
                                 fold_left snack matches slots tasks
                                 LaundryLoadMoreFacts.book_all fst snd];
      try reflexivity.
    now destruct (roomie_visited input).
  - apply dispatch_None in Hc as ->. now destruct g.
Qed.

Lemma main_snoc (before : list Choice) (c : Choice) (g : Globals) :
  (In Exit before -> False) ->
  main std_sort g (before ++ [c])
  = match dispatch std_sort (main std_sort g before).1 c with
    | None => main std_sort g before
    | Some (g', out) => (g', ((main std_sort g before).2 ++ [out])%list)
    end.
Proof.
  revert g. induction before as [|c0 before IH]; intros g Hno.
  - simpl. now destruct (dispatch std_sort g c) as [[g' out]|].
  - rewrite <- app_comm_cons, !main_cons.
    destruct (dispatch std_sort g c0) as [[g1 out0]|] eqn:Hc0.
    + rewrite IH by (intros H; apply Hno; now right). cbn [fst snd].
      now destruct (dispatch std_sort (main std_sort g1 before).1 c) as [[g' out]|].
    + apply dispatch_None in Hc0 as ->. destruct Hno. now left.
Qed.

(** X14.  Over a whole session, whatever is chosen at the top menu and typed
    in the modules, each module's data is what its own visits have made of
    it, one after the other, the visits to other modules in between
    changing nothing: the task queue holds the tasks of all visits to
    HostelFixer, the slots are the seed slots with the bookings of all
    visits to LaundryLoad, the stock and history are those of all visits to
    SnackCart run one after the other, and the room assignment is empty
    until RoomieMatcher is chosen and the assignment of the seed data from
    then on.  So the tasks of all visits are listed in ascending order of
    urgency, no stored slot clashed when it was booked, and the stock keeps
    its items.  Each choice before the first 0 acts on the data the choices
    before it leave, and prints one output. *)
Theorem session_keeps_data (input : list Choice) :
  ((main std_sort globals0 input).1.(tasks) = TaskFacts.inserted (task_calls input)
   /\ (main std_sort globals0 input).1.(slots)
      = LaundryLoadMoreFacts.book_all LaundryLoad.slots (bookings input)
   /\ (main std_sort globals0 input).1.(snack)
      = fold_left (fun st commands => (SnackCart.run std_sort st commands).1)
          (snack_visits input) SnackCart.state0
   /\ (main std_sort globals0 input).1.(matches)
      = if roomie_visited input
        then RoomieMatcher.assign RoomieMatcher.preferences RoomieMatcher.students
        else ∅)
  /\ (forall before c, (In Exit before -> False) ->
        main std_sort globals0 (before ++ [c])
        = match dispatch std_sort (main std_sort globals0 before).1 c with
          | None => main std_sort globals0 before
          | Some (g', out) => (g', ((main std_sort globals0 before).2 ++ [out])%list)
          end)
  /\ (HostelFixer.listByUrgency (main std_sort globals0 input).1.(tasks)
        ≡ₚ map TaskFacts.task_of (task_calls input)
      /\ StronglySorted (fun a b => HostelFixer.urgency a <= HostelFixer.urgency b)
           (HostelFixer.listByUrgency (main std_sort globals0 input).1.(tasks)))
  /\ (LaundryLoadMoreFacts.no_clash (main std_sort globals0 input).1.(slots)
      /\ exists added,
           (main std_sort globals0 input).1.(slots) = (LaundryLoad.slots ++ added)%list)
  /\ SnackCartRunFacts.same_catalog SnackCart.state0 (main std_sort globals0 input).1.(snack)
  /\ ((main std_sort globals0 input).1.(matches) = ∅
      \/ (main std_sort globals0 input).1.(matches)
         = <["A1" := "Alice"]> (<["A2" := "Bob"]> ∅))
  /\ length (main std_sort globals0 input).2 = length (served input).
Proof.
  split; [| split; [| split; [| split; [| split; [| split]]]]].
  - rewrite main_after_session. repeat split.
  - intros before c. apply main_snoc.
  - destruct (main_tasks input globals0) as [Hh Hp].
    { apply StlFacts.is_heap_nil. }
    destruct (StlFacts.drain_sorted HostelFixer.Task_gt TaskFacts.Task_gt_asym
                TaskFacts.Task_gt_negtrans _ Hh) as [Hd Hs].
    unfold HostelFixer.listByUrgency. split.
    + rewrite Hd, Hp. simpl. now rewrite app_nil_r.
    + eapply StlFacts.StronglySorted_weaken; [| exact Hs].
      intros a b. apply TaskFacts.Task_gt_false.
  - apply (main_rule (fun g => LaundryLoadMoreFacts.no_clash g.(slots)
                        /\ exists added, g.(slots) = (LaundryLoad.slots ++ added)%list)).
    + intros g c g' out [Hno [added Hadd]] Hc.
      rewrite (dispatch_globals g c g' out Hc).
      destruct c as [|sc| | |start end_|desc urg| |]; simpl;
        try (split; [exact Hno | now exists added]).
      split; [now apply LaundryLoadMoreFacts.run_keeps_no_clash |].
      unfold LaundryLoad.run. destruct (LaundryLoad.clash start end_ (slots g)); simpl;
        [now exists added |].
      exists (added ++ [(start, end_)])%list. now rewrite Hadd, <- app_assoc.
    + split; [exact LaundryLoadMoreFacts.seed_no_clash |]. exists []. reflexivity.
  - apply (main_rule (fun g => SnackCartRunFacts.same_catalog SnackCart.state0 g.(snack))).
    + intros g c g' out Hsame Hc. rewrite (dispatch_globals g c g' out Hc).
      destruct c as [|sc| | |start end_|desc urg| |]; simpl; auto.
      apply (SnackCartRunFacts.same_catalog_trans _ _ _ Hsame).
      apply (SnackCartRunFacts.run_rule std_sort
               (SnackCartRunFacts.same_catalog (snack g)));
        [| apply SnackCartRunFacts.same_catalog_refl].
      intros st1 c1 st2 out1 H1 _ Hc1.
      apply (SnackCartRunFacts.same_catalog_trans _ st1 st2 H1).
      now apply (SnackCartRunFacts.step_same_catalog std_sort st1 c1 st2 out1).
    + apply SnackCartRunFacts.same_catalog_refl.
  - apply (main_rule (fun g => g.(matches) = ∅
                        \/ g.(matches) = <["A1" := "Alice"]> (<["A2" := "Bob"]> ∅))).
    + intros g c g' out Hm Hc. rewrite (dispatch_globals g c g' out Hc).
      destruct c as [|sc| | |start end_|desc urg| |]; simpl; auto.
    + now left.
  - generalize globals0. induction input as [|c input IH]; intros g; [reflexivity |].
    rewrite main_cons. destruct (dispatch std_sort g c) as [[g' out]|] eqn:Hc.
    + cbn [snd length]. rewrite IH. destruct c; try discriminate; reflexivity.
    + apply dispatch_None in Hc as ->. reflexivity.
Qed.

End Session.

End MainFacts.
